(** * object-to-directory: the handler resolution and directory-materialization engine

    A shallow embedding of
    - [path_encoder.ts]      ([encodePathElement], [decodePathElement]),
    - [merge_utilities.ts]   ([isObject], [mergeOptions]),
    - [directory_reference.ts] ([DirectoryReference], [DirectoryEscapeError]),
    - [directory_storer.ts]  ([DirectoryValueStorageHandler]),
    together with the parts of the platform they call: the WHATWG URL
    parser for relative references, the posix [normalize] of the std path
    library and [encodeURIComponent].

    JavaScript strings are sequences of UTF-16 code units, modelled as
    [list N]; [js] turns an ASCII literal into such a sequence. *)

From Stdlib Require Import List Bool NArith ZArith Ascii String Lia.
Import ListNotations.

Set Warnings "-register-all".

Open Scope N_scope.

(** ** JavaScript strings *)

Definition jsstr := list N.

Definition js (s : string) : jsstr :=
  map (fun a => N_of_ascii a) (list_ascii_of_string s).

Fixpoint str_eqb (a b : jsstr) : bool :=
  match a, b with
  | [], [] => true
  | x :: a', y :: b' => N.eqb x y && str_eqb a' b'
  | _, _ => false
  end.

(** [s.startsWith(p)] *)
Fixpoint starts_with (s p : jsstr) {struct p} : bool :=
  match p, s with
  | [], _ => true
  | y :: p', x :: s' => N.eqb x y && starts_with s' p'
  | _ :: _, [] => false
  end.

(** [s.endsWith(c)] for a one-unit suffix *)
Definition ends_with_unit (s : jsstr) (c : N) : bool :=
  match rev s with
  | x :: _ => N.eqb x c
  | [] => false
  end.

Definition PERCENT : N := 37.   (* "%" *)
Definition SLASH : N := 47.     (* "/" *)
Definition DOT : N := 46.       (* "." *)

(** ** Path codec ([path_encoder.ts]) *)

(** [s.replaceAll(c, rep)] for a one-unit search string [c]. *)
Fixpoint replace_all_unit (c : N) (rep : jsstr) (s : jsstr) : jsstr :=
  match s with
  | [] => []
  | x :: s' =>
      if N.eqb x c then rep ++ replace_all_unit c rep s'
      else x :: replace_all_unit c rep s'
  end.

(** [s.replaceAll(a b c, rep)] for a three-unit search string: the scan
    goes left to right; after a match it resumes behind the match, after
    a mismatch one unit further. *)
Fixpoint replace_all_triple (a b c : N) (rep : jsstr) (s : jsstr) : jsstr :=
  match s with
  | [] => []
  | x :: t =>
      match t with
      | y :: z :: rest =>
          if N.eqb x a && N.eqb y b && N.eqb z c
          then rep ++ replace_all_triple a b c rep rest
          else x :: replace_all_triple a b c rep t
      | _ => x :: replace_all_triple a b c rep t
      end
  end.

(** [element.replaceAll("%", "%25").replaceAll("/", "%2F")] *)
Definition encodePathElement (element : jsstr) : jsstr :=
  replace_all_unit SLASH (js "%2F") (replace_all_unit PERCENT (js "%25") element).

(** [element.replaceAll("%2F", "/").replaceAll("%25", "%")] *)
Definition decodePathElement (element : jsstr) : jsstr :=
  replace_all_triple 37 50 53 [PERCENT]
    (replace_all_triple 37 50 70 [SLASH] element).

(** ** Paths as "/"-separated segments *)

(** [s.split("/")] *)
Fixpoint split_slash (s : jsstr) : list jsstr :=
  match s with
  | [] => [[]]
  | x :: s' =>
      let r := split_slash s' in
      if N.eqb x SLASH then [] :: r
      else match r with
           | seg :: rest => (x :: seg) :: rest
           | [] => [[x]]
           end
  end.

(** [segs.join("/")] *)
Fixpoint join_slash (segs : list jsstr) : jsstr :=
  match segs with
  | [] => []
  | [seg] => seg
  | seg :: rest => seg ++ SLASH :: join_slash rest
  end.

(** ** [normalize] of the std posix path library

    [normalizeString] scans the path one segment at a time: empty and "."
    segments are dropped, ".." removes the last kept segment (or is kept
    itself, for a relative path, when there is nothing to remove or the
    last kept segment is ".." too), and any other segment is kept. The
    kept segments are held last-first in [res]. *)
Definition normalize_segment (allowAboveRoot : bool) (res : list jsstr)
    (seg : jsstr) : list jsstr :=
  if str_eqb seg [] || str_eqb seg [DOT] then res
  else if str_eqb seg [DOT; DOT] then
    match res with
    | top :: rest =>
        if str_eqb top [DOT; DOT]
        then (if allowAboveRoot then [DOT; DOT] :: res else res)
        else rest
    | [] => if allowAboveRoot then [[DOT; DOT]] else []
    end
  else seg :: res.

Definition normalizeString (path : jsstr) (allowAboveRoot : bool) : jsstr :=
  join_slash (rev (fold_left (normalize_segment allowAboveRoot) (split_slash path) [])).

Definition normalize (path : jsstr) : jsstr :=
  match path with
  | [] => [DOT]
  | c :: _ =>
      let isAbsolute := N.eqb c SLASH in
      let trailingSeparator := ends_with_unit path SLASH in
      let p := normalizeString path (negb isAbsolute) in
      let p := if str_eqb p [] && negb isAbsolute then [DOT] else p in
      let p := if negb (str_eqb p []) && trailingSeparator then p ++ [SLASH] else p in
      if isAbsolute then SLASH :: p else p
  end.

(** ** URLs of special schemes (WHATWG URL standard)

    Only the parts the directory reference reads or writes are kept: the
    scheme (the file scheme has its own rules for Windows drive letters),
    the host and the path, a list of segments. *)
Inductive scheme := File | OtherSpecial (name : jsstr).

Record URL := mkURL { url_scheme : scheme; url_host : jsstr; url_path : list jsstr }.

(** [url.pathname]: every segment preceded by "/". *)
Definition pathname (u : URL) : jsstr := flat_map (fun seg => SLASH :: seg) (url_path u).

Definition is_ascii_alpha (c : N) : bool :=
  ((65 <=? c) && (c <=? 90)) || ((97 <=? c) && (c <=? 122)).

Definition is_windows_drive_letter (s : jsstr) : bool :=
  match s with
  | [a; b] => is_ascii_alpha a && (N.eqb b 58 || N.eqb b 124)
  | _ => false
  end.

Definition is_normalized_windows_drive_letter (s : jsstr) : bool :=
  match s with
  | [a; b] => is_ascii_alpha a && N.eqb b 58
  | _ => false
  end.

Definition starts_with_windows_drive_letter (s : jsstr) : bool :=
  match s with
  | a :: b :: rest =>
      is_windows_drive_letter [a; b] &&
      match rest with
      | [] => true
      | c :: _ => N.eqb c 47 || N.eqb c 92 || N.eqb c 63 || N.eqb c 35
      end
  | _ => false
  end.

Definition is_e (c : N) : bool := N.eqb c 101 || N.eqb c 69.

(** "." or "%2e" (ASCII case-insensitive) *)
Definition is_single_dot_segment (seg : jsstr) : bool :=
  match seg with
  | [a] => N.eqb a DOT
  | [a; b; c] => N.eqb a 37 && N.eqb b 50 && is_e c
  | _ => false
  end.

(** "..", ".%2e", "%2e." or "%2e%2e" (ASCII case-insensitive) *)
Definition is_double_dot_segment (seg : jsstr) : bool :=
  match seg with
  | [a; b] => N.eqb a DOT && N.eqb b DOT
  | [a; b; c; d] =>
      (N.eqb a DOT && is_single_dot_segment [b; c; d]) ||
      (is_single_dot_segment [a; b; c] && N.eqb d DOT)
  | [a; b; c; d; e; f] => is_single_dot_segment [a; b; c] && is_single_dot_segment [d; e; f]
  | _ => false
  end.

(** "shorten a URL's path" *)
Definition shorten (sch : scheme) (path : list jsstr) : list jsstr :=
  match sch, path with
  | File, [p0] => if is_normalized_windows_drive_letter p0 then path else []
  | _, _ => removelast path
  end.

(** The path state of the URL parser, one buffered segment at a time
    ([segs] is the rest of the input split at "/"; the last segment is the
    one ended by the end of the input). *)
Fixpoint path_state (sch : scheme) (path : list jsstr) (segs : list jsstr) : list jsstr :=
  match segs with
  | [] => path
  | buffer :: rest =>
      let at_end := match rest with [] => true | _ => false end in
      let path' :=
        if is_double_dot_segment buffer then
          let p := shorten sch path in if at_end then p ++ [[]] else p
        else if is_single_dot_segment buffer then
          (if at_end then path ++ [[]] else path)
        else
          let buffer' :=
            match sch, path, buffer with
            | File, [], [a; _] => if is_windows_drive_letter buffer then [a; 58] else buffer
            | _, _, _ => buffer
            end in
          path ++ [buffer'] in
      path_state sch path' rest
  end.

(** Code units the modelled fragment of the parser leaves out: those it
    strips (C0 controls, space), those it percent-encodes in a path, those
    that end the path ("?", "#") and the backslash, read as "/" by special
    schemes. *)
Definition url_unmodelled_unit (c : N) : bool :=
  (c <=? 32) || N.eqb c 34 || N.eqb c 35 || N.eqb c 60 || N.eqb c 62 || N.eqb c 63 ||
  N.eqb c 92 || N.eqb c 94 || N.eqb c 96 || N.eqb c 123 || N.eqb c 125 || (126 <? c).

Definition is_scheme_unit (c : N) : bool :=
  is_ascii_alpha c || ((48 <=? c) && (c <=? 57)) || N.eqb c 43 || N.eqb c 45 || N.eqb c DOT.

Fixpoint scheme_rest (s : jsstr) : bool :=
  match s with
  | [] => false
  | c :: s' => if N.eqb c 58 then true else if is_scheme_unit c then scheme_rest s' else false
  end.

(** The input starts with a scheme ("name:"): an absolute URL. *)
Definition has_scheme (s : jsstr) : bool :=
  match s with
  | c :: s' => is_ascii_alpha c && scheme_rest s'
  | [] => false
  end.

(** The references the model resolves: no unmodelled code unit, no scheme,
    and no authority ("//"). *)
Definition in_url_fragment (name : jsstr) : bool :=
  negb (existsb url_unmodelled_unit name) && negb (has_scheme name) &&
  negb (starts_with name [SLASH; SLASH]).

(** Start of the path for a path-absolute reference ("/..."): the file
    scheme keeps the base's drive letter. *)
Definition file_slash_start (sch : scheme) (rest : jsstr) (bpath : list jsstr) : list jsstr :=
  match sch, bpath with
  | File, p0 :: _ =>
      if negb (starts_with_windows_drive_letter rest) && is_normalized_windows_drive_letter p0
      then [p0] else []
  | _, _ => []
  end.

(** Start of the path for a path-relative reference. *)
Definition relative_start (sch : scheme) (name : jsstr) (bpath : list jsstr) : list jsstr :=
  match sch with
  | File => if starts_with_windows_drive_letter name then [] else shorten sch bpath
  | OtherSpecial _ => shorten sch bpath
  end.

(** [new URL(name, base)] for a reference in the modelled fragment;
    [None] for the other references. *)
Definition resolve_reference (name : jsstr) (base : URL) : option URL :=
  if in_url_fragment name then
    let sch := url_scheme base in
    let bpath := url_path base in
    let path :=
      match name with
      | [] => bpath
      | c :: rest =>
          if N.eqb c SLASH
          then path_state sch (file_slash_start sch rest bpath) (split_slash rest)
          else path_state sch (relative_start sch name bpath) (split_slash name)
      end in
    Some (mkURL sch (url_host base) path)
  else None.

(** [url.pathname = p] on a special URL: the path is emptied and [p] is
    parsed from the path start state, which skips one leading "/". *)
Definition set_pathname (u : URL) (p : jsstr) : URL :=
  let input := match p with
               | c :: rest => if N.eqb c SLASH then rest else p
               | [] => []
               end in
  mkURL (url_scheme u) (url_host u) (path_state (url_scheme u) [] (split_slash input)).

(** ** [directory_reference.ts] *)

(** The three strings a [DirectoryEscapeError] reports. *)
Record DirectoryEscapeError := mkDirectoryEscapeError {
  candidatePath : jsstr;
  escapedPath : jsstr;
  enclosingPath : jsstr
}.

Record DirectoryReference := mkDirRef {
  canonicalUrl : URL;
  urlWithTrailingSlash : URL
}.

Inductive result (A E : Type) : Type :=
| Ok (a : A)
| Err (e : E).
Arguments Ok {A E} a.
Arguments Err {A E} e.

(** [new DirectoryReference(directoryUrl)] *)
Definition newDirectoryReference (directoryUrl : URL) : DirectoryReference :=
  let normalizedUrl := set_pathname directoryUrl (normalize (pathname directoryUrl)) in
  if ends_with_unit (pathname normalizedUrl) SLASH then
    mkDirRef (set_pathname normalizedUrl (removelast (pathname normalizedUrl)))
             normalizedUrl
  else
    mkDirRef normalizedUrl
             (set_pathname normalizedUrl (pathname normalizedUrl ++ [SLASH])).

(** [directoryReference.getContentsUrl(name)]; [None] when [name] lies
    outside the modelled fragment of the URL parser. *)
Definition getContentsUrl (d : DirectoryReference) (name : jsstr)
    : option (result URL DirectoryEscapeError) :=
  match resolve_reference name (urlWithTrailingSlash d) with
  | None => None
  | Some resolved =>
      let contentsUrl := set_pathname resolved (normalize (pathname resolved)) in
      if starts_with (pathname contentsUrl) (pathname (urlWithTrailingSlash d))
      then Some (Ok contentsUrl)
      else Some (Err (mkDirectoryEscapeError name (pathname contentsUrl)
                                             (pathname (canonicalUrl d))))
  end.

(** The spec's reading of the resolver: join [name] onto the canonical path
    with one separator and normalize; the name stays inside when the result
    starts with the canonical path plus a separator. *)
Definition spec_joined_path (d : DirectoryReference) (name : jsstr) : jsstr :=
  normalize (pathname (canonicalUrl d) ++ SLASH :: name).

Definition spec_stays_within (d : DirectoryReference) (name : jsstr) : bool :=
  starts_with (spec_joined_path d name) (pathname (canonicalUrl d) ++ [SLASH]).

(** A segment of a canonical location or of a plain name: not empty, no
    "/", no code unit outside the modelled fragment of the URL parser, not
    a dot segment and not a Windows drive letter. *)
Definition has_slash (seg : jsstr) : bool := existsb (fun x => N.eqb x SLASH) seg.

Definition plain_segment (seg : jsstr) : bool :=
  negb (is_single_dot_segment seg) && negb (is_double_dot_segment seg) &&
  negb (is_windows_drive_letter seg).

Definition ordinary_segment (seg : jsstr) : bool :=
  negb (str_eqb seg []) && negb (has_slash seg) &&
  negb (existsb url_unmodelled_unit seg) && plain_segment seg.

(** ** JavaScript values *)

(** The values a tree node can hold; an object keeps its own enumerable
    string-keyed properties in [Object.entries] order. *)
Inductive value :=
| VUndefined
| VNull
| VBool (b : bool)
| VNumber (z : Z)
| VString (s : jsstr)
| VArray (items : list value)
| VObject (entries : list (jsstr * value)).

(** [typeof] *)
Definition js_typeof (v : value) : jsstr :=
  match v with
  | VUndefined => js "undefined"
  | VNull => js "object"
  | VBool _ => js "boolean"
  | VNumber _ => js "number"
  | VString _ => js "string"
  | VArray _ | VObject _ => js "object"
  end.

(** [candidate === "object"] *)
Definition strict_equals_object_string (candidate : value) : bool :=
  match candidate with
  | VString s => str_eqb s (js "object")
  | _ => false
  end.

Definition is_null (v : value) : bool := match v with VNull => true | _ => false end.

(** [Array.isArray] *)
Definition is_array (v : value) : bool := match v with VArray _ => true | _ => false end.

(** Truthiness of a string: not empty. *)
Definition string_truthy (s : jsstr) : bool := negb (str_eqb s []).

(** [isObject] of [merge_utilities.ts], as written:
    [typeof (candidate === "object") && (candidate !== null) && !Array.isArray(candidate)].
    The first operand is [typeof] of a boolean. *)
Definition isObject (candidate : value) : bool :=
  string_truthy (js_typeof (VBool (strict_equals_object_string candidate))) &&
  negb (is_null candidate) && negb (is_array candidate).

(** What the repository's tests expect of it
    ([assertFalse(handler.canStoreValue("", tmpUrl, 42))]):
    [typeof candidate === "object" && candidate !== null && !Array.isArray(candidate)]. *)
Definition isPlainObject (candidate : value) : bool :=
  str_eqb (js_typeof candidate) (js "object") &&
  negb (is_null candidate) && negb (is_array candidate).

(** Decimal digits of an array or string index. *)
Fixpoint digits_rev (fuel n : nat) : jsstr :=
  match fuel with
  | O => []
  | S f => (48 + N.of_nat (Nat.modulo n 10)) :: (if Nat.ltb n 10 then [] else digits_rev f (Nat.div n 10))
  end.

Definition index_key (n : nat) : jsstr := rev (digits_rev (S n) n).

Fixpoint indexed {A : Type} (mk : A -> value) (i : nat) (xs : list A) : list (jsstr * value) :=
  match xs with
  | [] => []
  | x :: xs' => (index_key i, mk x) :: indexed mk (S i) xs'
  end.

(** [Object.entries(v)]; [None] is the TypeError it throws on
    [undefined] and [null]. *)
Definition object_entries (v : value) : option (list (jsstr * value)) :=
  match v with
  | VUndefined | VNull => None
  | VBool _ | VNumber _ => Some []
  | VString s => Some (indexed (fun c => VString [c]) 0 s)
  | VArray items => Some (indexed (fun x => x) 0 items)
  | VObject es => Some es
  end.

(** ** Options ([ValueStorageHandlerOptions]) and [mergeOptions] *)

(** A value an option property can hold: an [AbortSignal] (its identity
    and whether it is aborted), a property-name encoder function (its
    identity and behaviour), or a plain value. *)
Inductive opt_value :=
| OptUndefined
| OptBool (b : bool)
| OptNumber (z : Z)
| OptSignal (id : nat) (aborted : bool)
| OptEncoder (id : nat) (f : jsstr -> jsstr).

(** An options object: its own properties in order, distinct keys. *)
Definition Options := list (jsstr * opt_value).

Fixpoint get_prop (k : jsstr) (o : Options) : option opt_value :=
  match o with
  | [] => None
  | (k', v) :: o' => if str_eqb k k' then Some v else get_prop k o'
  end.

(** [target[k] = v]: an existing property keeps its place. *)
Fixpoint set_prop (o : Options) (k : jsstr) (v : opt_value) : Options :=
  match o with
  | [] => [(k, v)]
  | (k', v') :: o' => if str_eqb k k' then (k', v) :: o' else (k', v') :: set_prop o' k v
  end.

(** [Object.assign(target, source)] *)
Fixpoint assign (target source : Options) : Options :=
  match source with
  | [] => target
  | (k, v) :: source' => assign (set_prop target k v) source'
  end.

(** [mergeOptions(defaultOptions, options)]; [None] is [undefined]. *)
Definition mergeOptions (defaultOptions options : option Options) : option Options :=
  match defaultOptions with
  | None => options
  | Some d =>
      match options with
      | None => Some d
      | Some o => Some (assign (assign [] d) o)
      end
  end.

(** [options?.k]: [undefined] when the options or the property are missing. *)
Definition read_option (options : option Options) (k : jsstr) : opt_value :=
  match options with
  | None => OptUndefined
  | Some o => match get_prop k o with Some v => v | None => OptUndefined end
  end.

Definition opt_truthy (v : opt_value) : bool :=
  match v with
  | OptUndefined => false
  | OptBool b => b
  | OptNumber z => negb (Z.eqb z 0)
  | OptSignal _ _ | OptEncoder _ _ => true
  end.

(** ** [encodeURIComponent] *)

(** A-Z a-z 0-9 - _ . ! ~ * ' ( ) *)
Definition uri_unreserved (c : N) : bool :=
  is_ascii_alpha c || ((48 <=? c) && (c <=? 57)) ||
  N.eqb c 45 || N.eqb c 95 || N.eqb c 46 || N.eqb c 33 || N.eqb c 126 ||
  N.eqb c 42 || N.eqb c 39 || N.eqb c 40 || N.eqb c 41.

Definition hex_digit (n : N) : N := if n <? 10 then 48 + n else 55 + n.

Definition percent_byte (b : N) : jsstr := [PERCENT; hex_digit (b / 16); hex_digit (b mod 16)].

(** The UTF-8 bytes of a code point, percent-encoded. *)
Definition percent_utf8 (cp : N) : jsstr :=
  if cp <? 128 then percent_byte cp
  else if cp <? 2048 then
    percent_byte (192 + cp / 64) ++ percent_byte (128 + cp mod 64)
  else if cp <? 65536 then
    percent_byte (224 + cp / 4096) ++ percent_byte (128 + (cp / 64) mod 64) ++
    percent_byte (128 + cp mod 64)
  else
    percent_byte (240 + cp / 262144) ++ percent_byte (128 + (cp / 4096) mod 64) ++
    percent_byte (128 + (cp / 64) mod 64) ++ percent_byte (128 + cp mod 64).

Definition is_high_surrogate (c : N) : bool := (55296 <=? c) && (c <=? 56319).
Definition is_low_surrogate (c : N) : bool := (56320 <=? c) && (c <=? 57343).

(** [encodeURIComponent(s)]; [None] is the URIError on a lone surrogate. *)
Fixpoint encodeURIComponent (s : jsstr) : option jsstr :=
  match s with
  | [] => Some []
  | c :: rest =>
      if uri_unreserved c then
        option_map (fun r => c :: r) (encodeURIComponent rest)
      else if is_high_surrogate c then
        match rest with
        | d :: rest' =>
            if is_low_surrogate d then
              option_map (fun r => percent_utf8 (65536 + (c - 55296) * 1024 + (d - 56320)) ++ r)
                         (encodeURIComponent rest')
            else None
        | [] => None
        end
      else if is_low_surrogate c then None
      else option_map (fun r => percent_utf8 c ++ r) (encodeURIComponent rest)
  end.

(** ** The collaborators of the materializer *)

(** A candidate handler ([ValueStorageHandler]): its name, its
    [canStoreValue] and whether its [storeValue] resolves. *)
Record Handler := mkHandler {
  h_name : jsstr;
  h_canStoreValue : jsstr -> URL -> value -> bool;
  h_storeValue_ok : jsstr -> URL -> value -> option Options -> bool
}.

(** A [DirectoryCreator]: whether [createDirectory] resolves. *)
Record DirectoryCreator := mkDirectoryCreator {
  createDirectory_ok : URL -> bool
}.

(** The calls the engine makes on its collaborators, in order. *)
Inductive event :=
| ECreateDirectory (url : URL)
| ECanStore (handler : jsstr) (pathInSource : jsstr) (url : URL) (v : value)
| EStore (handler : jsstr) (pathInSource : jsstr) (url : URL) (v : value) (options : option Options).

(** Why a [storeValue] promise rejects. *)
Inductive error :=
| TypeMismatch (pathInSource : jsstr)       (* the TypeError of a non-object value *)
| NoHandlerMatched (pathInSource : jsstr)   (* strict mode, nothing stores the value *)
| DirectoryEscape (e : DirectoryEscapeError)
| Cancelled                                 (* [throwIfAborted] on an aborted signal *)
| NotAFunction                              (* calling an option that is not a function *)
| EntriesOfNullish                          (* [Object.entries] of undefined or null *)
| URIErrorLoneSurrogate                     (* [encodeURIComponent] *)
| HandlerRejected (handler : jsstr) (pathInSource : jsstr)
| CreateDirectoryRejected (url : URL)
| UnmodelledReference                       (* a URL reference outside the modelled parser *)
| StackExhausted.                           (* recursion deeper than the fuel *)

(** ** A writer and error monad: the calls made and the outcome *)

Definition M (A : Type) : Type := (result A error * list event)%type.

Definition ret {A : Type} (a : A) : M A := (Ok a, []).

Definition throw {A : Type} (e : error) : M A := (Err e, []).

Definition emit (ev : event) : M unit := (Ok tt, [ev]).

Definition bind {A B : Type} (m : M A) (f : A -> M B) : M B :=
  match m with
  | (Ok a, t1) => let (r, t2) := f a in (r, t1 ++ t2)
  | (Err e, t1) => (Err e, t1)
  end.

Notation "x <- m ;; k" := (bind m (fun x => k)) (at level 61, m at next level, right associativity).
Notation "m ;;; k" := (bind m (fun _ => k)) (at level 61, right associativity).

Definition lift_option {A : Type} (e : error) (o : option A) : M A :=
  match o with Some a => ret a | None => throw e end.

(** [for (const x of xs) await f(x)] *)
Fixpoint for_each {A : Type} (f : A -> M unit) (xs : list A) : M unit :=
  match xs with
  | [] => ret tt
  | x :: xs' => f x ;;; for_each f xs'
  end.

(** ** [DirectoryValueStorageHandler] ([directory_storer.ts]) *)

Record DirectoryValueStorageHandler := mkDirectoryValueStorageHandler {
  dv_name : jsstr;
  dv_handlers : list Handler;
  dv_directoryCreator : DirectoryCreator;
  dv_defaultOptions : option Options
}.

Definition canStoreValue (_pathInSource : jsstr) (_destinationUrl : URL) (v : value) : bool :=
  isObject v.

(** [options?.signal?.throwIfAborted()] *)
Definition throwIfAborted (options : option Options) : M unit :=
  match read_option options (js "signal") with
  | OptUndefined => ret tt
  | OptSignal _ aborted => if aborted then throw Cancelled else ret tt
  | _ => throw NotAFunction
  end.

(** [mergedOptions?.propertyNameEncoder ?? encodePathElement]; [None] when
    the option holds something that cannot be called. *)
Definition propertyNameEncoder (mergedOptions : option Options) : option (jsstr -> jsstr) :=
  match read_option mergedOptions (js "propertyNameEncoder") with
  | OptUndefined => Some encodePathElement
  | OptEncoder _ f => Some f
  | _ => None
  end.

Definition is_strict (mergedOptions : option Options) : bool :=
  opt_truthy (read_option mergedOptions (js "strict")).

(** [await this.#directoryCreator.createDirectory(url, { recursive: true })] *)
Definition createDirectory (creator : DirectoryCreator) (url : URL) : M unit :=
  emit (ECreateDirectory url) ;;;
  if createDirectory_ok creator url then ret tt else throw (CreateDirectoryRejected url).

(** The candidate scan: the first handler whose [canStoreValue] holds is
    awaited and the scan stops ([stored = true; break;]). *)
Fixpoint scan_handlers (handlers : list Handler) (pathInSource : jsstr) (url : URL)
    (v : value) (mergedOptions : option Options) : M bool :=
  match handlers with
  | [] => ret false
  | h :: handlers' =>
      emit (ECanStore (h_name h) pathInSource url v) ;;;
      if h_canStoreValue h pathInSource url v then
        emit (EStore (h_name h) pathInSource url v mergedOptions) ;;;
        (if h_storeValue_ok h pathInSource url v mergedOptions
         then ret true else throw (HandlerRejected (h_name h) pathInSource))
      else scan_handlers handlers' pathInSource url v mergedOptions
  end.

(** [directoryReference.getContentsUrl(name)] inside [storeValue]: the
    escape error rejects the promise. *)
Definition contents_url (d : DirectoryReference) (name : jsstr) : M URL :=
  match getContentsUrl d name with
  | Some (Ok u) => ret u
  | Some (Err e) => throw (DirectoryEscape e)
  | None => throw UnmodelledReference
  end.

(** The nested location of a property:
    [directoryReference.getContentsUrl(encodeURIComponent(propertyNameEncoder(nestedKey)))]. *)
Definition nested_destination (d : DirectoryReference) (encoder : option (jsstr -> jsstr))
    (nestedKey : jsstr) : M URL :=
  f <- lift_option NotAFunction encoder ;;
  name <- lift_option URIErrorLoneSurrogate (encodeURIComponent (f nestedKey)) ;;
  contents_url d name.

(** The body of the [for (const [nestedKey, nestedValue] of Object.entries(value))]
    loop; [store_self] is [this.storeValue]. *)
Definition store_entry (handlers : list Handler)
    (store_self : jsstr -> URL -> value -> option Options -> M unit)
    (pathInSource : jsstr) (d : DirectoryReference) (mergedOptions : option Options)
    (encoder : option (jsstr -> jsstr)) (entry : jsstr * value) : M unit :=
  let (nestedKey, nestedValue) := entry in
  let nestedPathInSource := pathInSource ++ SLASH :: encodePathElement nestedKey in
  nestedDestinationUrl <- nested_destination d encoder nestedKey ;;
  stored <- scan_handlers handlers nestedPathInSource nestedDestinationUrl nestedValue mergedOptions ;;
  if stored then ret tt
  else if canStoreValue nestedPathInSource nestedDestinationUrl nestedValue then
    store_self nestedPathInSource nestedDestinationUrl nestedValue mergedOptions
  else if is_strict mergedOptions then throw (NoHandlerMatched nestedPathInSource)
  else ret tt.

(** [storeValue(pathInSource, destinationUrl, value, options)]. The fuel
    bounds the depth of the self-recursion; running out stands for the
    engine's stack overflow. *)
Fixpoint storeValue (fuel : nat) (self : DirectoryValueStorageHandler)
    (pathInSource : jsstr) (destinationUrl : URL) (v : value) (options : option Options)
    : M unit :=
  match fuel with
  | O => throw StackExhausted
  | S fuel' =>
      throwIfAborted options ;;;
      if negb (isObject v) then throw (TypeMismatch pathInSource)
      else
        let directoryReference := newDirectoryReference destinationUrl in
        let mergedOptions := mergeOptions (dv_defaultOptions self) options in
        let encoder := propertyNameEncoder mergedOptions in
        createDirectory (dv_directoryCreator self) (canonicalUrl directoryReference) ;;;
        entries <- lift_option EntriesOfNullish (object_entries v) ;;
        for_each (store_entry (dv_handlers self) (storeValue fuel' self) pathInSource
                              directoryReference mergedOptions encoder)
                 entries
  end.

(** The spec's reading of the child location: the effective encoder's
    output joined as it is. *)
Definition spec_child_location (d : DirectoryReference) (encoder : jsstr -> jsstr)
    (nestedKey : jsstr) : option (result URL DirectoryEscapeError) :=
  getContentsUrl d (encoder nestedKey).

(* PROOFS-BEGIN *)

(** ** Path codec *)

Section ReplaceAllSteps.
Variables (a b c : N) (rep : jsstr).

Lemma replace_all_triple_other (x : N) (s : jsstr) :
  N.eqb x a = false ->
  replace_all_triple a b c rep (x :: s) = x :: replace_all_triple a b c rep s.
Proof.
  intros H. destruct s as [| y [| z r]]; cbn; try rewrite H; reflexivity.
Qed.

Lemma replace_all_triple_hit (s : jsstr) :
  replace_all_triple a b c rep (a :: b :: c :: s) = rep ++ replace_all_triple a b c rep s.
Proof. cbn. now rewrite !N.eqb_refl. Qed.

Lemma replace_all_triple_miss (y z : N) (s : jsstr) :
  N.eqb y b && N.eqb z c = false ->
  replace_all_triple a b c rep (a :: y :: z :: s)
  = a :: replace_all_triple a b c rep (y :: z :: s).
Proof. intros H. cbn. rewrite N.eqb_refl. cbn. now rewrite H. Qed.

End ReplaceAllSteps.

Lemma js_pct25 : js "%25" = [37; 50; 53].
Proof. reflexivity. Qed.

Lemma js_pct2F : js "%2F" = [37; 50; 70].
Proof. reflexivity. Qed.

Lemma replace_all_unit_cons (c x : N) (rep s : jsstr) :
  replace_all_unit c rep (x :: s)
  = (if N.eqb x c then rep else [x]) ++ replace_all_unit c rep s.
Proof. cbn. now destruct (N.eqb x c). Qed.

(** The first pass of [decodePathElement] on an encoded element only undoes
    the slash escapes: every "%" left behind starts a "%25". *)
Lemma decode_slash_pass (s : jsstr) :
  replace_all_triple 37 50 70 [SLASH] (encodePathElement s)
  = replace_all_unit PERCENT (js "%25") s.
Proof.
  unfold encodePathElement. rewrite js_pct25, js_pct2F.
  induction s as [| x s IH]; [reflexivity |].
  rewrite !replace_all_unit_cons.
  destruct (N.eqb x PERCENT) eqn:Hp.
  - cbn [app].
    rewrite !replace_all_unit_cons. cbn [N.eqb Pos.eqb SLASH app].
    rewrite replace_all_triple_miss by reflexivity.
    rewrite !replace_all_triple_other by reflexivity.
    now rewrite IH.
  - destruct (N.eqb x SLASH) eqn:Hs.
    + apply N.eqb_eq in Hs; subst x. cbn [app].
      rewrite replace_all_unit_cons. cbn [N.eqb Pos.eqb SLASH app].
      rewrite replace_all_triple_hit. now rewrite IH.
    + cbn [app]. rewrite replace_all_unit_cons, Hs. cbn [app].
      rewrite replace_all_triple_other by exact Hp. now rewrite IH.
Qed.

Lemma decode_percent_pass (s : jsstr) :
  replace_all_triple 37 50 53 [PERCENT] (replace_all_unit PERCENT (js "%25") s) = s.
Proof.
  rewrite js_pct25.
  induction s as [| x s IH]; [reflexivity |].
  rewrite replace_all_unit_cons.
  destruct (N.eqb x PERCENT) eqn:Hp.
  - apply N.eqb_eq in Hp; subst x. cbn [app].
    rewrite replace_all_triple_hit. now rewrite IH.
  - cbn [app]. rewrite replace_all_triple_other by exact Hp. now rewrite IH.
Qed.

(** C7: decoding the encoding of any string gives the string back. *)
Theorem decode_encode_roundtrip (s : jsstr) :
  decodePathElement (encodePathElement s) = s.
Proof.
  unfold decodePathElement. rewrite decode_slash_pass.
  apply decode_percent_pass.
Qed.

(** ** Directory references: the repository's own test cases *)

Definition file_url (p : string) : URL :=
  mkURL File [] (path_state File [] (split_slash (tl (js p)))).

Definition http_url (host p : string) : URL :=
  mkURL (OtherSpecial (js "http")) (js host) (path_state (OtherSpecial (js "http")) [] (split_slash (tl (js p)))).

Definition contents_pathname (d : DirectoryReference) (name : string) : option (result jsstr DirectoryEscapeError) :=
  match getContentsUrl d (js name) with
  | Some (Ok u) => Some (Ok (pathname u))
  | Some (Err e) => Some (Err e)
  | None => None
  end.

Example canonical_dr4 : pathname (canonicalUrl (newDirectoryReference (file_url "/foo/bar/"))) = js "/foo/bar".
Proof. vm_compute. reflexivity. Qed.
Example canonical_dr6 : pathname (canonicalUrl (newDirectoryReference (file_url "/foo//bar//baz//"))) = js "/foo/bar/baz".
Proof. vm_compute. reflexivity. Qed.
Example canonical_dr3 : pathname (canonicalUrl (newDirectoryReference (file_url "/"))) = js "/".
Proof. vm_compute. reflexivity. Qed.
Example contents_dr4 : contents_pathname (newDirectoryReference (file_url "/foo/bar/")) "x//y///z" = Some (Ok (js "/foo/bar/x/y/z")).
Proof. vm_compute. reflexivity. Qed.
Example contents_dr5 : contents_pathname (newDirectoryReference (file_url "/foo//bar")) "x/../z" = Some (Ok (js "/foo/bar/z")).
Proof. vm_compute. reflexivity. Qed.
Example contents_dr6 : contents_pathname (newDirectoryReference (file_url "/foo//bar//baz//")) "../../../foo/bar/baz/z" = Some (Ok (js "/foo/bar/baz/z")).
Proof. vm_compute. reflexivity. Qed.
Example contents_http : contents_pathname (newDirectoryReference (http_url "foo.bar" "/")) "x/" = Some (Ok (js "/x/")).
Proof. vm_compute. reflexivity. Qed.
Example escape_dr1 : exists e, contents_pathname (newDirectoryReference (http_url "foo.bar" "/baz")) "../x" = Some (Err e).
Proof. vm_compute. eexists. reflexivity. Qed.
Example escape_dr2 : exists e, contents_pathname (newDirectoryReference (file_url "/foo/bar/baz")) "x/../../y" = Some (Err e).
Proof. vm_compute. eexists. reflexivity. Qed.

(** ** Directory references: general lemmas *)

Lemma str_eqb_eq (a b : jsstr) : str_eqb a b = true <-> a = b.
Proof.
  revert b; induction a as [| x a IH]; intros [| y b]; cbn; split; intros H;
    try discriminate; try reflexivity.
  - apply andb_true_iff in H as [H1 H2]. apply N.eqb_eq in H1. apply IH in H2. now subst.
  - injection H as -> ->. rewrite N.eqb_refl. now apply IH.
Qed.

Lemma starts_with_app (p q : jsstr) : starts_with (p ++ q) p = true.
Proof. induction p as [| x p IH]; cbn; [reflexivity | now rewrite N.eqb_refl, IH]. Qed.

Lemma split_slash_noslash (seg : jsstr) :
  has_slash seg = false -> split_slash seg = [seg].
Proof.
  induction seg as [| x seg IH]; cbn; [reflexivity |].
  intros H. apply orb_false_iff in H as [H1 H2]. rewrite H1, IH by exact H2. reflexivity.
Qed.

Lemma split_slash_app (seg s : jsstr) :
  has_slash seg = false -> split_slash (seg ++ SLASH :: s) = seg :: split_slash s.
Proof.
  induction seg as [| x seg IH]; cbn; [reflexivity |].
  intros H. apply orb_false_iff in H as [H1 H2]. rewrite H1, IH by exact H2. reflexivity.
Qed.

Lemma split_join (segs : list jsstr) :
  segs <> [] -> Forall (fun seg => has_slash seg = false) segs ->
  split_slash (join_slash segs) = segs.
Proof.
  induction segs as [| seg [| t r] IH]; intros Hne Hall; [congruence | |].
  - inversion Hall; subst. cbn. now apply split_slash_noslash.
  - inversion Hall; subst. change (join_slash (seg :: t :: r)) with (seg ++ SLASH :: join_slash (t :: r)).
    rewrite split_slash_app by assumption. f_equal. apply IH; [discriminate | assumption].
Qed.

Lemma join_app (a b : list jsstr) :
  a <> [] -> b <> [] -> join_slash (a ++ b) = join_slash a ++ SLASH :: join_slash b.
Proof.
  intros Ha Hb. induction a as [| x [| y r] IH]; [congruence | |].
  - cbn. destruct b; [congruence | reflexivity].
  - transitivity (x ++ SLASH :: join_slash ((y :: r) ++ b)); [reflexivity |].
    rewrite IH by discriminate.
    change (join_slash (x :: y :: r)) with (x ++ SLASH :: join_slash (y :: r)).
    now rewrite <- app_assoc.
Qed.

Lemma pathname_join (segs : list jsstr) :
  segs <> [] -> flat_map (fun seg => SLASH :: seg) segs = SLASH :: join_slash segs.
Proof.
  intros Hne. induction segs as [| x [| y r] IH]; [congruence | |].
  - cbn. now rewrite app_nil_r.
  - change (flat_map (fun seg => SLASH :: seg) (x :: y :: r))
      with (SLASH :: x ++ flat_map (fun seg => SLASH :: seg) (y :: r)).
    rewrite IH by discriminate. reflexivity.
Qed.

Lemma plain_buffer (sch : scheme) (path : list jsstr) (buffer : jsstr) :
  is_windows_drive_letter buffer = false ->
  match sch, path, buffer with
  | File, [], [a; _] => if is_windows_drive_letter buffer then [a; 58] else buffer
  | _, _, _ => buffer
  end = buffer.
Proof.
  intros H. destruct sch, path as [| p ps], buffer as [| a [| b [| c r]]]; try reflexivity.
  now rewrite H.
Qed.

(** The path state appends segments that are neither dot segments nor
    drive letters as they are. *)
Lemma path_state_plain (sch : scheme) (segs path : list jsstr) :
  Forall (fun seg => plain_segment seg = true) segs ->
  path_state sch path segs = path ++ segs.
Proof.
  revert path. induction segs as [| seg rest IH]; intros path Hall.
  - cbn. now rewrite app_nil_r.
  - inversion Hall as [| ? ? Hseg Hrest]; subst.
    unfold plain_segment in Hseg.
    destruct (is_single_dot_segment seg) eqn:H1, (is_double_dot_segment seg) eqn:H2,
      (is_windows_drive_letter seg) eqn:H3; try discriminate.
    cbn [path_state]. rewrite H1, H2, plain_buffer by exact H3.
    rewrite IH by exact Hrest. now rewrite <- app_assoc.
Qed.

Definition nonempty_segment (seg : jsstr) : bool := negb (str_eqb seg []).

Definition posix_plain (seg : jsstr) : bool :=
  negb (str_eqb seg [DOT]) && negb (str_eqb seg [DOT; DOT]).

Section OrdinarySegment.
Variable seg : jsstr.
Hypothesis Hord : ordinary_segment seg = true.

Lemma ordinary_nonempty : nonempty_segment seg = true.
Proof. unfold ordinary_segment in Hord. unfold nonempty_segment. now destruct (str_eqb seg []). Qed.

Lemma ordinary_not_nil : seg <> [].
Proof. intros ->. discriminate Hord. Qed.

Lemma ordinary_no_slash : has_slash seg = false.
Proof. unfold ordinary_segment in Hord. destruct (has_slash seg); [| reflexivity]. now rewrite andb_false_r in Hord. Qed.

Lemma ordinary_plain : plain_segment seg = true.
Proof. unfold ordinary_segment in Hord. now apply andb_true_iff in Hord as [_ H]. Qed.

Lemma ordinary_posix : posix_plain seg = true.
Proof.
  pose proof ordinary_plain as H. unfold plain_segment in H. unfold posix_plain.
  destruct (str_eqb seg [DOT]) eqn:E1; [apply str_eqb_eq in E1; subst; discriminate |].
  destruct (str_eqb seg [DOT; DOT]) eqn:E2; [apply str_eqb_eq in E2; subst; discriminate |].
  reflexivity.
Qed.

Lemma ordinary_no_unmodelled : existsb url_unmodelled_unit seg = false.
Proof.
  unfold ordinary_segment in Hord.
  destruct (existsb url_unmodelled_unit seg); [| reflexivity].
  cbn in Hord. now rewrite !andb_false_r in Hord.
Qed.

End OrdinarySegment.

Ltac ordinary_facts H :=
  let F := fresh in
  pose proof (Forall_impl _ ordinary_no_slash H) as F;
  pose proof (Forall_impl _ ordinary_plain H) as ?;
  pose proof (Forall_impl _ ordinary_posix H) as ?;
  pose proof (Forall_impl _ ordinary_nonempty H) as ?.

Lemma filter_nonempty (segs : list jsstr) :
  Forall (fun seg => nonempty_segment seg = true) segs ->
  filter nonempty_segment segs = segs.
Proof. induction 1 as [| x l Hx _ IH]; cbn; [reflexivity | now rewrite Hx, IH]. Qed.

Lemma normalize_fold (b : bool) (segs res : list jsstr) :
  Forall (fun seg => posix_plain seg = true) segs ->
  fold_left (normalize_segment b) segs res = rev (filter nonempty_segment segs) ++ res.
Proof.
  revert res. induction segs as [| seg segs IH]; intros res Hall; [reflexivity |].
  inversion Hall as [| ? ? Hs Hr]; subst. cbn [fold_left filter].
  unfold posix_plain in Hs. unfold normalize_segment, nonempty_segment.
  destruct (str_eqb seg [DOT]), (str_eqb seg [DOT; DOT]); try discriminate.
  destruct (str_eqb seg []); cbn [orb negb].
  - now rewrite IH.
  - rewrite IH by exact Hr. cbn. now rewrite <- app_assoc.
Qed.

Lemma ends_with_unit_app (a s : jsstr) (c : N) :
  s <> [] -> ends_with_unit (a ++ s) c = ends_with_unit s c.
Proof.
  intros Hs. unfold ends_with_unit. rewrite rev_app_distr.
  destruct (rev s) eqn:E; [| reflexivity].
  apply (f_equal (@rev N)) in E. rewrite rev_involutive in E. cbn in E. congruence.
Qed.

Lemma ends_with_unit_noslash (s : jsstr) :
  has_slash s = false -> ends_with_unit s SLASH = false.
Proof.
  intros H. unfold ends_with_unit. destruct (rev s) as [| y r] eqn:E; [reflexivity |].
  assert (Hy : In y s) by (apply in_rev; rewrite E; now left).
  destruct (N.eqb y SLASH) eqn:Ey; [| reflexivity].
  unfold has_slash in H.
  assert (Hex : existsb (fun x => N.eqb x SLASH) s = true)
    by (apply existsb_exists; now exists y).
  congruence.
Qed.

(** [normalize] on an absolute path whose segments are not dot segments
    drops the empty segments and nothing else. *)
Lemma normalize_absolute (segs : list jsstr) :
  segs <> [] ->
  Forall (fun seg => has_slash seg = false) segs ->
  Forall (fun seg => posix_plain seg = true) segs ->
  ends_with_unit (SLASH :: join_slash segs) SLASH = false ->
  normalize (SLASH :: join_slash segs) = SLASH :: join_slash (filter nonempty_segment segs).
Proof.
  intros Hne Hns Hpp Hend.
  unfold normalize. cbn zeta. rewrite Hend. rewrite N.eqb_refl.
  unfold normalizeString.
  replace (split_slash (SLASH :: join_slash segs)) with ([] :: segs)
    by (cbn [split_slash]; rewrite N.eqb_refl, split_join by assumption; reflexivity).
  cbn [fold_left]. rewrite normalize_fold by assumption.
  rewrite app_nil_r, rev_involutive, !andb_false_r. reflexivity.
Qed.

Lemma ends_with_last (pre : list jsstr) (s : jsstr) :
  s <> [] -> has_slash s = false ->
  ends_with_unit (SLASH :: join_slash (pre ++ [s])) SLASH = false.
Proof.
  intros Hs Hns.
  destruct pre as [| p pre].
  - cbn [app join_slash].
    pose proof (ends_with_unit_app [SLASH] s SLASH Hs) as E. cbn [app] in E.
    rewrite E. now apply ends_with_unit_noslash.
  - rewrite join_app by (discriminate || congruence). change (join_slash [s]) with s.
    pose proof (ends_with_unit_app (SLASH :: join_slash (p :: pre) ++ [SLASH]) s SLASH Hs) as E.
    rewrite <- !app_comm_cons, <- app_assoc in E. cbn [app] in E.
    rewrite E. now apply ends_with_unit_noslash.
Qed.

Lemma ends_with_ordinary (segs : list jsstr) :
  segs <> [] -> Forall (fun seg => ordinary_segment seg = true) segs ->
  ends_with_unit (SLASH :: join_slash segs) SLASH = false.
Proof.
  intros Hne Hall. destruct (exists_last Hne) as [pre [s ->]].
  apply Forall_app in Hall as [_ Hs]. inversion Hs; subst.
  apply ends_with_last; [now apply ordinary_not_nil | now apply ordinary_no_slash].
Qed.

Lemma normalize_ordinary (segs : list jsstr) :
  segs <> [] -> Forall (fun seg => ordinary_segment seg = true) segs ->
  normalize (SLASH :: join_slash segs) = SLASH :: join_slash segs.
Proof.
  intros Hne Hall. ordinary_facts Hall.
  rewrite normalize_absolute by (try apply ends_with_ordinary; assumption).
  now rewrite filter_nonempty.
Qed.

Lemma set_pathname_plain (u : URL) (segs : list jsstr) :
  segs <> [] ->
  Forall (fun seg => has_slash seg = false) segs ->
  Forall (fun seg => plain_segment seg = true) segs ->
  set_pathname u (SLASH :: join_slash segs) = mkURL (url_scheme u) (url_host u) segs.
Proof.
  intros Hne Hns Hpl. unfold set_pathname. rewrite N.eqb_refl.
  rewrite split_join by assumption. now rewrite path_state_plain.
Qed.

Lemma pathname_mkURL (sch : scheme) (host : jsstr) (segs : list jsstr) :
  segs <> [] -> pathname (mkURL sch host segs) = SLASH :: join_slash segs.
Proof. intros Hne. unfold pathname. cbn [url_path]. now apply pathname_join. Qed.

(** A directory reference over a location whose segments are ordinary: the
    canonical URL is the location itself, the other one has an empty last
    segment (a trailing "/"). *)
Lemma newDirectoryReference_ordinary (sch : scheme) (host : jsstr) (Ls : list jsstr) :
  Ls <> [] -> Forall (fun seg => ordinary_segment seg = true) Ls ->
  newDirectoryReference (mkURL sch host Ls)
  = mkDirRef (mkURL sch host Ls) (mkURL sch host (Ls ++ [[]])).
Proof.
  intros Hne Hall. pose proof Hall as Hall'. ordinary_facts Hall'.
  unfold newDirectoryReference.
  rewrite pathname_mkURL, normalize_ordinary, set_pathname_plain by assumption.
  cbn [url_scheme url_host].
  rewrite pathname_mkURL by assumption.
  rewrite ends_with_ordinary by assumption.
  f_equal.
  replace ((SLASH :: join_slash Ls) ++ [SLASH]) with (SLASH :: join_slash (Ls ++ [[]])).
  - rewrite set_pathname_plain; [reflexivity | now destruct Ls | |].
    + apply Forall_app; split; [assumption | now repeat constructor].
    + apply Forall_app; split; [assumption | now repeat constructor].
  - rewrite join_app by (assumption || discriminate). reflexivity.
Qed.

Lemma shorten_trailing (sch : scheme) (Ls : list jsstr) :
  Ls <> [] -> shorten sch (Ls ++ [[]]) = Ls.
Proof.
  intros Hne. destruct sch; [| apply removelast_last].
  destruct Ls as [| p [| q r]]; [congruence | reflexivity |].
  change ((p :: q :: r) ++ [[]]) with (p :: q :: (r ++ [[]])).
  cbn [shorten]. rewrite <- removelast_last with (a := []). reflexivity.
Qed.

Lemma unmodelled_excludes (c : N) :
  url_unmodelled_unit c = false ->
  N.eqb c 92 = false /\ N.eqb c 63 = false /\ N.eqb c 35 = false.
Proof.
  intros H. repeat split; apply not_true_is_false; intros E;
    apply N.eqb_eq in E; subst; vm_compute in H; discriminate H.
Qed.

Lemma join_cons (s : jsstr) (r : list jsstr) :
  join_slash (s :: r) = s ++ match r with [] => [] | _ :: _ => SLASH :: join_slash r end.
Proof. destruct r; cbn; [now rewrite app_nil_r | reflexivity]. Qed.

(** A plain name does not start with a Windows drive letter. *)
Lemma no_drive_letter_prefix (s t : jsstr) :
  ordinary_segment s = true ->
  (t = [] \/ exists t', t = SLASH :: t') ->
  starts_with_windows_drive_letter (s ++ t) = false.
Proof.
  intros Hs Ht.
  pose proof (ordinary_plain s Hs) as Hpl. pose proof (ordinary_no_slash s Hs) as Hns.
  pose proof (ordinary_no_unmodelled s Hs) as Hum.
  unfold plain_segment in Hpl.
  destruct s as [| a [| b [| c s']]].
  - discriminate Hs.
  - destruct Ht as [-> | [t' ->]]; cbn; [reflexivity | now rewrite andb_false_r].
  - cbn [app starts_with_windows_drive_letter].
    destruct (is_windows_drive_letter [a; b]); [now rewrite !andb_false_r in Hpl | reflexivity].
  - cbn [app starts_with_windows_drive_letter].
    cbn [has_slash existsb] in Hns. cbn [existsb] in Hum.
    apply orb_false_iff in Hns as [_ Hns]. apply orb_false_iff in Hns as [_ Hns].
    apply orb_false_iff in Hns as [Hc _].
    apply orb_false_iff in Hum as [_ Hum]. apply orb_false_iff in Hum as [_ Hum].
    apply orb_false_iff in Hum as [Hum _].
    destruct (unmodelled_excludes c Hum) as (H92 & H63 & H35).
    unfold SLASH in Hc. rewrite Hc, H92, H63, H35. now rewrite andb_false_r.
Qed.

Lemma join_not_drive (ns : list jsstr) :
  ns <> [] -> Forall (fun seg => ordinary_segment seg = true) ns ->
  starts_with_windows_drive_letter (join_slash ns) = false.
Proof.
  intros Hne Hall. destruct ns as [| s r]; [congruence |].
  inversion Hall; subst. rewrite join_cons. apply no_drive_letter_prefix; [assumption |].
  destruct r; [now left | right; eexists; reflexivity].
Qed.

Lemma join_head (ns : list jsstr) :
  ns <> [] -> Forall (fun seg => ordinary_segment seg = true) ns ->
  exists c rest, join_slash ns = c :: rest /\ N.eqb c SLASH = false.
Proof.
  intros Hne Hall. destruct ns as [| s r]; [congruence |].
  inversion Hall as [| ? ? Hs _]; subst. rewrite join_cons.
  destruct s as [| c s']; [discriminate Hs |].
  pose proof (ordinary_no_slash _ Hs) as Hns. cbn in Hns. apply orb_false_iff in Hns as [Hc _].
  now exists c, (s' ++ match r with [] => [] | _ :: _ => SLASH :: join_slash r end).
Qed.

Lemma pathname_app (sch : scheme) (host : jsstr) (a b : list jsstr) :
  pathname (mkURL sch host (a ++ b)) = pathname (mkURL sch host a) ++ pathname (mkURL sch host b).
Proof. unfold pathname. cbn [url_path]. apply flat_map_app. Qed.

Lemma pathname_trailing (sch : scheme) (host : jsstr) (Ls : list jsstr) :
  pathname (mkURL sch host (Ls ++ [[]])) = pathname (mkURL sch host Ls) ++ [SLASH].
Proof. rewrite pathname_app. reflexivity. Qed.

Section ContentsOfOrdinaryDirectory.
Variables (sch : scheme) (host : jsstr) (Ls : list jsstr).
Hypothesis HLne : Ls <> [].
Hypothesis HLord : Forall (fun seg => ordinary_segment seg = true) Ls.

Let d := newDirectoryReference (mkURL sch host Ls).

Lemma dir_ordinary : d = mkDirRef (mkURL sch host Ls) (mkURL sch host (Ls ++ [[]])).
Proof. apply newDirectoryReference_ordinary; assumption. Qed.

(** A name made of ordinary segments lands at the canonical path, "/", the name. *)
Lemma getContentsUrl_relative (ns : list jsstr) :
  ns <> [] -> Forall (fun seg => ordinary_segment seg = true) ns ->
  in_url_fragment (join_slash ns) = true ->
  getContentsUrl d (join_slash ns) = Some (Ok (mkURL sch host (Ls ++ ns))).
Proof.
  intros Hne Hall Hfrag.
  assert (Hall2 : Forall (fun seg => ordinary_segment seg = true) (Ls ++ ns))
    by (apply Forall_app; split; assumption).
  assert (Hne2 : Ls ++ ns <> []) by (destruct Ls; [congruence | discriminate]).
  pose proof Hall as Hall'. ordinary_facts Hall'.
  rewrite dir_ordinary. unfold getContentsUrl, resolve_reference.
  rewrite Hfrag. cbn [url_scheme url_path url_host urlWithTrailingSlash].
  destruct (join_head ns Hne Hall) as (c & rest & Ejoin & Hc).
  rewrite Ejoin, Hc, <- Ejoin.
  replace (relative_start sch (join_slash ns) (Ls ++ [[]])) with Ls
    by (destruct sch; cbn [relative_start];
        [rewrite join_not_drive by assumption |]; symmetry; now apply shorten_trailing).
  rewrite split_join, path_state_plain by assumption.
  rewrite pathname_mkURL, normalize_ordinary, set_pathname_plain by
    (try (ordinary_facts Hall2); assumption).
  cbn [url_scheme url_host].
  rewrite pathname_app, pathname_trailing, (pathname_mkURL _ _ ns) by assumption.
  replace (pathname (mkURL sch host Ls) ++ SLASH :: join_slash ns)
    with ((pathname (mkURL sch host Ls) ++ [SLASH]) ++ join_slash ns)
    by now rewrite <- app_assoc.
  now rewrite starts_with_app.
Qed.

(** A name "/" followed by ordinary segments is resolved from the root. *)
Lemma getContentsUrl_absolute (ms : list jsstr) :
  ms <> [] -> Forall (fun seg => ordinary_segment seg = true) ms ->
  in_url_fragment (SLASH :: join_slash ms) = true ->
  getContentsUrl d (SLASH :: join_slash ms)
  = if starts_with (SLASH :: join_slash ms) (pathname (mkURL sch host Ls) ++ [SLASH])
    then Some (Ok (mkURL sch host ms))
    else Some (Err (mkDirectoryEscapeError (SLASH :: join_slash ms) (SLASH :: join_slash ms)
                                           (pathname (mkURL sch host Ls)))).
Proof.
  intros Hne Hall Hfrag.
  pose proof Hall as Hall'. ordinary_facts Hall'.
  rewrite dir_ordinary. unfold getContentsUrl, resolve_reference.
  rewrite Hfrag. cbn [url_scheme url_path url_host urlWithTrailingSlash canonicalUrl].
  rewrite N.eqb_refl.
  replace (file_slash_start sch (join_slash ms) (Ls ++ [[]])) with (@nil jsstr).
  2:{ destruct sch; [| reflexivity].
      destruct Ls as [| p0 r]; [congruence |]. inversion HLord as [| ? ? Hp0 _]; subst.
      pose proof (ordinary_plain _ Hp0) as Hpl. unfold plain_segment in Hpl.
      cbn [app file_slash_start].
      destruct p0 as [| a [| b [|]]]; cbn [is_normalized_windows_drive_letter];
        rewrite ?andb_false_r; try reflexivity.
      cbn [is_windows_drive_letter] in Hpl.
      destruct (is_ascii_alpha a), (N.eqb b 58); cbn in Hpl |- *;
        rewrite ?andb_false_r in Hpl; try discriminate Hpl; now rewrite andb_false_r. }
  rewrite split_join, path_state_plain by assumption. cbn [app].
  rewrite pathname_mkURL, normalize_ordinary, set_pathname_plain by assumption.
  cbn [url_scheme url_host].
  rewrite pathname_trailing, pathname_mkURL by assumption. reflexivity.
Qed.

(** The spec's join of a name starting with "/" stays inside. *)
Lemma spec_stays_within_absolute (ms : list jsstr) :
  ms <> [] -> Forall (fun seg => ordinary_segment seg = true) ms ->
  spec_stays_within d (SLASH :: join_slash ms) = true.
Proof.
  intros Hne Hall.
  assert (Hseg : Forall (fun seg => ordinary_segment seg = true \/ seg = []) (Ls ++ [] :: ms)).
  { apply Forall_app; split; [| constructor; [now right |]];
      eapply Forall_impl; try eassumption; intros; now left. }
  rewrite dir_ordinary. unfold spec_stays_within, spec_joined_path. cbn [canonicalUrl].
  rewrite pathname_mkURL by assumption.
  replace ((SLASH :: join_slash Ls) ++ SLASH :: SLASH :: join_slash ms)
    with (SLASH :: join_slash (Ls ++ [] :: ms))
    by (rewrite join_app, join_cons by (assumption || discriminate);
        destruct ms; [congruence | reflexivity]).
  rewrite normalize_absolute.
  - replace (filter nonempty_segment (Ls ++ [] :: ms)) with (Ls ++ ms).
    + rewrite join_app by assumption. cbn [app].
      replace (SLASH :: join_slash Ls ++ SLASH :: join_slash ms)
        with ((SLASH :: join_slash Ls ++ [SLASH]) ++ join_slash ms)
        by (cbn [app]; now rewrite <- app_assoc).
      apply starts_with_app.
    + rewrite filter_app. cbn [filter nonempty_segment str_eqb negb].
      rewrite !filter_nonempty; [reflexivity | |];
        eapply Forall_impl; try eassumption; apply ordinary_nonempty.
  - destruct Ls; [congruence | discriminate].
  - eapply Forall_impl; [| exact Hseg]. intros seg [H | ->]; [now apply ordinary_no_slash | reflexivity].
  - eapply Forall_impl; [| exact Hseg]. intros seg [H | ->]; [now apply ordinary_posix | reflexivity].
  - destruct (exists_last Hne) as [pre [sl Esl]].
    replace (Ls ++ [] :: ms) with ((Ls ++ [] :: pre) ++ [sl])
      by (rewrite Esl, <- app_assoc; reflexivity).
    rewrite Esl in Hall. apply Forall_app in Hall as [_ Hsl]. inversion Hsl; subst.
    apply ends_with_last; [now apply ordinary_not_nil | now apply ordinary_no_slash].
Qed.

(** The spec's join of an ordinary relative name is the path the code
    gives. *)
Lemma spec_joined_relative (ns : list jsstr) :
  ns <> [] -> Forall (fun seg => ordinary_segment seg = true) ns ->
  spec_joined_path d (join_slash ns) = pathname (mkURL sch host (Ls ++ ns)).
Proof.
  intros Hne Hall.
  assert (Hall2 : Forall (fun seg => ordinary_segment seg = true) (Ls ++ ns))
    by (apply Forall_app; split; assumption).
  assert (Hne2 : Ls ++ ns <> []) by (destruct Ls; [congruence | discriminate]).
  rewrite dir_ordinary. unfold spec_joined_path. cbn [canonicalUrl].
  rewrite !pathname_mkURL by assumption.
  rewrite join_app by assumption. cbn [app].
  rewrite <- join_app by assumption. now apply normalize_ordinary.
Qed.

End ContentsOfOrdinaryDirectory.

(** Whatever the directory, an escape error records the name, the resolved
    path and the canonical path, and the resolved path is outside. *)
Lemma getContentsUrl_escape_fields (d : DirectoryReference) (n : jsstr) (e : DirectoryEscapeError) :
  getContentsUrl d n = Some (Err e) ->
  candidatePath e = n /\ enclosingPath e = pathname (canonicalUrl d) /\
  starts_with (escapedPath e) (pathname (urlWithTrailingSlash d)) = false.
Proof.
  unfold getContentsUrl. destruct (resolve_reference n (urlWithTrailingSlash d)); [| discriminate].
  match goal with |- context [if ?b then _ else _] => destruct b eqn:E end; [discriminate |].
  intros H. injection H as <-. cbn. now split.
Qed.

Lemma getContentsUrl_ok_inside (d : DirectoryReference) (n : jsstr) (u : URL) :
  getContentsUrl d n = Some (Ok u) ->
  starts_with (pathname u) (pathname (urlWithTrailingSlash d)) = true.
Proof.
  unfold getContentsUrl. destruct (resolve_reference n (urlWithTrailingSlash d)); [| discriminate].
  match goal with |- context [if ?b then _ else _] => destruct b eqn:E end; [| discriminate].
  intros H. now injection H as <-.
Qed.

(** ** C1: the Directory Path Resolver *)

(** C1 as stated fails on /foo/bar: the spec's join of "/etc" is
    /foo/bar/etc, inside, yet the code raises a directory escape (URL
    resolution reads "/etc" from the root); the spec's join of "." is
    /foo/bar, outside, yet the code accepts it with path /foo/bar/. *)
Lemma getContentsUrl_join_counterexample :
  let d := newDirectoryReference (file_url "/foo/bar") in
  spec_stays_within d (js "/etc") = true /\
  getContentsUrl d (js "/etc")
  = Some (Err (mkDirectoryEscapeError (js "/etc") (js "/etc") (js "/foo/bar"))) /\
  spec_stays_within d (js ".") = false /\
  getContentsUrl d (js ".") = Some (Ok (mkURL File [] [js "foo"; js "bar"; []])).
Proof. vm_compute. repeat split. Qed.

(** ** The materializer on the repository's test cases *)

Definition creator_ok : DirectoryCreator := mkDirectoryCreator (fun _ => true).

Definition mock_handler (name : string) (can : bool) : Handler :=
  mkHandler (js name) (fun _ _ _ => can) (fun _ _ _ _ => true).

Definition materializer (handlers : list Handler) (defaults : option Options)
  : DirectoryValueStorageHandler :=
  mkDirectoryValueStorageHandler (js "test1") handlers creator_ok defaults.

Definition tmp_xyz : URL := file_url "/tmp/xyz".

Definition run_pathnames (m : M unit) : result unit error * list (option jsstr * jsstr) :=
  (fst m, map (fun ev => match ev with
                         | ECreateDirectory u => (None, pathname u)
                         | ECanStore h p u _ => (Some h, pathname u)
                         | EStore h p u _ _ => (Some h, p)
                         end) (snd m)).

Example store_creates_destination :
  storeValue 10 (materializer [] None) [] tmp_xyz (VObject []) None
  = (Ok tt, [ECreateDirectory tmp_xyz]).
Proof. vm_compute. reflexivity. Qed.

Example store_creates_nested :
  run_pathnames (storeValue 10 (materializer [] None) [] tmp_xyz
                   (VObject [(js "a", VObject [])]) None)
  = (Ok tt, [(None, js "/tmp/xyz"); (None, js "/tmp/xyz/a")]).
Proof. vm_compute. reflexivity. Qed.

Example store_calls_first_handler :
  run_pathnames (storeValue 10 (materializer [mock_handler "h1" true; mock_handler "h2" true] None)
                   [] tmp_xyz (VObject [(js "a", VString (js "b"))]) None)
  = (Ok tt, [(None, js "/tmp/xyz"); (Some (js "h1"), js "/tmp/xyz/a"); (Some (js "h1"), js "/a")]).
Proof. vm_compute. reflexivity. Qed.

Example store_calls_second_handler :
  run_pathnames (storeValue 10 (materializer [mock_handler "h1" false; mock_handler "h2" true] None)
                   [] tmp_xyz (VObject [(js "a", VString (js "b"))]) None)
  = (Ok tt, [(None, js "/tmp/xyz"); (Some (js "h1"), js "/tmp/xyz/a");
             (Some (js "h2"), js "/tmp/xyz/a"); (Some (js "h2"), js "/a")]).
Proof. vm_compute. reflexivity. Qed.

(** ** Monad laws used below *)

Lemma bind_ok {A B : Type} (a : A) (t : list event) (f : A -> M B) :
  bind (Ok a, t) f = (fst (f a), t ++ snd (f a)).
Proof. cbn. now destruct (f a). Qed.

Lemma bind_err {A B : Type} (e : error) (t : list event) (f : A -> M B) :
  bind (Err e, t) f = (Err e, t).
Proof. reflexivity. Qed.

Lemma bind_ret {A B : Type} (a : A) (f : A -> M B) : bind (ret a) f = f a.
Proof. unfold ret. rewrite bind_ok. cbn. now destruct (f a). Qed.

Lemma bind_emit {B : Type} (ev : event) (f : unit -> M B) :
  bind (emit ev) f = (fst (f tt), ev :: snd (f tt)).
Proof. cbn. now destruct (f tt). Qed.

Lemma bind_assoc {A B C : Type} (m : M A) (f : A -> M B) (g : B -> M C) :
  bind (bind m f) g = bind m (fun a => bind (f a) g).
Proof.
  destruct m as [[a | e] t]; [| reflexivity].
  cbn. destruct (f a) as [[b | e] t2]; cbn; [| reflexivity].
  destruct (g b) as [r t3]. now rewrite app_assoc.
Qed.

(** ** C2 and C3: [isObject] and the type check of [storeValue] *)

(** [isObject] accepts every value but [null] and arrays: [typeof] of the
    comparison is always the non-empty string "boolean". *)
Lemma isObject_spec (v : value) : isObject v = negb (is_null v) && negb (is_array v).
Proof. destruct v; [reflexivity .. |]. reflexivity. Qed.

(** C2: [canStoreValue] holds of 42, "b", true and undefined, which the
    tests and the spec require it to refuse. *)
Theorem canStoreValue_primitives (p : jsstr) (u : URL) :
  (forall v, canStoreValue p u v = negb (is_null v) && negb (is_array v)) /\
  canStoreValue p u (VNumber 42) = true /\ isPlainObject (VNumber 42) = false /\
  canStoreValue p u (VString (js "b")) = true /\
  canStoreValue p u (VBool true) = true /\
  canStoreValue p u VUndefined = true /\
  canStoreValue p u VNull = false /\ canStoreValue p u (VArray [VObject []; VObject []]) = false.
Proof.
  split; [intros v; apply isObject_spec |]. repeat split.
Qed.

(** C3: storing 42 creates the directory and resolves; storing undefined
    creates the directory and then fails in [Object.entries]; no
    [TypeMismatch] either way. *)
Theorem storeValue_primitive_no_type_error :
  storeValue 10 (materializer [] None) [] tmp_xyz (VNumber 42) None
  = (Ok tt, [ECreateDirectory tmp_xyz]) /\
  storeValue 10 (materializer [] None) [] tmp_xyz VUndefined None
  = (Err EntriesOfNullish, [ECreateDirectory tmp_xyz]).
Proof. split; vm_compute; reflexivity. Qed.

Lemma fst_bind_ok {A B : Type} (m : M A) (a : A) (f : A -> M B) :
  fst m = Ok a -> fst (bind m f) = fst (f a).
Proof. destruct m as [[x | e] t]; cbn; intros H; [| discriminate]. inversion H; subst. now destruct (f a). Qed.

Lemma fst_bind_err {A B : Type} (m : M A) (e : error) (f : A -> M B) :
  fst m = Err e -> fst (bind m f) = Err e.
Proof. destruct m as [[x | e'] t]; cbn; intros H; [discriminate | now inversion H]. Qed.

Lemma bind_ret_r (m : M unit) : bind m (fun _ => ret tt) = m.
Proof. destruct m as [[[] | e] t]; cbn; [now rewrite app_nil_r | reflexivity]. Qed.

Lemma encodeURIComponent_unreserved (s : jsstr) :
  Forall (fun c => uri_unreserved c = true) s -> encodeURIComponent s = Some s.
Proof. induction 1 as [| c s Hc _ IH]; cbn; [reflexivity | now rewrite Hc, IH]. Qed.

(** A name the URL parser and [encodeURIComponent] leave as it is. *)
Definition simple_name (name : jsstr) : bool :=
  ordinary_segment name && forallb uri_unreserved name && in_url_fragment name.

Lemma nested_destination_simple (sch : scheme) (host : jsstr) (Ls : list jsstr)
    (f : jsstr -> jsstr) (k : jsstr) :
  Ls <> [] -> Forall (fun seg => ordinary_segment seg = true) Ls ->
  simple_name (f k) = true ->
  nested_destination (newDirectoryReference (mkURL sch host Ls)) (Some f) k
  = ret (mkURL sch host (Ls ++ [f k])).
Proof.
  intros HLne HLord Hs. unfold simple_name in Hs.
  apply andb_true_iff in Hs as [Hs Hfrag]. apply andb_true_iff in Hs as [Hord Hun].
  unfold nested_destination. cbn [lift_option]. rewrite bind_ret.
  rewrite encodeURIComponent_unreserved by (apply Forall_forall; now apply forallb_forall).
  cbn [lift_option]. rewrite bind_ret. unfold contents_url.
  pose proof (getContentsUrl_relative sch host Ls HLne HLord [f k]) as E.
  cbn [join_slash] in E. rewrite E; [reflexivity | discriminate | now repeat constructor | exact Hfrag].
Qed.

Lemma storeValue_S (fuel : nat) (self : DirectoryValueStorageHandler) (p : jsstr)
    (destinationUrl : URL) (v : value) (options : option Options) :
  storeValue (S fuel) self p destinationUrl v options
  = throwIfAborted options ;;;
    if negb (isObject v) then throw (TypeMismatch p)
    else
      createDirectory (dv_directoryCreator self) (canonicalUrl (newDirectoryReference destinationUrl)) ;;;
      entries <- lift_option EntriesOfNullish (object_entries v) ;;
      for_each (store_entry (dv_handlers self) (storeValue fuel self) p
                            (newDirectoryReference destinationUrl)
                            (mergeOptions (dv_defaultOptions self) options)
                            (propertyNameEncoder (mergeOptions (dv_defaultOptions self) options)))
               entries.
Proof. reflexivity. Qed.

Definition strict_options : option Options := Some [(js "strict", OptBool true)].

Lemma store_string_loops (fuel : nat) (c : N) (p : jsstr) (Ls : list jsstr) :
  Ls <> [] -> Forall (fun seg => ordinary_segment seg = true) Ls ->
  fst (storeValue fuel (materializer [] None) p (mkURL File [] Ls) (VString [c]) strict_options)
  = Err StackExhausted.
Proof.
  revert p Ls. induction fuel as [| fuel IH]; intros p Ls HLne HLord; [reflexivity |].
  rewrite storeValue_S.
  rewrite (fst_bind_ok _ tt) by reflexivity.
  change (negb (isObject (VString [c]))) with false. cbn iota beta.
  rewrite (fst_bind_ok _ tt) by reflexivity.
  change (object_entries (VString [c])) with (Some [(js "0", VString [c])]).
  cbn [lift_option]. rewrite bind_ret. cbn [for_each]. rewrite bind_ret_r.
  change (mergeOptions (dv_defaultOptions (materializer [] None)) strict_options) with strict_options.
  change (propertyNameEncoder strict_options) with (Some encodePathElement).
  unfold store_entry. rewrite nested_destination_simple by (assumption || reflexivity).
  rewrite bind_ret. cbn [scan_handlers dv_handlers materializer]. rewrite bind_ret.
  change (canStoreValue _ _ (VString [c])) with true. cbn iota.
  apply IH; [destruct Ls; [congruence | discriminate] |].
  apply Forall_app; split; [assumption | now repeat constructor].
Qed.

Lemma tmp_xyz_segments : tmp_xyz = mkURL File [] [js "tmp"; js "xyz"].
Proof. reflexivity. Qed.

(** C4: a property holding 42 that no handler takes is recursed into in
    strict mode: the store resolves and creates D/a; one holding "b" (the
    repository's strict test) recurses until the stack is exhausted. *)
Lemma store_unmatched_primitive_counterexample :
  storeValue 10 (materializer [] None) [] tmp_xyz (VObject [(js "a", VNumber 42)]) strict_options
  = (Ok tt, [ECreateDirectory tmp_xyz; ECreateDirectory (file_url "/tmp/xyz/a")]) /\
  (forall fuel, fst (storeValue fuel (materializer [] None) [] tmp_xyz
                       (VObject [(js "a", VString (js "b"))]) strict_options)
                = Err StackExhausted).
Proof.
  split; [vm_compute; reflexivity |].
  intros [| fuel]; [reflexivity |].
  rewrite storeValue_S, (fst_bind_ok _ tt) by reflexivity.
  change (negb (isObject (VObject [(js "a", VString (js "b"))]))) with false. cbn iota beta.
  rewrite (fst_bind_ok _ tt) by reflexivity.
  cbn [object_entries lift_option]. rewrite bind_ret. cbn [for_each]. rewrite bind_ret_r.
  change (mergeOptions (dv_defaultOptions (materializer [] None)) strict_options) with strict_options.
  change (propertyNameEncoder strict_options) with (Some encodePathElement).
  unfold store_entry. rewrite tmp_xyz_segments.
  rewrite nested_destination_simple by (discriminate || (repeat constructor) || reflexivity).
  rewrite bind_ret. cbn [scan_handlers dv_handlers materializer]. rewrite bind_ret.
  change (canStoreValue _ _ (VString (js "b"))) with true. cbn iota.
  apply store_string_loops; [discriminate | repeat constructor].
Qed.

(** ** The candidate scan *)

Definition is_store_event (ev : event) : bool :=
  match ev with EStore _ _ _ _ _ => true | _ => false end.

Lemma scan_handlers_cons (h : Handler) (hs : list Handler) (p : jsstr) (u : URL) (v : value)
    (o : option Options) :
  scan_handlers (h :: hs) p u v o
  = if h_canStoreValue h p u v
    then ((if h_storeValue_ok h p u v o then Ok true else Err (HandlerRejected (h_name h) p)),
          [ECanStore (h_name h) p u v; EStore (h_name h) p u v o])
    else (fst (scan_handlers hs p u v o), ECanStore (h_name h) p u v :: snd (scan_handlers hs p u v o)).
Proof.
  cbn [scan_handlers]. rewrite bind_emit.
  destruct (h_canStoreValue h p u v); [| reflexivity].
  rewrite bind_emit. now destruct (h_storeValue_ok h p u v o).
Qed.

Lemma scan_handlers_none (hs : list Handler) (p : jsstr) (u : URL) (v : value) (o : option Options) :
  Forall (fun h => h_canStoreValue h p u v = false) hs ->
  scan_handlers hs p u v o = (Ok false, map (fun h => ECanStore (h_name h) p u v) hs).
Proof.
  induction 1 as [| h hs Hh _ IH]; [reflexivity |].
  rewrite scan_handlers_cons, Hh, IH. reflexivity.
Qed.

Lemma scan_handlers_stores (hs : list Handler) (p p' : jsstr) (u u' : URL) (v v' : value)
    (o : option Options) (o' : option Options) (h : jsstr) :
  In (EStore h p' u' v' o') (snd (scan_handlers hs p u v o)) -> o' = o.
Proof.
  induction hs as [| h0 hs IH]; [cbn; tauto |].
  rewrite scan_handlers_cons. destruct (h_canStoreValue h0 p u v); cbn.
  - intros [E | [E | []]]; [discriminate | congruence].
  - intros [E | H]; [discriminate | now apply IH].
Qed.

(** C5: the scan consults the handlers in order up to the first one whose
    [canStoreValue] holds, delegates to it and stops; at most one handler
    stores the property. *)
Theorem scan_handlers_first_match :
  (forall (pre post : list Handler) (h : Handler) p u v o,
     Forall (fun h' => h_canStoreValue h' p u v = false) pre ->
     h_canStoreValue h p u v = true ->
     scan_handlers (pre ++ h :: post) p u v o
     = ((if h_storeValue_ok h p u v o then Ok true else Err (HandlerRejected (h_name h) p)),
        map (fun h' => ECanStore (h_name h') p u v) (pre ++ [h]) ++ [EStore (h_name h) p u v o])) /\
  (forall (hs : list Handler) p u v o,
     Forall (fun h => h_canStoreValue h p u v = false) hs ->
     scan_handlers hs p u v o = (Ok false, map (fun h => ECanStore (h_name h) p u v) hs)) /\
  (forall (h1 h2 : Handler) p u v o,
     h_canStoreValue h1 p u v = true ->
     snd (scan_handlers [h1; h2] p u v o) = [ECanStore (h_name h1) p u v; EStore (h_name h1) p u v o]) /\
  (forall (h1 h2 : Handler) p u v o,
     h_canStoreValue h1 p u v = false ->
     snd (scan_handlers [h1; h2] p u v o) = ECanStore (h_name h1) p u v :: snd (scan_handlers [h2] p u v o)) /\
  (forall (hs : list Handler) p u v o,
     (List.length (filter is_store_event (snd (scan_handlers hs p u v o))) <= 1)%nat).
Proof.
  split; [| split; [| split; [| split]]].
  - intros pre post h p u v o Hpre Hh. induction Hpre as [| h' pre Hh' _ IH].
    + cbn [app]. rewrite scan_handlers_cons, Hh. reflexivity.
    + cbn [app]. rewrite scan_handlers_cons, Hh', IH. reflexivity.
  - exact scan_handlers_none.
  - intros h1 h2 p u v o H. rewrite scan_handlers_cons, H. reflexivity.
  - intros h1 h2 p u v o H. rewrite scan_handlers_cons, H. reflexivity.
  - intros hs p u v o. induction hs as [| h hs IH]; [cbn; lia |].
    rewrite scan_handlers_cons. destruct (h_canStoreValue h p u v); cbn; [lia | exact IH].
Qed.

Lemma scan_handlers_first_match_witness :
  Forall (fun h' => h_canStoreValue h' [] tmp_xyz (VObject []) = false) [mock_handler "h1" false] /\
  h_canStoreValue (mock_handler "h2" true) [] tmp_xyz (VObject []) = true /\
  scan_handlers ([mock_handler "h1" false] ++ mock_handler "h2" true :: [mock_handler "h3" true])
    [] tmp_xyz (VObject []) None
  = (Ok true, [ECanStore (js "h1") [] tmp_xyz (VObject []); ECanStore (js "h2") [] tmp_xyz (VObject []);
               EStore (js "h2") [] tmp_xyz (VObject []) None]).
Proof.
  assert (H1 : Forall (fun h' => h_canStoreValue h' [] tmp_xyz (VObject []) = false)
                 [mock_handler "h1" false]) by (repeat constructor).
  assert (H2 : h_canStoreValue (mock_handler "h2" true) [] tmp_xyz (VObject []) = true) by reflexivity.
  split; [exact H1 |]. split; [exact H2 |].
  destruct scan_handlers_first_match as [F _].
  rewrite (F _ _ _ _ _ _ None H1 H2). reflexivity.
Defined.

(** ** One property of the stored object *)

Lemma store_entry_at (hs : list Handler) (store_self : jsstr -> URL -> value -> option Options -> M unit)
    (p : jsstr) (d : DirectoryReference) (merged : option Options) (enc : option (jsstr -> jsstr))
    (k : jsstr) (v : value) (u : URL) :
  nested_destination d enc k = ret u ->
  store_entry hs store_self p d merged enc (k, v)
  = (stored <- scan_handlers hs (p ++ SLASH :: encodePathElement k) u v merged ;;
     if stored then ret tt
     else if canStoreValue (p ++ SLASH :: encodePathElement k) u v then
       store_self (p ++ SLASH :: encodePathElement k) u v merged
     else if is_strict merged then throw (NoHandlerMatched (p ++ SLASH :: encodePathElement k))
     else ret tt).
Proof. intros E. unfold store_entry. now rewrite E, bind_ret. Qed.

(** A property no handler takes and [canStoreValue] refuses (null, an
    array) is skipped, or rejects the store in strict mode; either way only
    the [canStoreValue] queries are made for it. *)
Lemma store_entry_unmatched (hs : list Handler)
    (store_self : jsstr -> URL -> value -> option Options -> M unit)
    (p : jsstr) (d : DirectoryReference) (merged : option Options) (enc : option (jsstr -> jsstr))
    (k : jsstr) (v : value) (u : URL) :
  nested_destination d enc k = ret u ->
  Forall (fun h => h_canStoreValue h (p ++ SLASH :: encodePathElement k) u v = false) hs ->
  canStoreValue (p ++ SLASH :: encodePathElement k) u v = false ->
  store_entry hs store_self p d merged enc (k, v)
  = ((if is_strict merged then Err (NoHandlerMatched (p ++ SLASH :: encodePathElement k)) else Ok tt),
     map (fun h => ECanStore (h_name h) (p ++ SLASH :: encodePathElement k) u v) hs).
Proof.
  intros Ed Hall Hcan. rewrite (store_entry_at _ _ _ _ _ _ _ _ _ Ed).
  rewrite scan_handlers_none by exact Hall. rewrite bind_ok. cbn [fst snd]. rewrite Hcan.
  destruct (is_strict merged); cbn; now rewrite app_nil_r.
Qed.

Lemma store_entry_unmatched_witness :
  nested_destination (newDirectoryReference tmp_xyz) (Some encodePathElement) (js "a")
    = ret (file_url "/tmp/xyz/a") /\
  Forall (fun h => h_canStoreValue h (js "/a") (file_url "/tmp/xyz/a") VNull = false)
    [mock_handler "h1" false] /\
  canStoreValue (js "/a") (file_url "/tmp/xyz/a") VNull = false /\
  store_entry [mock_handler "h1" false] (fun _ _ _ _ => ret tt) [] (newDirectoryReference tmp_xyz)
    strict_options (Some encodePathElement) (js "a", VNull)
  = (Err (NoHandlerMatched (js "/a")), [ECanStore (js "h1") (js "/a") (file_url "/tmp/xyz/a") VNull]).
Proof.
  assert (H1 : nested_destination (newDirectoryReference tmp_xyz) (Some encodePathElement) (js "a")
                 = ret (file_url "/tmp/xyz/a")) by (vm_compute; reflexivity).
  assert (H2 : Forall (fun h => h_canStoreValue h (js "/a") (file_url "/tmp/xyz/a") VNull = false)
                 [mock_handler "h1" false]) by (repeat constructor).
  assert (H3 : canStoreValue (js "/a") (file_url "/tmp/xyz/a") VNull = false) by reflexivity.
  split; [exact H1 |]. split; [exact H2 |]. split; [exact H3 |].
  exact (store_entry_unmatched [mock_handler "h1" false] (fun _ _ _ _ => ret tt) []
           (newDirectoryReference tmp_xyz) strict_options (Some encodePathElement)
           (js "a") VNull (file_url "/tmp/xyz/a") H1 H2 H3).
Defined.

Lemma createDirectory_succeeds (creator : DirectoryCreator) (u : URL) :
  createDirectory_ok creator u = true -> createDirectory creator u = (Ok tt, [ECreateDirectory u]).
Proof. intros H. unfold createDirectory. rewrite bind_emit, H. reflexivity. Qed.

(** C6: an object property no handler takes is stored by the recursive
    call, whatever the strict option; storing [{a: {}}] with no handlers
    creates D and D/a and calls no handler. *)
Theorem store_entry_object_recurses :
  (forall (hs : list Handler) (store_self : jsstr -> URL -> value -> option Options -> M unit)
          (p : jsstr) (d : DirectoryReference) (merged : option Options)
          (enc : option (jsstr -> jsstr)) (k : jsstr) (es : list (jsstr * value)) (u : URL),
     nested_destination d enc k = ret u ->
     Forall (fun h => h_canStoreValue h (p ++ SLASH :: encodePathElement k) u (VObject es) = false) hs ->
     store_entry hs store_self p d merged enc (k, VObject es)
     = (fst (store_self (p ++ SLASH :: encodePathElement k) u (VObject es) merged),
        map (fun h => ECanStore (h_name h) (p ++ SLASH :: encodePathElement k) u (VObject es)) hs
        ++ snd (store_self (p ++ SLASH :: encodePathElement k) u (VObject es) merged))) /\
  (forall (sch : scheme) (host : jsstr) (Ls : list jsstr) (fuel : nat) (p : jsstr) (strict : bool),
     Ls <> [] -> Forall (fun seg => ordinary_segment seg = true) Ls ->
     storeValue (S (S fuel)) (materializer [] None) p (mkURL sch host Ls)
       (VObject [(js "a", VObject [])]) (Some [(js "strict", OptBool strict)])
     = (Ok tt, [ECreateDirectory (mkURL sch host Ls); ECreateDirectory (mkURL sch host (Ls ++ [js "a"]))])).
Proof.
  split.
  - intros hs store_self p d merged enc k es u Ed Hall.
    rewrite (store_entry_at _ _ _ _ _ _ _ _ _ Ed).
    rewrite scan_handlers_none by exact Hall. rewrite bind_ok. reflexivity.
  - intros sch host Ls fuel p strict HLne HLord.
    assert (Ha : Forall (fun seg => ordinary_segment seg = true) (Ls ++ [js "a"]))
      by (apply Forall_app; split; [assumption | now repeat constructor]).
    assert (Hane : Ls ++ [js "a"] <> []) by (destruct Ls; [congruence | discriminate]).
    rewrite storeValue_S.
    change (throwIfAborted (Some [(js "strict", OptBool strict)])) with (@ret unit tt).
    rewrite bind_ret.
    change (negb (isObject (VObject [(js "a", VObject [])]))) with false. cbn iota beta.
    rewrite (newDirectoryReference_ordinary sch host Ls HLne HLord) at 1. cbn [canonicalUrl].
    rewrite createDirectory_succeeds by reflexivity. rewrite bind_ok.
    cbn [object_entries lift_option]. rewrite bind_ret.
    cbn [for_each]. rewrite bind_ret_r.
    change (mergeOptions (dv_defaultOptions (materializer [] None)) (Some [(js "strict", OptBool strict)]))
      with (Some [(js "strict", OptBool strict)]).
    change (propertyNameEncoder (Some [(js "strict", OptBool strict)])) with (Some encodePathElement).
    rewrite (store_entry_at _ _ _ _ _ _ _ _ (mkURL sch host (Ls ++ [js "a"])))
      by (apply nested_destination_simple; assumption || reflexivity).
    cbn [scan_handlers dv_handlers materializer]. rewrite bind_ret.
    change (canStoreValue _ _ (VObject [])) with true. cbn iota.
    rewrite storeValue_S.
    change (throwIfAborted (Some [(js "strict", OptBool strict)])) with (@ret unit tt).
    rewrite bind_ret.
    change (negb (isObject (VObject []))) with false. cbn iota beta.
    rewrite (newDirectoryReference_ordinary sch host _ Hane Ha). cbn [canonicalUrl].
    rewrite createDirectory_succeeds by reflexivity. rewrite bind_ok.
    cbn [object_entries lift_option for_each]. rewrite bind_ret. cbn. reflexivity.
Qed.

Lemma store_entry_object_recurses_witness :
  [js "tmp"; js "xyz"] <> [] /\
  Forall (fun seg => ordinary_segment seg = true) [js "tmp"; js "xyz"] /\
  storeValue 2 (materializer [] None) [] tmp_xyz (VObject [(js "a", VObject [])])
    (Some [(js "strict", OptBool true)])
  = (Ok tt, [ECreateDirectory tmp_xyz; ECreateDirectory (file_url "/tmp/xyz/a")]).
Proof.
  assert (H1 : [js "tmp"; js "xyz"] <> []) by discriminate.
  assert (H2 : Forall (fun seg => ordinary_segment seg = true) [js "tmp"; js "xyz"])
    by (repeat constructor).
  split; [exact H1 |]. split; [exact H2 |].
  destruct store_entry_object_recurses as [_ F].
  rewrite tmp_xyz_segments. rewrite (F File [] _ O [] true H1 H2). reflexivity.
Defined.

Definition accept_all : Handler := mock_handler "h" true.

(** C8: the key "%" under the default encoder: the handler is given the
    location /tmp/xyz/%2525 ([encodeURIComponent] of "%25"), not the join
    of the encoder's output, /tmp/xyz/%25. *)
Lemma child_location_counterexample :
  snd (storeValue 10 (materializer [accept_all] None) [] tmp_xyz
         (VObject [(js "%", VString (js "b"))]) None)
  = [ECreateDirectory tmp_xyz;
     ECanStore (js "h") (js "/%25") (file_url "/tmp/xyz/%2525") (VString (js "b"));
     EStore (js "h") (js "/%25") (file_url "/tmp/xyz/%2525") (VString (js "b")) None] /\
  spec_child_location (newDirectoryReference tmp_xyz) encodePathElement (js "%")
  = Some (Ok (file_url "/tmp/xyz/%25")) /\
  file_url "/tmp/xyz/%2525" <> file_url "/tmp/xyz/%25".
Proof. split; [| split]; [vm_compute; reflexivity | vm_compute; reflexivity | discriminate]. Qed.

Lemma encodeURIComponent_percent (s : jsstr) :
  encodeURIComponent (PERCENT :: s) = option_map (fun r => js "%25" ++ r) (encodeURIComponent s).
Proof. reflexivity. Qed.

(** ** Option merging *)

Lemma str_eqb_refl (a : jsstr) : str_eqb a a = true.
Proof. now apply str_eqb_eq. Qed.

Lemma str_eqb_reflect (a b : jsstr) : reflect (a = b) (str_eqb a b).
Proof. apply iff_reflect. symmetry. apply str_eqb_eq. Qed.

Lemma get_prop_set (t : Options) (k k' : jsstr) (v : opt_value) :
  get_prop k (set_prop t k' v) = if str_eqb k k' then Some v else get_prop k t.
Proof.
  induction t as [| [k2 v2] t IH]; cbn [set_prop get_prop]; [reflexivity |].
  destruct (str_eqb_reflect k' k2) as [-> | Hne]; cbn [get_prop].
  - destruct (str_eqb k k2); reflexivity.
  - rewrite IH. destruct (str_eqb_reflect k k2) as [-> | Hne2].
    + destruct (str_eqb_reflect k2 k'); [congruence | reflexivity].
    + reflexivity.
Qed.

Lemma get_prop_none (s : Options) (k : jsstr) : ~ In k (map fst s) -> get_prop k s = None.
Proof.
  induction s as [| [k2 v2] s IH]; cbn; intros H; [reflexivity |].
  destruct (str_eqb_reflect k k2) as [-> | _]; [tauto |]. apply IH. tauto.
Qed.

(** [Object.assign(target, source)]: a key of the source takes the source's
    value, any other key keeps the target's. *)
Lemma get_prop_assign (t s : Options) (k : jsstr) :
  NoDup (map fst s) ->
  get_prop k (assign t s) = match get_prop k s with Some x => Some x | None => get_prop k t end.
Proof.
  revert t. induction s as [| [k' v'] s IH]; intros t Hnd; [reflexivity |].
  cbn [map fst] in Hnd. inversion Hnd as [| ? ? Hnin Hnd']; subst.
  cbn [assign get_prop]. rewrite IH by exact Hnd'. rewrite get_prop_set.
  destruct (str_eqb_reflect k k') as [-> | _]; [| reflexivity].
  now rewrite get_prop_none.
Qed.

Lemma in_keys_set (t : Options) (k k0 : jsstr) (v : opt_value) :
  In k0 (map fst (set_prop t k v)) -> In k0 (map fst t) \/ k0 = k.
Proof.
  induction t as [| [k2 v2] t IH]; cbn; [intros [-> | []]; now right |].
  destruct (str_eqb k k2); cbn; [tauto |]. intros [-> | H]; [tauto |]. apply IH in H. tauto.
Qed.

Lemma nodup_set (t : Options) (k : jsstr) (v : opt_value) :
  NoDup (map fst t) -> NoDup (map fst (set_prop t k v)).
Proof.
  induction t as [| [k2 v2] t IH]; cbn; intros Hnd; [repeat constructor; tauto |].
  inversion Hnd as [| ? ? Hnin Hnd']; subst.
  destruct (str_eqb_reflect k k2) as [-> | Hne]; cbn; [assumption |].
  constructor; [| now apply IH].
  intros Hin. apply in_keys_set in Hin as [Hin | ->]; [tauto | congruence].
Qed.

Lemma nodup_assign (t s : Options) : NoDup (map fst t) -> NoDup (map fst (assign t s)).
Proof.
  revert t. induction s as [| [k v] s IH]; intros t Hnd; [exact Hnd |].
  cbn [assign]. apply IH. now apply nodup_set.
Qed.

(** ** Where the calls of a run come from *)

Lemma in_bind {A B : Type} (m : M A) (f : A -> M B) (ev : event) :
  In ev (snd (bind m f)) -> In ev (snd m) \/ exists a, fst m = Ok a /\ In ev (snd (f a)).
Proof.
  destruct m as [[a | e] t]; cbn; [| tauto].
  destruct (f a) as [r t2] eqn:E; cbn. intros H. apply in_app_or in H as [H | H]; [tauto |].
  right. exists a. rewrite E. now split.
Qed.

Lemma in_for_each {A : Type} (f : A -> M unit) (xs : list A) (ev : event) :
  In ev (snd (for_each f xs)) -> exists x, In x xs /\ In ev (snd (f x)).
Proof.
  induction xs as [| x xs IH]; cbn [for_each]; [cbn; tauto |].
  intros H. apply in_bind in H as [H | (a & _ & H)].
  - exists x. split; [now left | exact H].
  - apply IH in H as (y & Hy & H). exists y. split; [now right | exact H].
Qed.

Lemma throwIfAborted_silent (o : option Options) : snd (throwIfAborted o) = [].
Proof. unfold throwIfAborted. destruct (read_option o (js "signal")) as [| | | ? [|] |]; reflexivity. Qed.

Lemma lift_option_silent {A : Type} (e : error) (o : option A) : snd (lift_option e o) = [].
Proof. now destruct o. Qed.

Lemma contents_url_silent (d : DirectoryReference) (name : jsstr) : snd (contents_url d name) = [].
Proof. unfold contents_url. now destruct (getContentsUrl d name) as [[|] |]. Qed.

Lemma nested_destination_silent (d : DirectoryReference) (enc : option (jsstr -> jsstr)) (k : jsstr) :
  snd (nested_destination d enc k) = [].
Proof.
  unfold nested_destination. destruct enc as [f |]; [| reflexivity]. cbn [lift_option]. rewrite bind_ret.
  destruct (encodeURIComponent (f k)); [| reflexivity]. cbn [lift_option]. rewrite bind_ret.
  apply contents_url_silent.
Qed.

Lemma createDirectory_events (c : DirectoryCreator) (u : URL) (ev : event) :
  In ev (snd (createDirectory c u)) -> ev = ECreateDirectory u.
Proof.
  unfold createDirectory. rewrite bind_emit. cbn [snd].
  destruct (createDirectory_ok c u); cbn; intros [-> | []]; reflexivity.
Qed.

Section MergedOptionsReachHandlers.
Variable self : DirectoryValueStorageHandler.
Variable D : Options.
Hypothesis Hdefaults : dv_defaultOptions self = Some D.
Hypothesis HD : NoDup (map fst D).

Lemma merged_lookup (O : Options) (k : jsstr) :
  NoDup (map fst O) ->
  get_prop k (assign (assign [] D) O)
  = match get_prop k O with Some x => Some x | None => get_prop k D end.
Proof.
  intros HO. rewrite get_prop_assign by exact HO.
  destruct (get_prop k O); [reflexivity |]. rewrite get_prop_assign by exact HD.
  now destruct (get_prop k D).
Qed.

Lemma merged_nodup (O : Options) : NoDup (map fst (assign (assign [] D) O)).
Proof. apply nodup_assign, nodup_assign. constructor. Qed.

(** Every handler [storeValue] call of a run, at any depth, is given the
    defaults merged with the call-site options. *)
Lemma storeValue_passes_merged (fuel : nat) :
  forall (p : jsstr) (u : URL) (v : value) (O : Options),
  NoDup (map fst O) ->
  forall h p' u' v' o',
  In (EStore h p' u' v' o') (snd (storeValue fuel self p u v (Some O))) ->
  exists o'', o' = Some o'' /\ NoDup (map fst o'') /\
    forall k, get_prop k o'' = match get_prop k O with Some x => Some x | None => get_prop k D end.
Proof.
  induction fuel as [| fuel IH]; intros p u v O HO h p' u' v' o' Hin; [destruct Hin |].
  rewrite storeValue_S in Hin.
  apply in_bind in Hin as [Hin | (_ & _ & Hin)]; [rewrite throwIfAborted_silent in Hin; destruct Hin |].
  destruct (negb (isObject v)); [destruct Hin |].
  apply in_bind in Hin as [Hin | (_ & _ & Hin)]; [apply createDirectory_events in Hin; discriminate |].
  apply in_bind in Hin as [Hin | (es & _ & Hin)]; [rewrite lift_option_silent in Hin; destruct Hin |].
  apply in_for_each in Hin as ([k0 v0] & _ & Hin).
  rewrite Hdefaults in Hin. cbn [mergeOptions] in Hin.
  unfold store_entry in Hin.
  apply in_bind in Hin as [Hin | (url & _ & Hin)]; [rewrite nested_destination_silent in Hin; destruct Hin |].
  apply in_bind in Hin as [Hin | (stored & _ & Hin)].
  - apply scan_handlers_stores in Hin. subst o'.
    eexists. split; [reflexivity |]. split; [apply merged_nodup |]. intros k. now apply merged_lookup.
  - destruct stored; [destruct Hin |].
    destruct (canStoreValue _ _ v0).
    + apply IH in Hin as (o'' & -> & Hnd & Hlook); [| apply merged_nodup].
      exists o''. split; [reflexivity |]. split; [exact Hnd |].
      intros k. rewrite Hlook, merged_lookup by exact HO.
      destruct (get_prop k O); [reflexivity |]. now destruct (get_prop k D).
    + destruct (is_strict _); destruct Hin.
Qed.

End MergedOptionsReachHandlers.

Definition mode_signal_defaults : Options :=
  [(js "mode", OptNumber 438); (js "signal", OptSignal 1 false)].

Definition mode_override : Options := [(js "mode", OptNumber 511)].

Definition materializer_with_defaults : DirectoryValueStorageHandler :=
  mkDirectoryValueStorageHandler (js "test1") [accept_all] creator_ok (Some mode_signal_defaults).

(** C9: option merging is per key, call-site values winning: every handler
    call of a store is given, for each key, the call-site value if there is
    one and the default otherwise; with defaults {mode: 0o666, signal: S} and
    call-site options {mode: 0o777} the handler gets {mode: 0o777, signal: S}. *)
Theorem handler_options_merged :
  (forall (self : DirectoryValueStorageHandler) (D : Options) (fuel : nat)
          (p : jsstr) (u : URL) (v : value) (O : Options),
     dv_defaultOptions self = Some D -> NoDup (map fst D) -> NoDup (map fst O) ->
     forall h p' u' v' o',
     In (EStore h p' u' v' o') (snd (storeValue fuel self p u v (Some O))) ->
     exists o'', o' = Some o'' /\
       forall k, get_prop k o'' = match get_prop k O with Some x => Some x | None => get_prop k D end) /\
  storeValue 10 materializer_with_defaults [] tmp_xyz (VObject [(js "a", VString (js "b"))])
    (Some mode_override)
  = (Ok tt, [ECreateDirectory tmp_xyz;
             ECanStore (js "h") (js "/a") (file_url "/tmp/xyz/a") (VString (js "b"));
             EStore (js "h") (js "/a") (file_url "/tmp/xyz/a") (VString (js "b"))
               (Some [(js "mode", OptNumber 511); (js "signal", OptSignal 1 false)])]).
Proof.
  split.
  - intros self D fuel p u v O Hdef HD HO h p' u' v' o' Hin.
    destruct (storeValue_passes_merged self D Hdef HD fuel p u v O HO h p' u' v' o' Hin)
      as (o'' & E & _ & L).
    exists o''. now split.
  - vm_compute. reflexivity.
Qed.

Lemma handler_options_merged_witness :
  NoDup (map fst mode_signal_defaults) /\ NoDup (map fst mode_override) /\
  exists o'', Some [(js "mode", OptNumber 511); (js "signal", OptSignal 1 false)] = Some o'' /\
    get_prop (js "mode") o'' = Some (OptNumber 511) /\
    get_prop (js "signal") o'' = Some (OptSignal 1 false).
Proof.
  assert (HD : NoDup (map fst mode_signal_defaults)).
  { constructor; [cbn; intros [E | []]; discriminate | repeat constructor; cbn; tauto]. }
  assert (HO : NoDup (map fst mode_override)) by (repeat constructor; cbn; tauto).
  split; [exact HD |]. split; [exact HO |].
  destruct handler_options_merged as [G E].
  assert (Hin : In (EStore (js "h") (js "/a") (file_url "/tmp/xyz/a") (VString (js "b"))
                      (Some [(js "mode", OptNumber 511); (js "signal", OptSignal 1 false)]))
                   (snd (storeValue 10 materializer_with_defaults [] tmp_xyz
                           (VObject [(js "a", VString (js "b"))]) (Some mode_override))))
    by (rewrite E; cbn; tauto).
  destruct (G materializer_with_defaults mode_signal_defaults 10%nat [] tmp_xyz _ mode_override
              eq_refl HD HO _ _ _ _ _ Hin) as (o'' & Eo & L).
  exists o''. split; [exact Eo |].
  rewrite !L. split; reflexivity.
Defined.

(** ** The order of the properties *)

Lemma for_each_cons {A : Type} (f : A -> M unit) (x : A) (xs : list A) :
  fst (f x) = Ok tt ->
  for_each f (x :: xs) = (fst (for_each f xs), snd (f x) ++ snd (for_each f xs)).
Proof.
  intros H. cbn [for_each]. destruct (f x) as [r t]. cbn in H. subst r.
  exact (bind_ok tt t (fun _ => for_each f xs)).
Qed.

Lemma for_each_ok_inv {A : Type} (f : A -> M unit) (x : A) (xs : list A) :
  fst (for_each f (x :: xs)) = Ok tt -> fst (f x) = Ok tt /\ fst (for_each f xs) = Ok tt.
Proof.
  cbn [for_each]. destruct (f x) as [r t] eqn:E. destruct r as [[] | e]; cbn; [| discriminate].
  destruct (for_each f xs) as [r2 t2]. cbn. intros H. now split.
Qed.

Definition reject_b : Handler :=
  mkHandler (js "h") (fun _ _ _ => true) (fun p _ _ _ => negb (str_eqb p (js "/b"))).

(** C10: the destination directory is created first; the properties are
    then handled one after the other in [Object.entries] order; the first
    failure ends the store with the calls made so far (nothing is undone)
    and no later property is looked at; when none fails, each property's
    calls appear once, in order. *)
Theorem store_sequential :
  (forall (fuel : nat) (self : DirectoryValueStorageHandler) (p : jsstr) (u : URL)
          (es : list (jsstr * value)) (o : option Options),
     throwIfAborted o = ret tt ->
     createDirectory_ok (dv_directoryCreator self) (canonicalUrl (newDirectoryReference u)) = true ->
     let merged := mergeOptions (dv_defaultOptions self) o in
     let run := for_each (store_entry (dv_handlers self) (storeValue fuel self) p
                            (newDirectoryReference u) merged (propertyNameEncoder merged)) es in
     storeValue (S fuel) self p u (VObject es) o
     = (fst run, ECreateDirectory (canonicalUrl (newDirectoryReference u)) :: snd run)) /\
  (forall (A : Type) (f : A -> M unit) (xs ys : list A) (x : A) (e : error),
     fst (for_each f xs) = Ok tt -> fst (f x) = Err e ->
     for_each f (xs ++ x :: ys) = (Err e, snd (for_each f xs) ++ snd (f x))) /\
  (forall (A : Type) (f : A -> M unit) (xs : list A),
     Forall (fun x => fst (f x) = Ok tt) xs ->
     for_each f xs = (Ok tt, flat_map (fun x => snd (f x)) xs)) /\
  storeValue 10 (mkDirectoryValueStorageHandler (js "test1") [reject_b] creator_ok None) [] tmp_xyz
    (VObject [(js "a", VString (js "1")); (js "b", VString (js "2")); (js "c", VString (js "3"))]) None
  = (Err (HandlerRejected (js "h") (js "/b")),
     [ECreateDirectory tmp_xyz;
      ECanStore (js "h") (js "/a") (file_url "/tmp/xyz/a") (VString (js "1"));
      EStore (js "h") (js "/a") (file_url "/tmp/xyz/a") (VString (js "1")) None;
      ECanStore (js "h") (js "/b") (file_url "/tmp/xyz/b") (VString (js "2"));
      EStore (js "h") (js "/b") (file_url "/tmp/xyz/b") (VString (js "2")) None]).
Proof.
  split; [| split; [| split]].
  - intros fuel self p u es o Ha Hc merged run.
    rewrite storeValue_S, Ha, bind_ret.
    change (negb (isObject (VObject es))) with false. cbn iota beta.
    rewrite createDirectory_succeeds by exact Hc. rewrite bind_ok.
    cbn [object_entries lift_option]. rewrite bind_ret. reflexivity.
  - intros A f xs ys x e. induction xs as [| y xs IH]; intros Hxs Hx.
    + cbn [app for_each]. destruct (f x) as [r t]. cbn in Hx. subst r. reflexivity.
    + apply for_each_ok_inv in Hxs as [Hy Hxs].
      change ((y :: xs) ++ x :: ys) with (y :: (xs ++ x :: ys)).
      rewrite !for_each_cons by exact Hy. rewrite IH by assumption.
      cbn [fst snd]. now rewrite app_assoc.
  - intros A f xs Hall. induction Hall as [| x xs Hx _ IH]; [reflexivity |].
    rewrite for_each_cons, IH by exact Hx. reflexivity.
  - vm_compute. reflexivity.
Qed.

Lemma store_sequential_witness :
  throwIfAborted None = ret tt /\
  createDirectory_ok creator_ok (canonicalUrl (newDirectoryReference tmp_xyz)) = true /\
  fst (storeValue 10 (materializer [accept_all] None) [] tmp_xyz (VObject [(js "a", VObject [])]) None)
  = fst (for_each (store_entry [accept_all] (storeValue 9 (materializer [accept_all] None)) []
                     (newDirectoryReference tmp_xyz) None (Some encodePathElement))
                  [(js "a", VObject [])]).
Proof.
  assert (H1 : throwIfAborted None = ret tt) by reflexivity.
  assert (H2 : createDirectory_ok (dv_directoryCreator (materializer [accept_all] None))
                 (canonicalUrl (newDirectoryReference tmp_xyz)) = true) by reflexivity.
  split; [exact H1 |]. split; [exact H2 |].
  destruct store_sequential as [F _].
  rewrite (F 9%nat (materializer [accept_all] None) [] tmp_xyz [(js "a", VObject [])] None H1 H2).
  reflexivity.
Defined.

(** ** The path codec: further properties *)

Lemma has_slash_app (a b : jsstr) : has_slash (a ++ b) = has_slash a || has_slash b.
Proof. unfold has_slash. apply existsb_app. Qed.

Lemma replace_slash_no_slash (t : jsstr) :
  has_slash (replace_all_unit SLASH (js "%2F") t) = false.
Proof.
  induction t as [| x t IH]; [reflexivity |].
  rewrite replace_all_unit_cons, has_slash_app, IH, orb_false_r.
  destruct (N.eqb x SLASH) eqn:E; [reflexivity |]. cbn. now rewrite E.
Qed.

(** X2: an encoded path element never contains "/". *)
Theorem encodePathElement_no_slash (element : jsstr) :
  has_slash (encodePathElement element) = false.
Proof. unfold encodePathElement. apply replace_slash_no_slash. Qed.

Definition free_of (c : N) (s : jsstr) : bool := forallb (fun x => negb (N.eqb x c)) s.

Lemma replace_all_unit_free (c : N) (rep s : jsstr) :
  free_of c s = true -> replace_all_unit c rep s = s.
Proof.
  induction s as [| x s IH]; cbn; [reflexivity |].
  intros H. apply andb_true_iff in H as [H1 H2]. apply negb_true_iff in H1.
  rewrite H1, IH by exact H2. reflexivity.
Qed.

Lemma replace_all_unit_length (c : N) (rep s : jsstr) :
  (2 <= List.length rep)%nat ->
  (List.length s <= List.length (replace_all_unit c rep s))%nat /\
  (free_of c s = false -> (List.length s < List.length (replace_all_unit c rep s))%nat).
Proof.
  intros Hrep. induction s as [| x s [IH1 IH2]]; cbn; [split; [lia | discriminate] |].
  unfold free_of in *. cbn [forallb].
  destruct (N.eqb x c); cbn [negb andb]; rewrite ?length_app; cbn [List.length]; split; try lia.
  all: intros H; try (specialize (IH2 H)); lia.
Qed.

Lemma replace_all_triple_free (s : jsstr) (b c : N) (rep : jsstr) :
  free_of PERCENT s = true -> replace_all_triple 37 b c rep s = s.
Proof.
  induction s as [| x s IH]; [reflexivity |].
  intros H. cbn [free_of forallb] in H. apply andb_true_iff in H as [H1 H2]. apply negb_true_iff in H1.
  rewrite replace_all_triple_other by exact H1. now rewrite IH.
Qed.

(** X3: [encodePathElement] leaves a string unchanged exactly when it
    contains neither "%" nor "/"; [decodePathElement] leaves every string
    without "%" unchanged. *)
Theorem encodePathElement_identity (element : jsstr) :
  (encodePathElement element = element <->
   free_of PERCENT element = true /\ free_of SLASH element = true) /\
  (free_of PERCENT element = true -> decodePathElement element = element).
Proof.
  split.
  - unfold encodePathElement. split.
    + intros E.
      assert (Hl : List.length (replace_all_unit SLASH (js "%2F") (replace_all_unit PERCENT (js "%25") element))
                   = List.length element) by now rewrite E.
      pose proof (replace_all_unit_length PERCENT (js "%25") element ltac:(cbn; lia)) as [A1 A2].
      pose proof (replace_all_unit_length SLASH (js "%2F")
                    (replace_all_unit PERCENT (js "%25") element) ltac:(cbn; lia)) as [B1 B2].
      destruct (free_of PERCENT element) eqn:Hp.
      * split; [reflexivity |].
        rewrite (replace_all_unit_free PERCENT (js "%25") element Hp) in B2, Hl.
        destruct (free_of SLASH element) eqn:Hs; [reflexivity |]. specialize (B2 eq_refl). lia.
      * specialize (A2 eq_refl). lia.
    + intros [Hp Hs]. rewrite (replace_all_unit_free PERCENT) by exact Hp.
      now apply replace_all_unit_free.
  - intros Hp. unfold decodePathElement.
    rewrite (replace_all_triple_free element 50 70 [SLASH] Hp). now apply replace_all_triple_free.
Qed.

(** The [pathInSource] of a nested property:
    [`${pathInSource}/${encodePathElement(nestedKey)}`], one level per key. *)
Definition nested_path_in_source (pathInSource : jsstr) (keys : list jsstr) : jsstr :=
  fold_left (fun p k => p ++ SLASH :: encodePathElement k) keys pathInSource.

Lemma nested_path_flat (p : jsstr) (keys : list jsstr) :
  nested_path_in_source p keys = p ++ flat_map (fun k => SLASH :: encodePathElement k) keys.
Proof.
  unfold nested_path_in_source. revert p. induction keys as [| k ks IH]; intros p.
  - cbn. now rewrite app_nil_r.
  - cbn [fold_left flat_map]. rewrite IH. now rewrite <- app_assoc.
Qed.

Lemma slash_free_split (a b r1 r2 : jsstr) :
  has_slash a = false -> has_slash b = false ->
  (r1 = [] \/ exists t, r1 = SLASH :: t) -> (r2 = [] \/ exists t, r2 = SLASH :: t) ->
  a ++ r1 = b ++ r2 -> a = b /\ r1 = r2.
Proof.
  revert b. induction a as [| x a IH]; intros b Ha Hb H1 H2 E.
  - destruct b as [| y b]; [now split |]. cbn in E.
    destruct H1 as [-> | [t ->]]; [discriminate |]. injection E as Ey _. subst y.
    cbn in Hb. rewrite ?N.eqb_refl in Hb. discriminate.
  - destruct b as [| y b].
    + cbn in E. destruct H2 as [-> | [t ->]]; [discriminate |]. injection E as Ex _. subst x.
      cbn in Ha. rewrite ?N.eqb_refl in Ha. discriminate.
    + cbn in Ha, Hb. apply orb_false_iff in Ha as [_ Ha]. apply orb_false_iff in Hb as [_ Hb].
      injection E as -> E. destruct (IH b Ha Hb H1 H2 E) as [-> ->]. now split.
Qed.

Lemma encodePathElement_injective (s t : jsstr) :
  encodePathElement s = encodePathElement t -> s = t.
Proof.
  intros E. rewrite <- (decode_percent_pass s), <- (decode_percent_pass t).
  rewrite <- !decode_slash_pass. now rewrite E.
Qed.

Lemma flat_keys_shape (ks : list jsstr) :
  flat_map (fun k => SLASH :: encodePathElement k) ks = [] \/
  exists t, flat_map (fun k => SLASH :: encodePathElement k) ks = SLASH :: t.
Proof. destruct ks; [now left | right; eexists; reflexivity]. Qed.

(** X4: distinct chains of keys below the same [pathInSource] give distinct
    nested [pathInSource] strings. *)
Theorem nested_path_in_source_injective (p : jsstr) (keys1 keys2 : list jsstr) :
  nested_path_in_source p keys1 = nested_path_in_source p keys2 -> keys1 = keys2.
Proof.
  rewrite !nested_path_flat. intros E. apply app_inv_head in E. revert keys2 E.
  induction keys1 as [| k1 ks1 IH]; intros [| k2 ks2] E; cbn [flat_map] in E;
    [reflexivity | discriminate | discriminate |].
  injection E as E.
  destruct (slash_free_split _ _ _ _ (encodePathElement_no_slash k1) (encodePathElement_no_slash k2)
              (flat_keys_shape ks1) (flat_keys_shape ks2) E) as [Ek Er].
  apply encodePathElement_injective in Ek. subst k2. f_equal. now apply IH.
Qed.

Lemma encodePathElement_identity_witness :
  free_of PERCENT (js "a-b.txt") = true /\ decodePathElement (js "a-b.txt") = js "a-b.txt".
Proof.
  assert (H : free_of PERCENT (js "a-b.txt") = true) by reflexivity.
  split; [exact H | exact (proj2 (encodePathElement_identity (js "a-b.txt")) H)].
Defined.

Lemma nested_path_in_source_injective_witness :
  nested_path_in_source (js "/x") [js "a/b"; js "%"] = nested_path_in_source (js "/x") [js "a/b"; js "%"]
  /\ [js "a/b"; js "%"] = [js "a/b"; js "%"].
Proof.
  split; [reflexivity |].
  apply (nested_path_in_source_injective (js "/x")). reflexivity.
Defined.

(** ** [mergeOptions] *)

(** X5: [mergeOptions] returns the explicit options when there are no
    defaults, the defaults when there are no explicit options, and
    otherwise a fresh object in which each key holds the explicit value if
    the explicit options have the key and the default value otherwise. *)
Theorem mergeOptions_lookup (defaultOptions options : Options) :
  mergeOptions None (Some options) = Some options /\
  mergeOptions (Some defaultOptions) None = Some defaultOptions /\
  mergeOptions None None = None /\
  (NoDup (map fst defaultOptions) -> NoDup (map fst options) ->
   exists merged, mergeOptions (Some defaultOptions) (Some options) = Some merged /\
     NoDup (map fst merged) /\
     forall k, get_prop k merged =
               match get_prop k options with Some x => Some x | None => get_prop k defaultOptions end).
Proof.
  split; [reflexivity |]. split; [reflexivity |]. split; [reflexivity |].
  intros HD HO. exists (assign (assign [] defaultOptions) options).
  split; [reflexivity |]. split; [apply nodup_assign, nodup_assign; constructor |].
  intros k. rewrite get_prop_assign by exact HO.
  destruct (get_prop k options); [reflexivity |].
  rewrite get_prop_assign by exact HD. now destruct (get_prop k defaultOptions).
Qed.

Lemma mergeOptions_lookup_witness :
  NoDup (map fst mode_signal_defaults) /\ NoDup (map fst mode_override) /\
  exists merged, mergeOptions (Some mode_signal_defaults) (Some mode_override) = Some merged /\
    NoDup (map fst merged) /\
    forall k, get_prop k merged =
              match get_prop k mode_override with Some x => Some x | None => get_prop k mode_signal_defaults end.
Proof.
  assert (H1 : NoDup (map fst mode_signal_defaults))
    by (constructor; [cbn; intros [H | []]; discriminate | repeat constructor; tauto]).
  assert (H2 : NoDup (map fst mode_override)) by (repeat constructor; tauto).
  split; [exact H1 |]. split; [exact H2 |].
  exact (proj2 (proj2 (proj2 (mergeOptions_lookup mode_signal_defaults mode_override))) H1 H2).
Defined.

(** ** Directory references: more of the constructor *)

Lemma split_slash_not_nil (s : jsstr) : split_slash s <> [].
Proof.
  destruct s as [| x s]; cbn; [discriminate |].
  destruct (N.eqb x SLASH); [discriminate |]. destruct (split_slash s); discriminate.
Qed.

Lemma path_state_not_nil (sch : scheme) (segs path : list jsstr) :
  segs <> [] -> path_state sch path segs <> [].
Proof.
  revert path. induction segs as [| buffer rest IH]; intros path Hne; [congruence |].
  cbn [path_state]. destruct rest as [| r rest'].
  - cbn [path_state].
    destruct (is_double_dot_segment buffer), (is_single_dot_segment buffer);
      intros E; apply (f_equal (@List.length jsstr)) in E; rewrite length_app in E; cbn in E; lia.
  - apply IH. discriminate.
Qed.

Lemma set_pathname_absolute (u : URL) (p : jsstr) :
  exists rest, pathname (set_pathname u p) = SLASH :: rest.
Proof.
  unfold set_pathname, pathname. cbn [url_path].
  match goal with |- context [path_state ?sch [] ?segs] =>
    destruct (path_state sch [] segs) as [| s0 r] eqn:E end.
  - exfalso. revert E. apply path_state_not_nil, split_slash_not_nil.
  - cbn. eexists. reflexivity.
Qed.

Lemma filter_all_empty (Ls : list jsstr) :
  Forall (fun seg => seg = []) Ls -> filter nonempty_segment Ls = [].
Proof. induction 1 as [| x l Hx _ IH]; subst; cbn; [reflexivity | exact IH]. Qed.

(** A location whose segments are all empty ("http://foo.bar/",
    "file:////") is the root: both URLs of the reference have the path "/". *)
Lemma newDirectoryReference_root (sch : scheme) (host : jsstr) (Ls : list jsstr) :
  Forall (fun seg => seg = []) Ls ->
  newDirectoryReference (mkURL sch host Ls) = mkDirRef (mkURL sch host [[]]) (mkURL sch host [[]]).
Proof.
  intros Hall. destruct Ls as [| l0 Ls'] eqn:EL; [destruct sch; reflexivity |].
  rewrite <- EL in *.
  assert (HLne : Ls <> []) by (rewrite EL; discriminate).
  assert (Hns : Forall (fun seg => has_slash seg = false) Ls)
    by (eapply Forall_impl; [| exact Hall]; intros a ->; reflexivity).
  assert (Hpp : Forall (fun seg => posix_plain seg = true) Ls)
    by (eapply Forall_impl; [| exact Hall]; intros a ->; reflexivity).
  assert (Hn : normalize (pathname (mkURL sch host Ls)) = [SLASH]).
  { rewrite pathname_mkURL by exact HLne.
    unfold normalize. cbn zeta. rewrite N.eqb_refl. unfold normalizeString.
    replace (split_slash (SLASH :: join_slash Ls)) with ([] :: Ls)
      by (cbn [split_slash]; rewrite N.eqb_refl, split_join by assumption; reflexivity).
    cbn [fold_left]. rewrite normalize_fold by assumption.
    rewrite filter_all_empty by exact Hall. reflexivity. }
  unfold newDirectoryReference. rewrite Hn. destruct sch; reflexivity.
Qed.

Lemma resolve_reference_some (name : jsstr) (base : URL) :
  in_url_fragment name = true -> exists r, resolve_reference name base = Some r.
Proof. intros H. unfold resolve_reference. rewrite H. eexists. reflexivity. Qed.

(** X6: a directory reference over the root location ("http://foo.bar/",
    "file:///", or any location whose segments are all empty) accepts every
    name the URL parser reads as a plain path reference (no scheme, no
    authority "//", no code unit the parser strips or percent-encodes, no
    "?", "#" or backslash): the result is a URL, never a directory escape. *)
Theorem getContentsUrl_root_never_escapes (sch : scheme) (host : jsstr) (Ls : list jsstr) (name : jsstr) :
  Forall (fun seg => seg = []) Ls -> in_url_fragment name = true ->
  exists u, getContentsUrl (newDirectoryReference (mkURL sch host Ls)) name = Some (Ok u).
Proof.
  intros HLs Hname.
  rewrite newDirectoryReference_root by exact HLs.
  unfold getContentsUrl. cbn [urlWithTrailingSlash].
  destruct (resolve_reference_some name (mkURL sch host [[]]) Hname) as [resolved ->].
  destruct (set_pathname_absolute resolved (normalize (pathname resolved))) as [rest Hr].
  rewrite Hr. cbn. eexists. reflexivity.
Qed.

Lemma getContentsUrl_root_never_escapes_witness :
  Forall (fun seg : jsstr => seg = []) [[]; []] /\ in_url_fragment (js "a/../../b") = true /\
  exists u, getContentsUrl (newDirectoryReference (mkURL (OtherSpecial (js "http")) (js "foo.bar") [[]; []]))
                           (js "a/../../b") = Some (Ok u).
Proof.
  split; [repeat constructor |]. split; [vm_compute; reflexivity |].
  apply (getContentsUrl_root_never_escapes (OtherSpecial (js "http")) (js "foo.bar") [[]; []] (js "a/../../b")).
  - repeat constructor.
  - vm_compute. reflexivity.
Defined.

Lemma filter_nonempty_ordinary (Ls : list jsstr) :
  Forall (fun seg => seg = [] \/ ordinary_segment seg = true) Ls ->
  Forall (fun seg => ordinary_segment seg = true) (filter nonempty_segment Ls).
Proof.
  induction 1 as [| x l [-> | Hx] _ IH]; cbn [filter]; [constructor | exact IH |].
  rewrite (ordinary_nonempty x Hx). now constructor.
Qed.

Lemma join_slash_not_nil (segs : list jsstr) :
  Forall (fun seg => ordinary_segment seg = true) segs -> segs <> [] -> join_slash segs <> [].
Proof.
  intros Hall Hne. destruct segs as [| x r]; [congruence |].
  inversion Hall as [| ? ? Hx _]; subst. apply ordinary_not_nil in Hx.
  destruct r as [| y r']; cbn [join_slash]; [exact Hx |].
  destruct x; [congruence | discriminate].
Qed.

(** [normalize] of an absolute path without dot segments: the empty
    segments go, a trailing "/" stays. *)
Lemma normalize_absolute_trailing (segs : list jsstr) :
  Forall (fun seg => has_slash seg = false) segs ->
  Forall (fun seg => posix_plain seg = true) segs ->
  join_slash (filter nonempty_segment segs) <> [] ->
  normalize (SLASH :: join_slash segs)
  = SLASH :: join_slash (filter nonempty_segment segs) ++
    (if ends_with_unit (SLASH :: join_slash segs) SLASH then [SLASH] else []).
Proof.
  intros Hns Hpp Hj.
  assert (Hne : segs <> []) by (intros ->; cbn in Hj; congruence).
  unfold normalize. cbn zeta. rewrite N.eqb_refl.
  unfold normalizeString.
  replace (split_slash (SLASH :: join_slash segs)) with ([] :: segs)
    by (cbn [split_slash]; rewrite N.eqb_refl, split_join by assumption; reflexivity).
  cbn [fold_left]. rewrite normalize_fold by assumption.
  rewrite app_nil_r, rev_involutive.
  change (negb true) with false. rewrite !andb_false_r.
  destruct (str_eqb_reflect (join_slash (filter nonempty_segment segs)) []) as [E | _]; [congruence |].
  destruct (ends_with_unit (SLASH :: join_slash segs) SLASH); cbn [andb negb].
  - reflexivity.
  - now rewrite app_nil_r.
Qed.

(** The constructor over a location whose segments are empty or
    ordinary, at least one of them ordinary. *)
Lemma newDirectoryReference_filter (sch : scheme) (host : jsstr) (Ls : list jsstr) :
  Forall (fun seg => seg = [] \/ ordinary_segment seg = true) Ls ->
  filter nonempty_segment Ls <> [] ->
  newDirectoryReference (mkURL sch host Ls)
  = mkDirRef (mkURL sch host (filter nonempty_segment Ls))
             (mkURL sch host (filter nonempty_segment Ls ++ [[]])).
Proof.
  intros Hall HF.
  set (F := filter nonempty_segment Ls) in *.
  assert (HFord : Forall (fun seg => ordinary_segment seg = true) F) by now apply filter_nonempty_ordinary.
  assert (HLne : Ls <> []) by (intros ->; now apply HF).
  assert (Hns : Forall (fun seg => has_slash seg = false) Ls).
  { eapply Forall_impl; [| exact Hall]. intros s [-> | Hs]; [reflexivity | now apply ordinary_no_slash]. }
  assert (Hpp : Forall (fun seg => posix_plain seg = true) Ls).
  { eapply Forall_impl; [| exact Hall]. intros s [-> | Hs]; [reflexivity | now apply ordinary_posix]. }
  assert (HFj : join_slash F <> []) by now apply join_slash_not_nil.
  pose proof HFord as HFord'. ordinary_facts HFord'.
  assert (HF1 : Forall (fun seg => has_slash seg = false) (F ++ [[]]))
    by (apply Forall_app; split; [assumption | now repeat constructor]).
  assert (HF2 : Forall (fun seg => plain_segment seg = true) (F ++ [[]]))
    by (apply Forall_app; split; [assumption | now repeat constructor]).
  assert (HF3 : F ++ [[]] <> []) by (destruct F; discriminate).
  assert (Hjoin : SLASH :: join_slash F ++ [SLASH] = SLASH :: join_slash (F ++ [[]]))
    by (rewrite join_app by (assumption || discriminate); reflexivity).
  unfold newDirectoryReference.
  rewrite pathname_mkURL by exact HLne.
  rewrite normalize_absolute_trailing by assumption. fold F.
  destruct (ends_with_unit (SLASH :: join_slash Ls) SLASH).
  - rewrite Hjoin, set_pathname_plain by assumption. cbn [url_scheme url_host].
    rewrite pathname_mkURL by exact HF3. rewrite <- Hjoin.
    rewrite (ends_with_unit_app (SLASH :: join_slash F) [SLASH]) by discriminate.
    cbn [ends_with_unit rev app N.eqb]. rewrite N.eqb_refl.
    replace (removelast (SLASH :: join_slash F ++ [SLASH])) with (SLASH :: join_slash F)
      by (symmetry; exact (removelast_last (SLASH :: join_slash F) SLASH)).
    rewrite set_pathname_plain by assumption. reflexivity.
  - rewrite app_nil_r, set_pathname_plain by assumption. cbn [url_scheme url_host].
    rewrite pathname_mkURL by assumption.
    rewrite ends_with_ordinary by assumption.
    change ((SLASH :: join_slash F) ++ [SLASH]) with (SLASH :: join_slash F ++ [SLASH]).
    rewrite Hjoin, set_pathname_plain by assumption. reflexivity.
Qed.

(** X7: the constructor of [DirectoryReference] drops the empty segments of
    the location ("file:///foo//bar//baz//" gives "file:///foo/bar/baz"):
    over a location whose segments are empty or ordinary, at least one of
    them ordinary, the canonical URL holds the ordinary segments in order,
    with no trailing slash, and the URL with the trailing slash adds one
    empty segment. *)
Theorem newDirectoryReference_drops_empty_segments (sch : scheme) (host : jsstr) (Ls : list jsstr) :
  Forall (fun seg => seg = [] \/ ordinary_segment seg = true) Ls ->
  filter nonempty_segment Ls <> [] ->
  newDirectoryReference (mkURL sch host Ls)
  = mkDirRef (mkURL sch host (filter nonempty_segment Ls))
             (mkURL sch host (filter nonempty_segment Ls ++ [[]])).
Proof. exact (newDirectoryReference_filter sch host Ls). Qed.

Lemma newDirectoryReference_drops_empty_segments_witness :
  Forall (fun seg => seg = [] \/ ordinary_segment seg = true)
         [js "foo"; []; js "bar"; []; js "baz"; []; []] /\
  filter nonempty_segment [js "foo"; []; js "bar"; []; js "baz"; []; []] <> [] /\
  newDirectoryReference (mkURL File [] [js "foo"; []; js "bar"; []; js "baz"; []; []])
  = mkDirRef (mkURL File [] (filter nonempty_segment [js "foo"; []; js "bar"; []; js "baz"; []; []]))
             (mkURL File [] (filter nonempty_segment [js "foo"; []; js "bar"; []; js "baz"; []; []] ++ [[]])).
Proof.
  assert (H1 : Forall (fun seg => seg = [] \/ ordinary_segment seg = true)
                 [js "foo"; []; js "bar"; []; js "baz"; []; []])
    by (repeat constructor; (left; reflexivity) || (right; reflexivity)).
  assert (H2 : filter nonempty_segment [js "foo"; []; js "bar"; []; js "baz"; []; []] <> [])
    by discriminate.
  split; [exact H1 |]. split; [exact H2 |].
  exact (newDirectoryReference_drops_empty_segments File [] _ H1 H2).
Defined.

(** ** Cancellation *)

(** X8: options carrying an aborted signal cancel [storeValue] before
    any call when they are passed at the call site, whatever the handler;
    options given only as the handler's defaults are not checked before
    the destination directory is created, even when their signal is
    aborted: [throwIfAborted] reads the call-site options only. *)
Theorem storeValue_aborted_signal (fuel : nat) (self : DirectoryValueStorageHandler)
    (p : jsstr) (u : URL) (v : value) (id : nat) :
  (forall options, read_option options (js "signal") = OptSignal id true ->
     storeValue (S fuel) self p u v options = (Err Cancelled, [])) /\
  (read_option (dv_defaultOptions self) (js "signal") = OptSignal id true ->
   isObject v = true ->
   exists t, snd (storeValue (S fuel) self p u v None)
             = ECreateDirectory (canonicalUrl (newDirectoryReference u)) :: t).
Proof.
  split.
  - intros options Hsig. rewrite storeValue_S. unfold throwIfAborted. rewrite Hsig. reflexivity.
  - intros _ Hobj. rewrite storeValue_S. change (throwIfAborted None) with (@ret unit tt).
    rewrite bind_ret, Hobj. cbn [negb]. unfold createDirectory.
    rewrite bind_assoc, bind_emit. cbn [snd]. eexists. reflexivity.
Qed.

Definition aborted_defaults : Options := [(js "signal", OptSignal 1 true)].

Lemma storeValue_aborted_signal_witness :
  storeValue 5 (materializer [] None) [] tmp_xyz VNull (Some aborted_defaults) = (Err Cancelled, []) /\
  exists t, snd (storeValue 5 (materializer [] (Some aborted_defaults)) [] tmp_xyz
                   (VObject [(js "a", VObject [])]) None)
            = ECreateDirectory (canonicalUrl (newDirectoryReference tmp_xyz)) :: t.
Proof.
  assert (H1 : read_option (Some aborted_defaults) (js "signal") = OptSignal 1 true) by reflexivity.
  assert (H2 : read_option (dv_defaultOptions (materializer [] (Some aborted_defaults))) (js "signal")
               = OptSignal 1 true) by reflexivity.
  assert (H3 : isObject (VObject [(js "a", VObject [])]) = true) by reflexivity.
  split.
  - exact (proj1 (storeValue_aborted_signal 4 (materializer [] None) [] tmp_xyz VNull 1)
                 (Some aborted_defaults) H1).
  - exact (proj2 (storeValue_aborted_signal 4 (materializer [] (Some aborted_defaults)) [] tmp_xyz
                    (VObject [(js "a", VObject [])]) 1) H2 H3).
Defined.

(** ** The keys of arrays and strings *)

(** The value of a string of decimal digits. *)
Definition decimal_value (s : jsstr) : nat :=
  fold_left (fun acc c => (acc * 10 + (N.to_nat c - 48))%nat) s O.

Lemma decimal_value_snoc (s : jsstr) (c : N) :
  decimal_value (s ++ [c]) = (decimal_value s * 10 + (N.to_nat c - 48))%nat.
Proof. unfold decimal_value. now rewrite fold_left_app. Qed.

Lemma digit_value (n : nat) : (N.to_nat (48 + N.of_nat (Nat.modulo n 10)) - 48)%nat = Nat.modulo n 10.
Proof. rewrite N2Nat.inj_add, Nat2N.id. cbn. lia. Qed.

Lemma digits_rev_S (f n : nat) :
  digits_rev (S f) n
  = (48 + N.of_nat (Nat.modulo n 10)) :: (if Nat.ltb n 10 then [] else digits_rev f (Nat.div n 10)).
Proof. reflexivity. Qed.

Lemma digits_rev_value (f n : nat) :
  (n <= f)%nat -> decimal_value (rev (digits_rev (S f) n)) = n.
Proof.
  revert n. induction f as [| f IH]; intros n Hn.
  - assert (n = O) by lia. subst n. reflexivity.
  - rewrite digits_rev_S. cbn [rev]. rewrite decimal_value_snoc, digit_value.
    destruct (Nat.ltb_spec n 10) as [Hlt | Hge].
    + cbn [rev]. rewrite Nat.mod_small by exact Hlt. reflexivity.
    + assert (Hd : (n / 10 <= f)%nat).
      { apply Nat.lt_succ_r. apply Nat.le_lt_trans with (m := (n - 1)%nat); [| lia].
        apply Nat.lt_succ_r. replace (S (n - 1)) with n by lia. apply Nat.div_lt; lia. }
      destruct f as [| f']; [lia |].
      rewrite IH by exact Hd. pose proof (Nat.div_mod_eq n 10). lia.
Qed.

Lemma index_key_value (n : nat) : decimal_value (index_key n) = n.
Proof. apply digits_rev_value. lia. Qed.

Lemma index_key_injective (m n : nat) : index_key m = index_key n -> m = n.
Proof. intros E. rewrite <- (index_key_value m), <- (index_key_value n). now rewrite E. Qed.

Lemma indexed_keys {A : Type} (mk : A -> value) (i : nat) (xs : list A) :
  map fst (indexed mk i xs) = map index_key (seq i (List.length xs)).
Proof. revert i. induction xs as [| x xs IH]; intros i; cbn; [reflexivity | now rewrite IH]. Qed.

Lemma indexed_values {A : Type} (mk : A -> value) (i : nat) (xs : list A) :
  map snd (indexed mk i xs) = map mk xs.
Proof. revert i. induction xs as [| x xs IH]; intros i; cbn; [reflexivity | now rewrite IH]. Qed.

Lemma nodup_map_injective {A B : Type} (f : A -> B) (l : list A) :
  (forall x y, f x = f y -> x = y) -> NoDup l -> NoDup (map f l).
Proof.
  intros Hf. induction 1 as [| x l Hx _ IH]; cbn; constructor; [| exact IH].
  intros Hin. apply in_map_iff in Hin as (y & Ey & Hy). apply Hf in Ey. subst. contradiction.
Qed.

(** X9: [Object.entries] of an array (or a string) lists its items (its
    code units) in order, under the keys "0", "1", ...; the keys are
    pairwise distinct strings of decimal digits, each giving back its
    index, so the properties of an array land at distinct child locations. *)
Theorem object_entries_indexed :
  (forall items : list value, exists es,
     object_entries (VArray items) = Some es /\ map snd es = items /\
     NoDup (map fst es) /\
     forall i, (i < List.length items)%nat -> nth_error (map fst es) i = Some (index_key i)) /\
  (forall s : jsstr, exists es,
     object_entries (VString s) = Some es /\ map snd es = map (fun c => VString [c]) s /\
     NoDup (map fst es) /\
     forall i, (i < List.length s)%nat -> nth_error (map fst es) i = Some (index_key i)) /\
  (forall i, decimal_value (index_key i) = i /\
             Forall (fun c => 48 <= c <= 57) (index_key i)).
Proof.
  split; [| split].
  - intros items. eexists. split; [reflexivity |]. split; [rewrite indexed_values; apply map_id |].
    rewrite indexed_keys. split.
    + apply nodup_map_injective; [exact index_key_injective | apply seq_NoDup].
    + intros i Hi. rewrite nth_error_map, nth_error_seq.
      destruct (Nat.ltb_spec i (List.length items)); [reflexivity | lia].
  - intros s. eexists. split; [reflexivity |]. split; [apply indexed_values |].
    rewrite indexed_keys. split.
    + apply nodup_map_injective; [exact index_key_injective | apply seq_NoDup].
    + intros i Hi. rewrite nth_error_map, nth_error_seq.
      destruct (Nat.ltb_spec i (List.length s)); [reflexivity | lia].
  - intros i. split; [apply index_key_value |].
    unfold index_key. apply Forall_rev.
    generalize (S i) as f. generalize i. clear i.
    intros n f. revert n. induction f as [| f IH]; intros n; cbn [digits_rev]; [constructor |].
    constructor.
    + pose proof (Nat.mod_upper_bound n 10 ltac:(lia)). lia.
    + destruct (Nat.ltb n 10); [constructor | apply IH].
Qed.

Lemma object_entries_indexed_witness :
  (1 < List.length [VNull; VBool true])%nat /\
  nth_error (map fst (indexed (fun x => x) 0 [VNull; VBool true])) 1 = Some (index_key 1).
Proof.
  assert (H : (1 < List.length [VNull; VBool true])%nat) by (cbn; lia).
  split; [exact H |].
  destruct (proj1 object_entries_indexed [VNull; VBool true]) as (es & Ees & _ & _ & F).
  cbn [object_entries] in Ees. injection Ees as <-. exact (F 1%nat H).
Defined.

(** ** Where the handler calls of a run point *)

(** [reaches v ks w]: following the keys [ks] through [Object.entries]
    leads from [v] to [w]. *)
Inductive reaches : value -> list jsstr -> value -> Prop :=
| reaches_here (v : value) : reaches v [] v
| reaches_step (v : value) (es : list (jsstr * value)) (k : jsstr) (w : value)
    (ks : list jsstr) (v' : value) :
    object_entries v = Some es -> In (k, w) es -> reaches w ks v' -> reaches v (k :: ks) v'.

(** The path and the value a handler call is made for. *)
Definition handler_call (ev : event) : option (jsstr * value) :=
  match ev with
  | ECreateDirectory _ => None
  | ECanStore _ p _ v => Some (p, v)
  | EStore _ p _ v _ => Some (p, v)
  end.

Lemma scan_handlers_calls (hs : list Handler) (p : jsstr) (u : URL) (v : value) (o : option Options)
    (ev : event) :
  In ev (snd (scan_handlers hs p u v o)) -> handler_call ev = Some (p, v).
Proof.
  induction hs as [| h hs IH]; cbn [scan_handlers]; [intros [] |].
  rewrite bind_emit. cbn [snd]. intros [<- | Hin]; [reflexivity |].
  destruct (h_canStoreValue h p u v).
  - rewrite bind_emit in Hin. cbn [snd] in Hin. destruct Hin as [<- | Hin]; [reflexivity |].
    destruct (h_storeValue_ok h p u v o); destruct Hin.
  - now apply IH.
Qed.

Lemma lift_option_ok {A : Type} (e : error) (o : option A) (a : A) :
  fst (lift_option e o) = Ok a -> o = Some a.
Proof. destruct o; cbn; intros H; inversion H; reflexivity. Qed.

(** X10: every handler call of a run of [storeValue] from [pathInSource],
    at any depth, is made for a value of the stored tree and names it by
    its chain of keys: the value is reached from the stored value through
    [Object.entries] along a non-empty chain of keys [ks], and the path
    passed to the handler is [pathInSource] followed by "/" and the
    encoded key, for each key of [ks]. *)
Theorem storeValue_handler_calls (fuel : nat) (self : DirectoryValueStorageHandler) :
  forall (p : jsstr) (u : URL) (v : value) (o : option Options) (ev : event) (p' : jsstr) (v' : value),
  In ev (snd (storeValue fuel self p u v o)) ->
  handler_call ev = Some (p', v') ->
  exists ks, ks <> [] /\ p' = nested_path_in_source p ks /\ reaches v ks v'.
Proof.
  induction fuel as [| fuel IH]; intros p u v o ev p' v' Hin Hcall; [destruct Hin |].
  rewrite storeValue_S in Hin.
  apply in_bind in Hin as [Hin | (_ & _ & Hin)]; [rewrite throwIfAborted_silent in Hin; destruct Hin |].
  destruct (negb (isObject v)); [destruct Hin |].
  apply in_bind in Hin as [Hin | (_ & _ & Hin)].
  { apply createDirectory_events in Hin. subst ev. discriminate. }
  apply in_bind in Hin as [Hin | (es & Hes & Hin)]; [rewrite lift_option_silent in Hin; destruct Hin |].
  apply lift_option_ok in Hes.
  apply in_for_each in Hin as ([k w] & Hkw & Hin).
  unfold store_entry in Hin.
  apply in_bind in Hin as [Hin | (url & _ & Hin)]; [rewrite nested_destination_silent in Hin; destruct Hin |].
  apply in_bind in Hin as [Hin | (stored & _ & Hin)].
  - apply scan_handlers_calls in Hin. rewrite Hin in Hcall. injection Hcall as <- <-.
    exists [k]. split; [discriminate |]. split; [reflexivity |].
    apply (reaches_step v es k w [] w Hes Hkw), reaches_here.
  - destruct stored; [destruct Hin |].
    destruct (canStoreValue _ _ w).
    + destruct (IH _ _ _ _ _ _ _ Hin Hcall) as (ks & _ & Hp & Hr).
      exists (k :: ks). split; [discriminate |]. split; [exact Hp |].
      exact (reaches_step v es k w ks v' Hes Hkw Hr).
    + destruct (is_strict _); destruct Hin.
Qed.

Lemma storeValue_handler_calls_witness :
  In (EStore (js "h1") (js "/a") (file_url "/tmp/xyz/a") (VString (js "b")) None)
     (snd (storeValue 10 (materializer [mock_handler "h1" true] None) [] tmp_xyz
             (VObject [(js "a", VString (js "b"))]) None)) /\
  exists ks, ks <> [] /\ js "/a" = nested_path_in_source [] ks /\
             reaches (VObject [(js "a", VString (js "b"))]) ks (VString (js "b")).
Proof.
  assert (H : In (EStore (js "h1") (js "/a") (file_url "/tmp/xyz/a") (VString (js "b")) None)
                 (snd (storeValue 10 (materializer [mock_handler "h1" true] None) [] tmp_xyz
                         (VObject [(js "a", VString (js "b"))]) None)))
    by (vm_compute; right; right; left; reflexivity).
  split; [exact H |].
  exact (storeValue_handler_calls 10 _ [] tmp_xyz _ None _ (js "/a") (VString (js "b")) H eq_refl).
Defined.

(** ** File value storage handlers ([factories.ts]) *)

(** A [FileWriter]: whether [writeTextToFile] resolves. *)
Record FileWriter := mkFileWriter {
  fw_name : jsstr;
  writeTextToFile_ok : URL -> value -> option Options -> bool
}.

(** The calls a file handler makes on its writer. *)
Inductive write_call :=
| WriteTextToFile (path : URL) (contents : value) (options : option Options).

(** How a call of a non-async [storeValue] ends: it throws before
    returning, or it returns a promise, here its settled outcome. *)
Inductive call_outcome (A : Type) :=
| Throws (e : error)
| Returns (r : result A error).
Arguments Throws {A} e.
Arguments Returns {A} r.

Definition WM (A : Type) : Type := (call_outcome A * list write_call)%type.

(** A leaf handler: [canStoreValue] and [storeValue] with the calls it makes. *)
Record FileHandler := mkFileHandler {
  fh_name : jsstr;
  fh_canStoreValue : jsstr -> URL -> value -> bool;
  fh_storeValue : jsstr -> URL -> value -> option Options -> WM unit
}.

(** [return fileWriter.writeTextToFile(url, contents, options)]: the
    handler returns the writer's promise; its rejection rejects it. *)
Definition writeTextToFile (fileWriter : FileWriter) (handlerName pathInSource : jsstr)
    (url : URL) (contents : value) (options : option Options) : WM unit :=
  (Returns (if writeTextToFile_ok fileWriter url contents options then Ok tt
           else Err (HandlerRejected handlerName pathInSource)),
   [WriteTextToFile url contents options]).

(** [newTextFileValueStorageHandler(fileWriter, extension)] *)
Definition newTextFileValueStorageHandler (fileWriter : FileWriter) (extension : jsstr) : FileHandler :=
  let name := js "Text file value storage handler" in
  mkFileHandler name
    (fun _pathInSource _destinationUrl v => str_eqb (js_typeof v) (js "string"))
    (fun pathInSource destinationUrl v options =>
       (* [options?.signal?.throwIfAborted()] in a non-async arrow: a throw *)
       match fst (throwIfAborted options) with
       | Err e => (Throws e, [])
       | Ok _ =>
           let urlWithExtension := set_pathname destinationUrl (pathname destinationUrl ++ extension) in
           writeTextToFile fileWriter name pathInSource urlWithExtension v options
       end).

(** [newStringSerializerValueStorageHandler(fileWriter, serializer, extension, name)] *)
Definition newStringSerializerValueStorageHandler (fileWriter : FileWriter)
    (serializer : value -> jsstr) (extension name : jsstr) : FileHandler :=
  mkFileHandler name
    (fun _pathInSource _destinationUrl _v => true)
    (fun pathInSource destinationUrl v options =>
       (* [options?.signal?.throwIfAborted()] in a non-async arrow: a throw *)
       match fst (throwIfAborted options) with
       | Err e => (Throws e, [])
       | Ok _ =>
           let text := serializer v in
           let urlWithExtension := set_pathname destinationUrl (pathname destinationUrl ++ extension) in
           writeTextToFile fileWriter name pathInSource urlWithExtension (VString text) options
       end).

Lemma pathname_snoc_extension (sch : scheme) (host : jsstr) (pre : list jsstr) (s ext : jsstr) :
  pathname (mkURL sch host (pre ++ [s])) ++ ext = SLASH :: join_slash (pre ++ [s ++ ext]).
Proof.
  rewrite <- pathname_join by (destruct pre; discriminate).
  unfold pathname. cbn [url_path]. rewrite !flat_map_app. cbn [flat_map].
  rewrite <- !app_assoc. now rewrite !app_nil_r.
Qed.

Lemma set_pathname_extension (sch : scheme) (host : jsstr) (pre : list jsstr) (s ext : jsstr) :
  Forall (fun seg => ordinary_segment seg = true) (pre ++ [s ++ ext]) ->
  set_pathname (mkURL sch host (pre ++ [s])) (pathname (mkURL sch host (pre ++ [s])) ++ ext)
  = mkURL sch host (pre ++ [s ++ ext]).
Proof.
  intros Hall. rewrite pathname_snoc_extension. pose proof Hall as Hall'. ordinary_facts Hall'.
  rewrite set_pathname_plain by (try (destruct pre; discriminate); assumption). reflexivity.
Qed.

(** X11: the text file handler accepts exactly the string values. Its
    [storeValue] is not async: when the call's signal is aborted it
    throws [AbortSignal]'s reason synchronously and writes nothing;
    otherwise it returns the writer's promise for writing the value it is
    given, unchecked and unconverted, with the call's options, to the
    destination whose last segment gets the extension appended
    ("/tmp/xyz/a" and ".txt" give "/tmp/xyz/a.txt"). *)
Theorem textFile_storeValue_writes (fileWriter : FileWriter) (extension : jsstr)
    (sch : scheme) (host : jsstr) (pre : list jsstr) (s : jsstr) (p : jsstr) (v : value)
    (options : option Options) (id : nat) :
  Forall (fun seg => ordinary_segment seg = true) (pre ++ [s ++ extension]) ->
  (forall u, fh_canStoreValue (newTextFileValueStorageHandler fileWriter extension) p u v
             = match v with VString _ => true | _ => false end) /\
  (read_option options (js "signal") = OptSignal id true ->
   fh_storeValue (newTextFileValueStorageHandler fileWriter extension) p (mkURL sch host (pre ++ [s])) v options
   = (Throws Cancelled, [])) /\
  ((read_option options (js "signal") = OptUndefined \/
    read_option options (js "signal") = OptSignal id false) ->
   fh_storeValue (newTextFileValueStorageHandler fileWriter extension) p (mkURL sch host (pre ++ [s])) v options
   = (Returns (if writeTextToFile_ok fileWriter (mkURL sch host (pre ++ [s ++ extension])) v options
               then Ok tt else Err (HandlerRejected (js "Text file value storage handler") p)),
      [WriteTextToFile (mkURL sch host (pre ++ [s ++ extension])) v options])).
Proof.
  intros Hall. split; [| split].
  - intros u. now destruct v.
  - intros Hsig. cbn [fh_storeValue newTextFileValueStorageHandler].
    unfold throwIfAborted. rewrite Hsig. reflexivity.
  - intros Hsig. cbn [fh_storeValue newTextFileValueStorageHandler].
    unfold throwIfAborted. destruct Hsig as [-> | ->]; cbn [fst ret];
      rewrite set_pathname_extension by exact Hall; reflexivity.
Qed.

Definition writer_ok : FileWriter := mkFileWriter (js "x") (fun _ _ _ => true).

Lemma textFile_storeValue_writes_witness :
  Forall (fun seg => ordinary_segment seg = true) ([js "tmp"; js "xyz"] ++ [js "a" ++ js ".txt"]) /\
  fh_storeValue (newTextFileValueStorageHandler writer_ok (js ".txt")) (js "/a")
    (mkURL File [] ([js "tmp"; js "xyz"] ++ [js "a"])) (VNumber 42) None
  = (Returns (Ok tt),
     [WriteTextToFile (mkURL File [] ([js "tmp"; js "xyz"] ++ [js "a" ++ js ".txt"])) (VNumber 42) None]).
Proof.
  assert (H : Forall (fun seg => ordinary_segment seg = true) ([js "tmp"; js "xyz"] ++ [js "a" ++ js ".txt"]))
    by (repeat constructor).
  split; [exact H |].
  exact (proj2 (proj2 (textFile_storeValue_writes writer_ok (js ".txt") File [] [js "tmp"; js "xyz"]
                         (js "a") (js "/a") (VNumber 42) None O H)) (or_introl eq_refl)).
Defined.

(** X12: the string serializer handler (behind the JSON file handler)
    accepts every value, so placed before the directory handler it takes
    objects as well. Its [storeValue] is not async: when the call's
    signal is aborted it throws synchronously, before calling the
    serializer, and writes nothing; otherwise it returns the writer's
    promise for writing the serializer's text with the call's options to
    the destination with the extension appended. *)
Theorem stringSerializer_storeValue_writes (fileWriter : FileWriter) (serializer : value -> jsstr)
    (extension name : jsstr) (sch : scheme) (host : jsstr) (pre : list jsstr) (s : jsstr) (p : jsstr)
    (v : value) (options : option Options) (id : nat) :
  Forall (fun seg => ordinary_segment seg = true) (pre ++ [s ++ extension]) ->
  (forall u w, fh_canStoreValue (newStringSerializerValueStorageHandler fileWriter serializer extension name) p u w
               = true) /\
  (read_option options (js "signal") = OptSignal id true ->
   fh_storeValue (newStringSerializerValueStorageHandler fileWriter serializer extension name)
     p (mkURL sch host (pre ++ [s])) v options = (Throws Cancelled, [])) /\
  ((read_option options (js "signal") = OptUndefined \/
    read_option options (js "signal") = OptSignal id false) ->
   fh_storeValue (newStringSerializerValueStorageHandler fileWriter serializer extension name)
     p (mkURL sch host (pre ++ [s])) v options
   = (Returns (if writeTextToFile_ok fileWriter (mkURL sch host (pre ++ [s ++ extension]))
                    (VString (serializer v)) options
               then Ok tt else Err (HandlerRejected name p)),
      [WriteTextToFile (mkURL sch host (pre ++ [s ++ extension])) (VString (serializer v)) options])).
Proof.
  intros Hall. split; [| split].
  - reflexivity.
  - intros Hsig. cbn [fh_storeValue newStringSerializerValueStorageHandler].
    unfold throwIfAborted. rewrite Hsig. reflexivity.
  - intros Hsig. cbn [fh_storeValue newStringSerializerValueStorageHandler].
    unfold throwIfAborted. destruct Hsig as [-> | ->]; cbn [fst ret];
      rewrite set_pathname_extension by exact Hall; reflexivity.
Qed.

Lemma stringSerializer_storeValue_writes_witness :
  Forall (fun seg => ordinary_segment seg = true) ([js "tmp"; js "xyz"] ++ [js "a" ++ js ".json"]) /\
  fh_storeValue (newStringSerializerValueStorageHandler writer_ok (fun _ => js "{}") (js ".json") (js "json"))
    (js "/a") (mkURL File [] ([js "tmp"; js "xyz"] ++ [js "a"])) (VObject []) None
  = (Returns (Ok tt),
     [WriteTextToFile (mkURL File [] ([js "tmp"; js "xyz"] ++ [js "a" ++ js ".json"])) (VString (js "{}")) None]).
Proof.
  assert (H : Forall (fun seg => ordinary_segment seg = true) ([js "tmp"; js "xyz"] ++ [js "a" ++ js ".json"]))
    by (repeat constructor).
  split; [exact H |].
  exact (proj2 (proj2 (stringSerializer_storeValue_writes writer_ok (fun _ => js "{}") (js ".json") (js "json")
                         File [] [js "tmp"; js "xyz"] (js "a") (js "/a") (VObject []) None O H))
               (or_introl eq_refl)).
Defined.

(** ** [newDirectoryArrayOfObjectsStorageHandler] ([factories.ts]) *)

(** An own property of an object, first occurrence. *)
Fixpoint lookup_entry (k : jsstr) (es : list (jsstr * value)) : option value :=
  match es with
  | [] => None
  | (k', w) :: es' => if str_eqb k k' then Some w else lookup_entry k es'
  end.

(** [item[key]] when it is a string: [Some (Some s)]; when it is
    anything else: [Some None]; [None] is the TypeError of reading a
    property of [undefined] or [null]. Booleans and numbers have no
    string-valued properties (their prototypes hold functions), a string
    has its code units at its indices, an array its items, and an object
    its own properties (the properties of [Object.prototype] are
    functions or objects). *)
Definition string_property (item : value) (key : jsstr) : option (option jsstr) :=
  let as_string w := match w with Some (VString s) => Some s | _ => None end in
  match item with
  | VUndefined | VNull => None
  | VBool _ | VNumber _ => Some None
  | VString s => Some (as_string (lookup_entry key (indexed (fun c => VString [c]) 0 s)))
  | VArray items => Some (as_string (lookup_entry key (indexed (fun x => x) 0 items)))
  | VObject es => Some (as_string (lookup_entry key es))
  end.

(** [value.every((item) => isObject(item) && typeof item[keyProperty] === "string")];
    [None] is the TypeError thrown by the callback. *)
Fixpoint every_item (keyProperty : jsstr) (items : list value) : option bool :=
  match items with
  | [] => Some true
  | item :: rest =>
      if isObject item then
        match string_property item keyProperty with
        | None => None
        | Some (Some _) => every_item keyProperty rest
        | Some None => Some false
        end
      else Some false
  end.

(** [item[keyProperty]] once [every] has passed: a string. *)
Definition item_key (keyProperty : jsstr) (item : value) : jsstr :=
  match string_property item keyProperty with Some (Some s) => s | _ => [] end.

(** [CreateDataProperty(obj, k, v)]: an existing property keeps its place. *)
Fixpoint create_data_property (o : list (jsstr * value)) (k : jsstr) (v : value) : list (jsstr * value) :=
  match o with
  | [] => [(k, v)]
  | (k', w) :: o' => if str_eqb k k' then (k', v) :: o' else (k', w) :: create_data_property o' k v
  end.

Definition is_digit (c : N) : bool := (48 <=? c) && (c <=? 57).

Fixpoint decimal_N (acc : N) (s : jsstr) : N :=
  match s with
  | [] => acc
  | c :: s' => decimal_N (acc * 10 + (c - 48)) s'
  end.

(** An array index: the canonical decimal form of an integer below
    2^32 - 1. *)
Definition array_index_key (k : jsstr) : option N :=
  match k with
  | [] => None
  | c :: rest =>
      if forallb is_digit k && (negb (N.eqb c 48) || match rest with [] => true | _ => false end)
      then let n := decimal_N 0 k in if n <? 4294967295 then Some n else None
      else None
  end.

Fixpoint insert_by_index (n : N) (e : jsstr * value) (l : list (N * (jsstr * value)))
    : list (N * (jsstr * value)) :=
  match l with
  | [] => [(n, e)]
  | (m, e') :: l' => if n <? m then (n, e) :: l else (m, e') :: insert_by_index n e l'
  end.

(** The order of [Object.entries] on an ordinary object: the array
    indices ascending, then the other keys in creation order. *)
Definition own_property_order (created : list (jsstr * value)) : list (jsstr * value) :=
  let indices := fold_left (fun acc e => match array_index_key (fst e) with
                                         | Some n => insert_by_index n e acc
                                         | None => acc
                                         end) created [] in
  map snd indices ++
  filter (fun e => match array_index_key (fst e) with Some _ => false | None => true end) created.

(** [Object.fromEntries(pairs)] *)
Definition fromEntries (pairs : list (jsstr * value)) : list (jsstr * value) :=
  own_property_order (fold_left (fun o kv => create_data_property o (fst kv) (snd kv)) pairs []).

(** Why the array handler's [storeValue] fails. *)
Inductive array_error :=
| NotAnArray (pathInSource : jsstr)            (* the TypeError of a non-array value *)
| NotAnArrayOfObjects (pathInSource : jsstr)   (* the TypeError of the [every] check *)
| PropertyOfUndefined                          (* [item[keyProperty]] on an undefined item *)
| InnerError (e : error).                      (* the inner directory handler's rejection *)

Definition map_error (m : M unit) : (result unit array_error * list event) :=
  (match fst m with Ok a => Ok a | Err e => Err (InnerError e) end, snd m).

(** The inner [DirectoryValueStorageHandler] of the handler. *)
Definition arrayOfObjects_inner (handlers : list Handler) (directoryCreator : DirectoryCreator)
    (defaultOptions : option Options) : DirectoryValueStorageHandler :=
  mkDirectoryValueStorageHandler (js "Inner directory value storage handler") handlers
                                 directoryCreator defaultOptions.

(** Its [canStoreValue]: [Array.isArray(value)]. *)
Definition arrayOfObjects_canStoreValue (_pathInSource : jsstr) (_destinationUrl : URL) (v : value) : bool :=
  is_array v.

(** Its [storeValue]; [console.warn] is left out. *)
Definition arrayOfObjects_storeValue (keyProperty : jsstr) (handlers : list Handler)
    (directoryCreator : DirectoryCreator) (defaultOptions : option Options) (fuel : nat)
    (pathInSource : jsstr) (destinationUrl : URL) (v : value) (options : option Options)
    : (result unit array_error * list event) :=
  match v with
  | VArray items =>
      match every_item keyProperty items with
      | None => (Err PropertyOfUndefined, [])
      | Some false => (Err (NotAnArrayOfObjects pathInSource), [])
      | Some true =>
          let transformedValue :=
            fromEntries (map (fun item => (item_key keyProperty item, item)) items) in
          map_error (storeValue fuel (arrayOfObjects_inner handlers directoryCreator defaultOptions)
                                pathInSource destinationUrl (VObject transformedValue) options)
      end
  | _ => (Err (NotAnArray pathInSource), [])
  end.

Definition jsstr_dec : forall a b : jsstr, {a = b} + {a <> b} := list_eq_dec N.eq_dec.

(** The object [Object.fromEntries] builds, before its keys are ordered. *)
Definition created (pairs : list (jsstr * value)) : list (jsstr * value) :=
  fold_left (fun o kv => create_data_property o (fst kv) (snd kv)) pairs [].

Lemma lookup_entry_indexed {A : Type} (mk : A -> value) (xs : list A) :
  forall j i, lookup_entry (index_key (j + i)) (indexed mk j xs) = option_map mk (nth_error xs i).
Proof.
  induction xs as [| x xs IH]; intros j i; cbn [indexed lookup_entry].
  - now destruct i.
  - destruct i as [| i].
    + rewrite Nat.add_0_r, str_eqb_refl. reflexivity.
    + cbn [nth_error].
      destruct (str_eqb_reflect (index_key (j + S i)) (index_key j)) as [E | _].
      * apply index_key_injective in E. lia.
      * replace (j + S i)%nat with (S j + i)%nat by lia. apply IH.
Qed.

Lemma lookup_create (o : list (jsstr * value)) (k k' : jsstr) (v : value) :
  lookup_entry k (create_data_property o k' v) = if str_eqb k k' then Some v else lookup_entry k o.
Proof.
  induction o as [| [k'' w] o IH]; cbn.
  - reflexivity.
  - destruct (str_eqb_reflect k' k'') as [-> | Hne]; cbn.
    + destruct (str_eqb k k''); reflexivity.
    + rewrite IH. destruct (str_eqb_reflect k k') as [Hk | Hk]; destruct (str_eqb_reflect k k'') as [Hk' | Hk']; congruence.
Qed.

Lemma create_keys (o : list (jsstr * value)) (k : jsstr) (v : value) :
  map fst (create_data_property o k v) =
  if in_dec jsstr_dec k (map fst o) then map fst o else map fst o ++ [k].
Proof.
  induction o as [| [k' w] o IH]; cbn [create_data_property map fst].
  - destruct (in_dec jsstr_dec k []) as [[] | _]; reflexivity.
  - destruct (str_eqb_reflect k k') as [-> | Hne]; cbn [map fst].
    + destruct (in_dec jsstr_dec k' (k' :: map fst o)) as [_ | H]; [reflexivity |].
      exfalso. apply H. now left.
    + rewrite IH.
      destruct (in_dec jsstr_dec k (map fst o)) as [H1 | H1];
      destruct (in_dec jsstr_dec k (k' :: map fst o)) as [H2 | H2]; try reflexivity.
      * exfalso. apply H2. now right.
      * exfalso. destruct H2 as [H2 | H2]; [congruence | contradiction].
Qed.

Lemma created_snoc (pairs : list (jsstr * value)) (kv : jsstr * value) :
  created (pairs ++ [kv]) = create_data_property (created pairs) (fst kv) (snd kv).
Proof. unfold created. now rewrite fold_left_app. Qed.

Lemma created_keys (pairs : list (jsstr * value)) :
  map fst (created pairs) = rev (nodup jsstr_dec (rev (map fst pairs))).
Proof.
  induction pairs as [| [k v] pairs IH] using rev_ind.
  - reflexivity.
  - rewrite created_snoc, create_keys, IH, map_app, rev_app_distr. cbn [fst map rev app nodup].
    destruct (in_dec jsstr_dec k (rev (nodup jsstr_dec (rev (map fst pairs))))) as [Hi | Hi];
    destruct (in_dec jsstr_dec k (rev (map fst pairs))) as [Hj | Hj]; cbn [rev]; try reflexivity.
    + exfalso. apply Hj. apply in_rev in Hi. now apply nodup_In in Hi.
    + exfalso. apply Hi. apply in_rev. rewrite rev_involutive. now apply nodup_In.
Qed.

Lemma created_nodup (pairs : list (jsstr * value)) : NoDup (map fst (created pairs)).
Proof. rewrite created_keys. apply NoDup_rev, NoDup_nodup. Qed.

Lemma created_key_in (pairs : list (jsstr * value)) (k : jsstr) :
  In k (map fst (created pairs)) <-> In k (map fst pairs).
Proof.
  rewrite created_keys, <- in_rev, nodup_In, <- in_rev. reflexivity.
Qed.

Lemma created_lookup (pairs : list (jsstr * value)) (k : jsstr) (w : value) :
  lookup_entry k (created pairs) = Some w <->
  exists pre post, pairs = pre ++ (k, w) :: post /\ ~ In k (map fst post).
Proof.
  induction pairs as [| [k' w'] pairs IH] using rev_ind.
  - cbn. split; [discriminate |]. intros (pre & post & E & _). now apply app_cons_not_nil in E.
  - rewrite created_snoc, lookup_create. cbn [fst snd].
    destruct (str_eqb_reflect k k') as [<- | Hne].
    + split.
      * intros E. injection E as ->. exists pairs, []. split; [reflexivity | intros []].
      * intros (pre & post & E & Hk).
        induction post as [| y post _] using rev_ind.
        -- apply app_inj_tail in E as [_ E]. now injection E as ->.
        -- exfalso. apply Hk. rewrite app_comm_cons, app_assoc in E.
           apply app_inj_tail in E as [_ <-]. rewrite map_app. apply in_or_app. right. now left.
    + rewrite IH. split.
      * intros (pre & post & -> & Hk). exists pre, (post ++ [(k', w')]).
        split; [now rewrite <- app_assoc |].
        rewrite map_app, in_app_iff. intros [H | [H | []]]; [contradiction | cbn in H; congruence].
      * intros (pre & post & E & Hk).
        induction post as [| y post _] using rev_ind.
        -- apply app_inj_tail in E as [_ E]. injection E as -> _. congruence.
        -- rewrite app_comm_cons, app_assoc in E. apply app_inj_tail in E as [-> _].
           exists pre, post. split; [reflexivity |].
           intros H. apply Hk. rewrite map_app. apply in_or_app. now left.
Qed.

Lemma own_property_order_plain (created : list (jsstr * value)) :
  Forall (fun e => array_index_key (fst e) = None) created ->
  own_property_order created = created.
Proof.
  intros Hall. unfold own_property_order.
  assert (Hfold : forall (l : list (jsstr * value)) acc,
            Forall (fun e => array_index_key (fst e) = None) l ->
            fold_left (fun acc e => match array_index_key (fst e) with
                                    | Some n => insert_by_index n e acc
                                    | None => acc
                                    end) l acc = acc).
  { induction l as [| e l IH]; intros acc Hl; [reflexivity |].
    inversion Hl as [| ? ? He Hl']; subst. cbn. rewrite He. now apply IH. }
  rewrite Hfold by exact Hall. cbn [map app].
  induction Hall as [| e l He _ IH]; [reflexivity |]. cbn. now rewrite He, IH.
Qed.

Lemma fromEntries_plain (pairs : list (jsstr * value)) :
  Forall (fun kv => array_index_key (fst kv) = None) pairs ->
  fromEntries pairs = created pairs.
Proof.
  intros Hall. unfold fromEntries. fold (created pairs). apply own_property_order_plain.
  apply Forall_forall. intros [k v] Hin. cbn.
  assert (Hk : In k (map fst pairs)).
  { apply created_key_in. now apply (in_map fst) in Hin. }
  apply in_map_iff in Hk as ([k' v'] & E & Hk). cbn in E. subst k'.
  rewrite Forall_forall in Hall. exact (Hall _ Hk).
Qed.

Lemma fromEntries_single (k : jsstr) (v : value) : fromEntries [(k, v)] = [(k, v)].
Proof. unfold fromEntries, own_property_order. cbn. now destruct (array_index_key k). Qed.

Lemma every_item_prefix (keyProperty : jsstr) (pre rest : list value) :
  Forall (fun item => isObject item = true /\ exists s, string_property item keyProperty = Some (Some s)) pre ->
  every_item keyProperty (pre ++ rest) = every_item keyProperty rest.
Proof.
  induction 1 as [| item pre [Hobj [s Hs]] _ IH]; [reflexivity |].
  cbn [app every_item]. now rewrite Hobj, Hs.
Qed.

(** X13: the array-of-objects handler rejects, before creating any
    directory or calling any handler: a value that is not an array
    (TypeError); an array whose first item that fails the check (an
    object whose [keyProperty] is a string) is [null], an array, a
    boolean, a number, or an object without such a string property
    (TypeError); and, when that first failing item is [undefined], the
    check itself throws on reading [item[keyProperty]]. Items after the
    first failing one are never looked at. *)
Theorem arrayOfObjects_storeValue_rejects (keyProperty : jsstr) (handlers : list Handler)
    (directoryCreator : DirectoryCreator) (defaultOptions : option Options) (fuel : nat)
    (pathInSource : jsstr) (destinationUrl : URL) (options : option Options) :
  let store v := arrayOfObjects_storeValue keyProperty handlers directoryCreator defaultOptions fuel
                   pathInSource destinationUrl v options in
  let passes item := isObject item = true /\
                     exists s, string_property item keyProperty = Some (Some s) in
  (forall v, is_array v = false -> store v = (Err (NotAnArray pathInSource), [])) /\
  (forall pre bad post, Forall passes pre ->
     (bad = VNull \/ is_array bad = true \/ (exists b, bad = VBool b) \/ (exists n, bad = VNumber n) \/
      (exists es, bad = VObject es /\ forall s, lookup_entry keyProperty es <> Some (VString s))) ->
     store (VArray (pre ++ bad :: post)) = (Err (NotAnArrayOfObjects pathInSource), [])) /\
  (forall pre post, Forall passes pre ->
     store (VArray (pre ++ VUndefined :: post)) = (Err PropertyOfUndefined, [])).
Proof.
  intros store passes. split; [| split].
  - intros v Hv. destruct v; cbn in Hv; try discriminate; reflexivity.
  - intros pre bad post Hpre Hbad. unfold store, arrayOfObjects_storeValue.
    rewrite (every_item_prefix keyProperty pre (bad :: post) Hpre).
    destruct Hbad as [-> | [Ha | [[b ->] | [[n ->] | [es [-> Hes]]]]]]; try reflexivity.
    + destruct bad; cbn in Ha; try discriminate. reflexivity.
    + cbn [every_item isObject string_property].
      destruct (lookup_entry keyProperty es) as [[] |] eqn:E; try reflexivity.
      exfalso. exact (Hes _ eq_refl).
  - intros pre post Hpre. unfold store, arrayOfObjects_storeValue.
    now rewrite (every_item_prefix keyProperty pre (VUndefined :: post) Hpre).
Qed.

(** X14: on an array of objects whose [keyProperty] holds a string that is
    not an array index, the handler stores, through its inner directory
    handler, one object whose keys are those strings: the keys are
    pairwise distinct, in the order of their first occurrence in the
    array, and under each key sits the last item carrying it (a later
    item with the same key replaces an earlier one). *)
Theorem arrayOfObjects_storeValue_keyed (keyProperty : jsstr) (handlers : list Handler)
    (directoryCreator : DirectoryCreator) (defaultOptions : option Options) (fuel : nat)
    (pathInSource : jsstr) (destinationUrl : URL) (options : option Options)
    (items : list (jsstr * value)) :
  Forall (fun ki => exists es, snd ki = VObject es /\
                              lookup_entry keyProperty es = Some (VString (fst ki)) /\
                              array_index_key (fst ki) = None) items ->
  exists transformed,
    arrayOfObjects_storeValue keyProperty handlers directoryCreator defaultOptions fuel
      pathInSource destinationUrl (VArray (map snd items)) options =
    map_error (storeValue fuel (arrayOfObjects_inner handlers directoryCreator defaultOptions)
                 pathInSource destinationUrl (VObject transformed) options) /\
    NoDup (map fst transformed) /\
    map fst transformed = rev (nodup jsstr_dec (rev (map fst items))) /\
    (forall k item, lookup_entry k transformed = Some item <->
       exists pre post, items = pre ++ (k, item) :: post /\ ~ In k (map fst post)).
Proof.
  intros Hall.
  assert (Hpairs : map (fun item => (item_key keyProperty item, item)) (map snd items) = items).
  { induction Hall as [| [k item] items (es & Hes & Hk & _) _ IH]; [reflexivity |].
    cbn [map fst snd] in *. rewrite IH. subst item.
    unfold item_key. cbn [string_property]. now rewrite Hk. }
  assert (Hevery : every_item keyProperty (map snd items) = Some true).
  { clear Hpairs. induction Hall as [| [k item] items (es & Hes & Hk & _) _ IH]; [reflexivity |].
    cbn [map fst snd every_item] in *. subst item.
    change (isObject (VObject es)) with true. cbn [string_property]. now rewrite Hk. }
  assert (Hplain : Forall (fun kv => array_index_key (fst kv) = None) items).
  { eapply Forall_impl; [| exact Hall]. intros ki (es & _ & _ & H). exact H. }
  exists (created items). split; [| split; [| split]].
  - unfold arrayOfObjects_storeValue. rewrite Hevery, Hpairs, fromEntries_plain by exact Hplain.
    reflexivity.
  - apply created_nodup.
  - apply created_keys.
  - intros k item. apply created_lookup.
Qed.

(** X15: a string item passes the array-of-objects check when
    [keyProperty] is one of its indices (the check's [isObject] lets
    strings through, and [item[keyProperty]] is then the string's code
    unit at that index); whenever every item passes the check, the
    handler stores, through its inner directory handler, the object
    [Object.fromEntries] builds from the pairs (item[keyProperty], item),
    so a string item sits under its code unit at that index. *)
Theorem arrayOfObjects_storeValue_string_item (handlers : list Handler)
    (directoryCreator : DirectoryCreator) (defaultOptions : option Options) (fuel : nat)
    (pathInSource : jsstr) (destinationUrl : URL) (options : option Options) :
  let passes (keyProperty : jsstr) (item : value) := isObject item = true /\
                                 exists k, string_property item keyProperty = Some (Some k) in
  (forall s i c, nth_error s i = Some c ->
     passes (index_key i) (VString s) /\ item_key (index_key i) (VString s) = [c]) /\
  (forall keyProperty items, Forall (passes keyProperty) items ->
     arrayOfObjects_storeValue keyProperty handlers directoryCreator defaultOptions fuel
       pathInSource destinationUrl (VArray items) options =
     map_error (storeValue fuel (arrayOfObjects_inner handlers directoryCreator defaultOptions)
                  pathInSource destinationUrl
                  (VObject (fromEntries (map (fun item => (item_key keyProperty item, item)) items)))
                  options)).
Proof.
  intros passes. split.
  - intros s i c Hc.
    assert (Hp : string_property (VString s) (index_key i) = Some (Some [c])).
    { cbn [string_property]. rewrite (lookup_entry_indexed _ s 0 i), Hc. reflexivity. }
    split; [split; [reflexivity | eexists; exact Hp] |].
    unfold item_key. now rewrite Hp.
  - intros keyProperty items Hall.
    assert (Hevery : every_item keyProperty items = Some true).
    { pose proof (every_item_prefix keyProperty items [] Hall) as H.
      rewrite app_nil_r in H. exact H. }
    unfold arrayOfObjects_storeValue. now rewrite Hevery.
Qed.

Definition name_item (name : string) (extra : list (jsstr * value)) : value :=
  VObject ((js "name", VString (js name)) :: extra).

Lemma arrayOfObjects_storeValue_rejects_witness :
  arrayOfObjects_storeValue (js "name") [] creator_ok None 3
    (js "/a") tmp_xyz (VArray [name_item "x" []; VObject [(js "name", VNumber 1)]; VUndefined]) None =
  (Err (NotAnArrayOfObjects (js "/a")), []).
Proof.
  apply (proj1 (proj2 (arrayOfObjects_storeValue_rejects (js "name") [] creator_ok
                           None 3 (js "/a") tmp_xyz None)) [name_item "x" []] (VObject [(js "name", VNumber 1)]) [VUndefined]).
  - constructor; [| constructor]. split; [reflexivity |]. eexists. reflexivity.
  - right. right. right. right. eexists. split; [reflexivity |]. intros s. cbn. discriminate.
Defined.

Definition keyed_items : list (jsstr * value) :=
  [(js "a", name_item "a" [(js "n", VNumber 1)]); (js "b", name_item "b" []);
   (js "a", name_item "a" [(js "n", VNumber 2)])].

Lemma arrayOfObjects_storeValue_keyed_witness :
  exists transformed,
    arrayOfObjects_storeValue (js "name") [] creator_ok None 3 (js "/a") tmp_xyz
      (VArray (map snd keyed_items)) None =
    map_error (storeValue 3 (arrayOfObjects_inner [] creator_ok None) (js "/a") tmp_xyz
                 (VObject transformed) None) /\
    map fst transformed = [js "a"; js "b"] /\
    lookup_entry (js "a") transformed = Some (name_item "a" [(js "n", VNumber 2)]).
Proof.
  destruct (arrayOfObjects_storeValue_keyed (js "name") [] creator_ok None 3 (js "/a") tmp_xyz None
              keyed_items) as (t & H1 & _ & H3 & H4).
  - repeat (apply Forall_cons; [eexists; split; [reflexivity | split; reflexivity] |]). apply Forall_nil.
  - exists t. split; [exact H1 | split].
    + rewrite H3. vm_compute. reflexivity.
    + apply H4. exists [(js "a", name_item "a" [(js "n", VNumber 1)]); (js "b", name_item "b" [])], [].
      split; [reflexivity | intros []].
Defined.

Lemma arrayOfObjects_storeValue_string_item_witness :
  item_key (index_key 1) (VString (js "xyz")) = js "y" /\
  arrayOfObjects_storeValue (index_key 1) [] creator_ok None 3 (js "/a") tmp_xyz
    (VArray [VString (js "xyz"); VObject [(js "1", VString (js "q"))]]) None =
  map_error (storeValue 3 (arrayOfObjects_inner [] creator_ok None) (js "/a") tmp_xyz
               (VObject [(js "y", VString (js "xyz")); (js "q", VObject [(js "1", VString (js "q"))])]) None).
Proof.
  destruct (arrayOfObjects_storeValue_string_item [] creator_ok None 3 (js "/a") tmp_xyz None)
    as [H1 H2].
  split.
  - apply (proj2 (H1 (js "xyz") 1%nat 121 eq_refl)).
  - rewrite H2.
    + reflexivity.
    + repeat constructor; eexists; reflexivity.
Defined.

(** ** Fluent handlers ([fluent_handlers.ts], [AbstractFluentValueStorageHandler]) *)

Section Fluent.

(** What [storeValue] returns; the fluent wrapper only passes it on. *)
Context {R : Type}.

(** A [ValueStorageHandler] as the fluent wrapper sees it. *)
Record StorageHandler := mkStorageHandler {
  sh_name : jsstr;
  sh_canStoreValue : jsstr -> URL -> value -> bool;
  sh_storeValue : jsstr -> URL -> value -> option Options -> R
}.

Definition conditionFn : Type := jsstr -> URL -> value -> bool.

(** The private fields of a fluent handler. *)
Record FluentHandler := mkFluentHandler {
  fl_innerHandler : StorageHandler;
  fl_name : jsstr;
  fl_condition : conditionFn
}.

(** [new FluentValueStorageHandler(handler, nameOrCondition)]: a string
    is a name, a function a condition. *)
Definition newFluentHandler (handler : StorageHandler) (nameOrCondition : option (jsstr + conditionFn))
    : FluentHandler :=
  mkFluentHandler handler
    (match nameOrCondition with Some (inl name) => name | _ => sh_name handler end)
    (match nameOrCondition with
     | Some (inr condition) => condition
     | _ => fun p u v => sh_canStoreValue handler p u v
     end).

(** The fluent handler through its public interface: [get name],
    [canStoreValue] and [storeValue]. *)
Definition as_handler (self : FluentHandler) : StorageHandler :=
  mkStorageHandler (sh_name (fl_innerHandler self))
                   (fun p u v => fl_condition self p u v)
                   (fun p u v o => sh_storeValue (fl_innerHandler self) p u v o).

Definition withName (self : FluentHandler) (name : jsstr) : FluentHandler :=
  newFluentHandler (as_handler self) (Some (inl name)).

(** [whenPathMatches(pattern)], with [picomatch(pattern)] as [matcher]. *)
Definition whenPathMatches (self : FluentHandler) (matcher : jsstr -> bool) : FluentHandler :=
  newFluentHandler (as_handler self)
    (Some (inr (fun p u v => matcher p && sh_canStoreValue (as_handler self) p u v))).

Definition whenPathMatchesSome (self : FluentHandler) (matchers : list (jsstr -> bool)) : FluentHandler :=
  newFluentHandler (as_handler self)
    (Some (inr (fun p u v => existsb (fun m => m p) matchers && sh_canStoreValue (as_handler self) p u v))).

Definition whenIsTypeOf (self : FluentHandler) (type : jsstr) : FluentHandler :=
  newFluentHandler (as_handler self)
    (Some (inr (fun p u v => str_eqb (js_typeof v) type && sh_canStoreValue (as_handler self) p u v))).

(** One call of the fluent chain. *)
Inductive fluent_step :=
| StepWithName (name : jsstr)
| StepPathMatches (matcher : jsstr -> bool)
| StepPathMatchesSome (matchers : list (jsstr -> bool))
| StepIsTypeOf (type : jsstr).

Definition apply_step (self : FluentHandler) (s : fluent_step) : FluentHandler :=
  match s with
  | StepWithName name => withName self name
  | StepPathMatches m => whenPathMatches self m
  | StepPathMatchesSome ms => whenPathMatchesSome self ms
  | StepIsTypeOf t => whenIsTypeOf self t
  end.

(** [handler.withName(..).whenPathMatches(..)...] *)
Definition fluent_chain (self : FluentHandler) (steps : list fluent_step) : FluentHandler :=
  fold_left apply_step steps self.

(** What a step adds to [canStoreValue]. *)
Definition step_condition (p : jsstr) (v : value) (s : fluent_step) : bool :=
  match s with
  | StepWithName _ => true
  | StepPathMatches m => m p
  | StepPathMatchesSome ms => existsb (fun m => m p) ms
  | StepIsTypeOf t => str_eqb (js_typeof v) t
  end.

Lemma fluent_chain_snoc (self : FluentHandler) (steps : list fluent_step) (s : fluent_step) :
  fluent_chain self (steps ++ [s]) = apply_step (fluent_chain self steps) s.
Proof. unfold fluent_chain. now rewrite fold_left_app. Qed.

(** X16: any chain of [withName], [whenPathMatches], [whenPathMatchesSome]
    and [whenIsTypeOf] calls on a fluent handler gives a handler that
    reports the name of the handler the first fluent handler wraps (so
    [withName] never changes the reported name: [get name] returns the
    inner handler's name, not the stored one), stores exactly as that
    handler does, and accepts a value exactly when every condition of
    the chain holds and the first fluent handler accepts it. *)
Theorem fluent_chain_spec (handler : StorageHandler) (nameOrCondition : option (jsstr + conditionFn))
    (steps : list fluent_step) :
  let base := newFluentHandler handler nameOrCondition in
  let h := as_handler (fluent_chain base steps) in
  sh_name h = sh_name handler /\
  (forall p u v o, sh_storeValue h p u v o = sh_storeValue handler p u v o) /\
  (forall p u v, sh_canStoreValue h p u v =
                 forallb (step_condition p v) steps && sh_canStoreValue (as_handler base) p u v).
Proof.
  intros base h. subst h.
  induction steps as [| s steps IH] using rev_ind.
  - cbn. split; [reflexivity | split; [reflexivity |]]. intros p u v. reflexivity.
  - destruct IH as (IHn & IHs & IHc). rewrite fluent_chain_snoc.
    split; [| split].
    + destruct s; exact IHn.
    + intros p u v o. destruct s; exact (IHs p u v o).
    + intros p u v. rewrite forallb_app. cbn [forallb].
      destruct s; cbn [apply_step withName whenPathMatches whenPathMatchesSome whenIsTypeOf
                        newFluentHandler as_handler sh_canStoreValue fl_condition step_condition];
        rewrite ?IHc; cbn [as_handler sh_canStoreValue fl_condition] in IHc;
        rewrite ?IHc, ?andb_true_r; try reflexivity;
        destruct (forallb (step_condition p v) steps); cbn; try reflexivity;
        rewrite ?andb_false_r; reflexivity.
Qed.

End Fluent.

(** ** C1 over every location made of empty and ordinary segments *)

Lemma shorten_trailing_any (sch : scheme) (Fs : list jsstr) :
  shorten sch (Fs ++ [[]]) = Fs.
Proof.
  destruct Fs as [| f Fs']; [destruct sch; reflexivity |].
  apply shorten_trailing. discriminate.
Qed.

Lemma starts_with_refl (s : jsstr) : starts_with s s = true.
Proof. pose proof (starts_with_app s []) as H. now rewrite app_nil_r in H. Qed.

Lemma starts_with_longer (s : jsstr) (c : N) (r : jsstr) : starts_with s (s ++ c :: r) = false.
Proof. induction s as [| x s IH]; cbn; [reflexivity | now rewrite N.eqb_refl, IH]. Qed.

Lemma filter_nil_empty (Ls : list jsstr) :
  Forall (fun seg => seg = [] \/ ordinary_segment seg = true) Ls ->
  filter nonempty_segment Ls = [] -> Forall (fun seg => seg = []) Ls.
Proof.
  induction 1 as [| x l [-> | Hx] _ IH]; intros H; [constructor | |].
  - constructor; [reflexivity | apply IH; exact H].
  - cbn [filter] in H. rewrite (ordinary_nonempty x Hx) in H. discriminate.
Qed.

(** The reference over a location whose segments are empty or ordinary:
    the canonical URL holds the ordinary segments, or is the root "/"
    when there is none; the other URL adds one empty segment. *)
Lemma newDirectoryReference_segments (sch : scheme) (host : jsstr) (Ls : list jsstr) :
  Forall (fun seg => seg = [] \/ ordinary_segment seg = true) Ls ->
  newDirectoryReference (mkURL sch host Ls)
  = mkDirRef (mkURL sch host (match filter nonempty_segment Ls with [] => [[]] | _ => filter nonempty_segment Ls end))
             (mkURL sch host (filter nonempty_segment Ls ++ [[]])).
Proof.
  intros Hall. destruct (filter nonempty_segment Ls) as [| f F] eqn:E.
  - now apply newDirectoryReference_root, filter_nil_empty.
  - rewrite newDirectoryReference_filter by (assumption || congruence). now rewrite E.
Qed.

Lemma pathname_canonical (sch : scheme) (host : jsstr) (Fs : list jsstr) :
  pathname (mkURL sch host (match Fs with [] => [[]] | _ => Fs end)) = SLASH :: join_slash Fs.
Proof. destruct Fs as [| f F]; [reflexivity |]. apply pathname_mkURL. discriminate. Qed.

Lemma pathname_trailing_dir (sch : scheme) (host : jsstr) (Fs : list jsstr) :
  pathname (mkURL sch host (Fs ++ [[]]))
  = match Fs with [] => [SLASH] | _ => (SLASH :: join_slash Fs) ++ [SLASH] end.
Proof.
  destruct Fs as [| f F]; [reflexivity |].
  rewrite pathname_trailing, pathname_mkURL by discriminate. reflexivity.
Qed.

Lemma canonical_segments_nonempty (Fs : list jsstr) :
  Fs <> [] -> match Fs with [] => [[]] | _ => Fs end = Fs.
Proof. destruct Fs; [congruence | reflexivity]. Qed.

Lemma normalize_segment_dot (b : bool) (res : list jsstr) : normalize_segment b res [DOT] = res.
Proof. reflexivity. Qed.

(** The normalized join of "." onto an absolute path of ordinary
    segments is that path. *)
Lemma normalize_dot_join (Fs : list jsstr) :
  Forall (fun seg => ordinary_segment seg = true) Fs ->
  normalize ((SLASH :: join_slash Fs) ++ [SLASH; DOT]) = SLASH :: join_slash Fs.
Proof.
  intros HF. destruct Fs as [| f F] eqn:EF; [reflexivity |]. rewrite <- EF in *.
  assert (Hne : Fs <> []) by (rewrite EF; discriminate).
  pose proof HF as HF'. ordinary_facts HF'.
  assert (Hj : join_slash Fs <> []) by now apply join_slash_not_nil.
  assert (Hsplit : split_slash (SLASH :: join_slash Fs ++ [SLASH; DOT]) = [] :: Fs ++ [[DOT]]).
  { cbn [split_slash]. rewrite N.eqb_refl. f_equal.
    replace (join_slash Fs ++ [SLASH; DOT]) with (join_slash (Fs ++ [[DOT]]))
      by (rewrite join_app by (assumption || discriminate); reflexivity).
    apply split_join; [destruct Fs; discriminate |].
    apply Forall_app. split; [assumption | now repeat constructor]. }
  unfold normalize. cbn [app]. cbn zeta. rewrite N.eqb_refl.
  replace (ends_with_unit (SLASH :: join_slash Fs ++ [SLASH; DOT]) SLASH) with false
    by (change (SLASH :: join_slash Fs ++ [SLASH; DOT]) with ((SLASH :: join_slash Fs) ++ [SLASH; DOT]);
        rewrite ends_with_unit_app by discriminate; reflexivity).
  unfold normalizeString. rewrite Hsplit. cbn [fold_left].
  rewrite fold_left_app, (normalize_fold _ Fs) by assumption. cbn [fold_left].
  rewrite normalize_segment_dot, filter_nonempty by assumption.
  change (normalize_segment (negb true) [] []) with (@nil jsstr).
  rewrite app_nil_r, rev_involutive.
  rewrite !andb_false_r. reflexivity.
Qed.

Section ContentsOfDirectory.
Variables (sch : scheme) (host : jsstr) (Fs : list jsstr) (C : URL).
Hypothesis HFord : Forall (fun seg => ordinary_segment seg = true) Fs.

(** A reference whose URL with the trailing slash holds the ordinary
    segments [Fs], possibly none, and an empty last segment. *)
Let d := mkDirRef C (mkURL sch host (Fs ++ [[]])).

Lemma contents_relative (ns : list jsstr) :
  ns <> [] -> Forall (fun seg => ordinary_segment seg = true) ns ->
  in_url_fragment (join_slash ns) = true ->
  getContentsUrl d (join_slash ns) = Some (Ok (mkURL sch host (Fs ++ ns))).
Proof.
  intros Hne Hall Hfrag.
  assert (Hall2 : Forall (fun seg => ordinary_segment seg = true) (Fs ++ ns))
    by (apply Forall_app; split; assumption).
  assert (Hne2 : Fs ++ ns <> []) by (destruct Fs; [exact Hne | discriminate]).
  pose proof Hall as Hall'. ordinary_facts Hall'.
  unfold getContentsUrl, resolve_reference, d.
  rewrite Hfrag. cbn [url_scheme url_path url_host urlWithTrailingSlash].
  destruct (join_head ns Hne Hall) as (c & rest & Ejoin & Hc).
  rewrite Ejoin, Hc, <- Ejoin.
  replace (relative_start sch (join_slash ns) (Fs ++ [[]])) with Fs
    by (destruct sch; cbn [relative_start];
        [rewrite join_not_drive by assumption |]; symmetry; apply shorten_trailing_any).
  rewrite split_join, path_state_plain by assumption.
  rewrite (pathname_mkURL sch host (Fs ++ ns)), normalize_ordinary, set_pathname_plain by
    (try (ordinary_facts Hall2); assumption).
  cbn [url_scheme url_host].
  rewrite (pathname_app sch host Fs ns), pathname_trailing, (pathname_mkURL _ _ ns) by assumption.
  replace (pathname (mkURL sch host Fs) ++ SLASH :: join_slash ns)
    with ((pathname (mkURL sch host Fs) ++ [SLASH]) ++ join_slash ns)
    by now rewrite <- app_assoc.
  now rewrite starts_with_app.
Qed.

Lemma contents_absolute (ms : list jsstr) :
  ms <> [] -> Forall (fun seg => ordinary_segment seg = true) ms ->
  in_url_fragment (SLASH :: join_slash ms) = true ->
  getContentsUrl d (SLASH :: join_slash ms)
  = if starts_with (SLASH :: join_slash ms) (pathname (mkURL sch host (Fs ++ [[]])))
    then Some (Ok (mkURL sch host ms))
    else Some (Err (mkDirectoryEscapeError (SLASH :: join_slash ms) (SLASH :: join_slash ms)
                                           (pathname C))).
Proof.
  intros Hne Hall Hfrag.
  pose proof Hall as Hall'. ordinary_facts Hall'.
  unfold getContentsUrl, resolve_reference, d.
  rewrite Hfrag. cbn [url_scheme url_path url_host urlWithTrailingSlash canonicalUrl].
  rewrite N.eqb_refl.
  replace (file_slash_start sch (join_slash ms) (Fs ++ [[]])) with (@nil jsstr).
  2:{ destruct sch; [| reflexivity].
      destruct Fs as [| p0 r].
      - cbn [app file_slash_start is_normalized_windows_drive_letter]. now rewrite andb_false_r.
      - inversion HFord as [| ? ? Hp0 _]; subst.
        pose proof (ordinary_plain _ Hp0) as Hpl. unfold plain_segment in Hpl.
        cbn [app file_slash_start].
        destruct p0 as [| a [| b [|]]]; cbn [is_normalized_windows_drive_letter];
          rewrite ?andb_false_r; try reflexivity.
        cbn [is_windows_drive_letter] in Hpl.
        destruct (is_ascii_alpha a), (N.eqb b 58); cbn in Hpl |- *;
          rewrite ?andb_false_r in Hpl; try discriminate Hpl; now rewrite andb_false_r. }
  rewrite split_join, path_state_plain by assumption. cbn [app].
  rewrite (pathname_mkURL sch host ms), normalize_ordinary, set_pathname_plain by assumption.
  cbn [url_scheme url_host].
  rewrite (pathname_mkURL sch host ms) by assumption. reflexivity.
Qed.

(** "." resolves to the URL with the trailing slash itself. *)
Lemma contents_dot : getContentsUrl d [DOT] = Some (Ok (mkURL sch host (Fs ++ [[]]))).
Proof.
  unfold getContentsUrl, resolve_reference, d.
  change (in_url_fragment [DOT]) with true. cbn iota.
  cbn [url_scheme url_path url_host urlWithTrailingSlash].
  change (N.eqb DOT SLASH) with false. cbn iota.
  replace (relative_start sch [DOT] (Fs ++ [[]])) with Fs
    by (destruct sch; cbn [relative_start]; symmetry; apply shorten_trailing_any).
  change (split_slash [DOT]) with [[DOT]].
  change (path_state sch Fs [[DOT]]) with (Fs ++ [[]]).
  destruct Fs as [| f F] eqn:EF; [destruct sch; reflexivity |]. rewrite <- EF in *.
  assert (Hne : Fs <> []) by (rewrite EF; discriminate).
  pose proof HFord as HF'. ordinary_facts HF'.
  assert (HF1 : Forall (fun seg => has_slash seg = false) (Fs ++ [[]]))
    by (apply Forall_app; split; [assumption | now repeat constructor]).
  assert (HF2 : Forall (fun seg => plain_segment seg = true) (Fs ++ [[]]))
    by (apply Forall_app; split; [assumption | now repeat constructor]).
  assert (HF3 : Forall (fun seg => posix_plain seg = true) (Fs ++ [[]]))
    by (apply Forall_app; split; [assumption | now repeat constructor]).
  assert (Hfilter : filter nonempty_segment (Fs ++ [[]]) = Fs)
    by (rewrite filter_app, filter_nonempty by assumption; cbn; apply app_nil_r).
  assert (Hj : join_slash Fs <> []) by now apply join_slash_not_nil.
  assert (Hjoin : SLASH :: join_slash Fs ++ [SLASH] = SLASH :: join_slash (Fs ++ [[]]))
    by (rewrite join_app by (assumption || discriminate); reflexivity).
  assert (Hend : ends_with_unit (SLASH :: join_slash (Fs ++ [[]])) SLASH = true).
  { rewrite <- Hjoin.
    change (SLASH :: join_slash Fs ++ [SLASH]) with ((SLASH :: join_slash Fs) ++ [SLASH]).
    rewrite ends_with_unit_app by discriminate. reflexivity. }
  rewrite (pathname_mkURL sch host (Fs ++ [[]])) by (destruct Fs; discriminate).
  rewrite normalize_absolute_trailing by (try rewrite Hfilter; assumption).
  rewrite Hfilter, Hend, Hjoin, set_pathname_plain by (try (destruct Fs; discriminate); assumption).
  cbn [url_scheme url_host].
  rewrite (pathname_mkURL sch host (Fs ++ [[]])) by (destruct Fs; discriminate).
  now rewrite starts_with_refl.
Qed.

End ContentsOfDirectory.

(** What [getContentsUrl] does over a reference whose canonical URL holds
    the ordinary segments [Fs] (the root when there is none). *)
Lemma contents_all (sch : scheme) (host : jsstr) (Fs : list jsstr) :
  Forall (fun seg => ordinary_segment seg = true) Fs ->
  let d := mkDirRef (mkURL sch host (match Fs with [] => [[]] | _ => Fs end))
                    (mkURL sch host (Fs ++ [[]])) in
  let L := pathname (canonicalUrl d) in
  let T := pathname (urlWithTrailingSlash d) in
  L = SLASH :: join_slash Fs /\
  T = match Fs with [] => [SLASH] | _ => L ++ [SLASH] end /\
  (forall ns, ns <> [] -> Forall (fun seg => ordinary_segment seg = true) ns ->
     in_url_fragment (join_slash ns) = true ->
     getContentsUrl d (join_slash ns) = Some (Ok (mkURL sch host (Fs ++ ns))) /\
     pathname (mkURL sch host (Fs ++ ns)) = T ++ join_slash ns) /\
  (getContentsUrl d [DOT] = Some (Ok (urlWithTrailingSlash d)) /\
   spec_joined_path d [DOT] = L /\ spec_stays_within d [DOT] = false) /\
  (forall ms, ms <> [] -> Forall (fun seg => ordinary_segment seg = true) ms ->
     let n := SLASH :: join_slash ms in
     in_url_fragment n = true ->
     getContentsUrl d n = if starts_with n T then Some (Ok (mkURL sch host ms))
                          else Some (Err (mkDirectoryEscapeError n n L))) /\
  (Fs <> [] ->
     (forall ns, ns <> [] -> Forall (fun seg => ordinary_segment seg = true) ns ->
        spec_joined_path d (join_slash ns) = pathname (mkURL sch host (Fs ++ ns))) /\
     (forall ms, ms <> [] -> Forall (fun seg => ordinary_segment seg = true) ms ->
        spec_stays_within d (SLASH :: join_slash ms) = true)).
Proof.
  intros HF d L T.
  assert (EL : L = SLASH :: join_slash Fs) by apply pathname_canonical.
  assert (ET : T = match Fs with [] => [SLASH] | _ => L ++ [SLASH] end)
    by (rewrite EL; apply pathname_trailing_dir).
  assert (Edot : spec_joined_path d [DOT] = L)
    by (unfold spec_joined_path; fold L; rewrite EL; now apply normalize_dot_join).
  split; [exact EL |]. split; [exact ET |]. split; [| split; [| split]].
  - intros ns Hne Hall Hfrag. split; [now apply contents_relative |].
    unfold T, d. cbn [urlWithTrailingSlash].
    rewrite pathname_trailing, pathname_app, (pathname_mkURL _ _ ns) by assumption.
    now rewrite <- app_assoc.
  - split; [now apply contents_dot |]. split; [exact Edot |].
    unfold spec_stays_within. rewrite Edot. fold L. apply starts_with_longer.
  - intros ms Hne Hall n Hfrag. now apply contents_absolute.
  - intros HFne.
    assert (Ed : d = newDirectoryReference (mkURL sch host Fs)).
    { unfold d. rewrite canonical_segments_nonempty by exact HFne.
      symmetry. now apply newDirectoryReference_ordinary. }
    rewrite Ed. split.
    + intros ns Hne Hall. now apply spec_joined_relative.
    + intros ms Hne Hall. now apply spec_stays_within_absolute.
Qed.

(** C1 (amended): for every directory reference, [getContentsUrl(n)]
    resolves [n] as a URL reference against the URL with the trailing
    slash, normalizes the resolved path and writes it back; it succeeds
    with that URL exactly when its path starts with T, the path of the URL
    with the trailing slash, and otherwise raises a directory escape
    recording [n], that normalized path and the canonical path L. Over a
    location whose segments are empty or ordinary: L is "/" followed by
    the ordinary segments, T is L + "/", or "/" at the root; a name made
    of ordinary segments, with no scheme, lands at T + the name; "." resolves to the URL
    with the trailing slash itself and is accepted, while the spec's
    normalized join of "." is L, which that reading rejects; a name "/"
    followed by ordinary segments is resolved from the root and escapes,
    with the name as the escaped path, unless it starts with T. Below the
    root the spec's join agrees on ordinary names and keeps every such
    absolute name inside. *)
Theorem getContentsUrl_resolution :
  (forall (u : URL) (n : jsstr) (r : URL),
     let d := newDirectoryReference u in
     resolve_reference n (urlWithTrailingSlash d) = Some r ->
     getContentsUrl d n
     = let c := set_pathname r (normalize (pathname r)) in
       if starts_with (pathname c) (pathname (urlWithTrailingSlash d)) then Some (Ok c)
       else Some (Err (mkDirectoryEscapeError n (pathname c) (pathname (canonicalUrl d))))) /\
  (forall (sch : scheme) (host : jsstr) (Ls : list jsstr),
     Forall (fun seg => seg = [] \/ ordinary_segment seg = true) Ls ->
     let d := newDirectoryReference (mkURL sch host Ls) in
     let Fs := filter nonempty_segment Ls in
     let L := pathname (canonicalUrl d) in
     let T := pathname (urlWithTrailingSlash d) in
     L = SLASH :: join_slash Fs /\
     T = match Fs with [] => [SLASH] | _ => L ++ [SLASH] end /\
     (forall ns, ns <> [] -> Forall (fun seg => ordinary_segment seg = true) ns ->
        in_url_fragment (join_slash ns) = true ->
        getContentsUrl d (join_slash ns) = Some (Ok (mkURL sch host (Fs ++ ns))) /\
        pathname (mkURL sch host (Fs ++ ns)) = T ++ join_slash ns) /\
     (getContentsUrl d [DOT] = Some (Ok (urlWithTrailingSlash d)) /\
      spec_joined_path d [DOT] = L /\ spec_stays_within d [DOT] = false) /\
     (forall ms, ms <> [] -> Forall (fun seg => ordinary_segment seg = true) ms ->
        let n := SLASH :: join_slash ms in
        in_url_fragment n = true ->
        getContentsUrl d n = if starts_with n T then Some (Ok (mkURL sch host ms))
                             else Some (Err (mkDirectoryEscapeError n n L))) /\
     (Fs <> [] ->
        (forall ns, ns <> [] -> Forall (fun seg => ordinary_segment seg = true) ns ->
           spec_joined_path d (join_slash ns) = pathname (mkURL sch host (Fs ++ ns))) /\
        (forall ms, ms <> [] -> Forall (fun seg => ordinary_segment seg = true) ms ->
           spec_stays_within d (SLASH :: join_slash ms) = true))).
Proof.
  split.
  - intros u n r d Hr. unfold getContentsUrl. now rewrite Hr.
  - intros sch host Ls Hall. cbv zeta.
    rewrite newDirectoryReference_segments by exact Hall.
    exact (contents_all sch host (filter nonempty_segment Ls) (filter_nonempty_ordinary Ls Hall)).
Qed.

Lemma getContentsUrl_resolution_witness :
  Forall (fun seg => seg = [] \/ ordinary_segment seg = true) [[]; []] /\
  getContentsUrl (newDirectoryReference (mkURL File [] [[]; []])) (js ".")
  = Some (Ok (urlWithTrailingSlash (newDirectoryReference (mkURL File [] [[]; []])))) /\
  pathname (urlWithTrailingSlash (newDirectoryReference (mkURL File [] [[]; []]))) = js "/" /\
  Forall (fun seg => seg = [] \/ ordinary_segment seg = true) [js "foo"; []; js "bar"] /\
  getContentsUrl (newDirectoryReference (mkURL File [] [js "foo"; []; js "bar"])) (js "/etc")
  = Some (Err (mkDirectoryEscapeError (js "/etc") (js "/etc") (js "/foo/bar"))).
Proof.
  assert (H1 : Forall (fun seg => seg = [] \/ ordinary_segment seg = true) [@nil N; []])
    by (repeat constructor; left; reflexivity).
  assert (H2 : Forall (fun seg => seg = [] \/ ordinary_segment seg = true) [js "foo"; []; js "bar"])
    by (repeat constructor; (left; reflexivity) || (right; reflexivity)).
  destruct getContentsUrl_resolution as [_ F].
  destruct (F File [] _ H1) as (_ & ET & _ & [Hdot _] & _).
  destruct (F File [] _ H2) as (EL & _ & _ & _ & Habs & _).
  split; [exact H1 |]. split; [exact Hdot |]. split; [rewrite ET; reflexivity |].
  split; [exact H2 |].
  change (getContentsUrl (newDirectoryReference (mkURL File [] [js "foo"; []; js "bar"])) (js "/etc"))
    with (getContentsUrl (newDirectoryReference (mkURL File [] [js "foo"; []; js "bar"]))
                         (SLASH :: join_slash [js "etc"])).
  rewrite (Habs [js "etc"] ltac:(discriminate) ltac:(repeat constructor) ltac:(reflexivity)).
  rewrite EL. vm_compute. reflexivity.
Defined.

(** ** C8: the child location of a property *)

(** [encodeURIComponent] of a concatenation whose first part encodes. *)
Lemma encodeURIComponent_app (a b ra : jsstr) :
  encodeURIComponent a = Some ra ->
  encodeURIComponent (a ++ b) = option_map (fun r => ra ++ r) (encodeURIComponent b).
Proof.
  revert ra.
  induction a as [a IH] using (well_founded_induction (Wf_nat.well_founded_ltof _ (@List.length N))).
  intros ra Ha. destruct a as [| c rest].
  - cbn in Ha. injection Ha as <-. cbn. destruct (encodeURIComponent b); reflexivity.
  - cbn [app encodeURIComponent] in Ha |- *.
    destruct (uri_unreserved c).
    + destruct (encodeURIComponent rest) as [r' |] eqn:Er; [| discriminate].
      cbn in Ha. injection Ha as <-.
      rewrite (IH rest ltac:(unfold Wf_nat.ltof; cbn; lia) r' Er).
      destruct (encodeURIComponent b); reflexivity.
    + destruct (is_high_surrogate c).
      * destruct rest as [| d rest']; [discriminate |]. cbn [app].
        destruct (is_low_surrogate d); [| discriminate].
        destruct (encodeURIComponent rest') as [r' |] eqn:Er; [| discriminate].
        cbn in Ha. injection Ha as <-.
        rewrite (IH rest' ltac:(unfold Wf_nat.ltof; cbn; lia) r' Er).
        destruct (encodeURIComponent b); cbn; [now rewrite app_assoc | reflexivity].
      * destruct (is_low_surrogate c); [discriminate |].
        destruct (encodeURIComponent rest) as [r' |] eqn:Er; [| discriminate].
        cbn in Ha. injection Ha as <-.
        rewrite (IH rest ltac:(unfold Wf_nat.ltof; cbn; lia) r' Er).
        destruct (encodeURIComponent b); cbn; [now rewrite app_assoc | reflexivity].
Qed.

(** A code unit [encodeURIComponent] leaves as it is is none of the
    code units the URL parser treats apart, nor "/", ":", "|" or "%". *)
Lemma unreserved_facts (c : N) :
  uri_unreserved c = true ->
  url_unmodelled_unit c = false /\ N.eqb c SLASH = false /\ N.eqb c 58 = false /\
  N.eqb c 124 = false /\ N.eqb c PERCENT = false.
Proof.
  intros H. unfold uri_unreserved, is_ascii_alpha in H.
  repeat rewrite orb_true_iff in H. repeat rewrite andb_true_iff in H.
  rewrite ?N.eqb_eq, ?N.leb_le in H.
  unfold url_unmodelled_unit, SLASH, PERCENT.
  repeat split; apply not_true_iff_false; intros E;
    repeat rewrite orb_true_iff in E; rewrite ?N.eqb_eq, ?N.leb_le, ?N.ltb_lt in E; lia.
Qed.

Lemma existsb_unreserved (g : N -> bool) (s : jsstr) :
  (forall c, uri_unreserved c = true -> g c = false) ->
  Forall (fun c => uri_unreserved c = true) s -> existsb g s = false.
Proof. intros Hg. induction 1 as [| c s Hc _ IH]; cbn; [reflexivity | now rewrite Hg, IH]. Qed.

Lemma single_dot_cases (s : jsstr) :
  is_single_dot_segment s = true -> s = [DOT] \/ In PERCENT s.
Proof.
  destruct s as [| a [| b [| c [| e r]]]]; cbn [is_single_dot_segment]; intros H; try discriminate.
  - left. apply N.eqb_eq in H. now subst.
  - right. apply andb_true_iff in H as [H _]. apply andb_true_iff in H as [H _].
    apply N.eqb_eq in H. subst. now left.
Qed.

Lemma double_dot_cases (s : jsstr) :
  is_double_dot_segment s = true -> s = [DOT; DOT] \/ In PERCENT s.
Proof.
  destruct s as [| a [| b [| c [| e [| f [| g [| h r]]]]]]]; cbn [is_double_dot_segment];
    intros H; try discriminate.
  - left. apply andb_true_iff in H as [H1 H2]. apply N.eqb_eq in H1, H2. now subst.
  - right. apply orb_true_iff in H as [H | H]; apply andb_true_iff in H as [H1 H2].
    + destruct (single_dot_cases _ H2) as [E | Hin]; [discriminate | now right].
    + destruct (single_dot_cases _ H1) as [E | Hin]; [discriminate |].
      destruct Hin as [<- | [<- | [<- | []]]]; cbn; tauto.
  - right. apply andb_true_iff in H as [H1 _].
    destruct (single_dot_cases _ H1) as [E | Hin]; [discriminate |].
    destruct Hin as [<- | [<- | [<- | []]]]; cbn; tauto.
Qed.

Lemma drive_letter_cases (s : jsstr) :
  is_windows_drive_letter s = true -> In 58 s \/ In 124 s.
Proof.
  destruct s as [| a [| b [| c r]]]; cbn [is_windows_drive_letter]; intros H; try discriminate.
  apply andb_true_iff in H as [_ H]. apply orb_true_iff in H as [H | H]; apply N.eqb_eq in H; subst;
    [left | right]; cbn; tauto.
Qed.

Lemma scheme_rest_unreserved (s : jsstr) :
  Forall (fun c => uri_unreserved c = true) s -> scheme_rest s = false.
Proof.
  induction 1 as [| c s Hc _ IH]; [reflexivity |]. cbn [scheme_rest].
  destruct (unreserved_facts c Hc) as (_ & _ & H58 & _). rewrite H58, IH.
  now destruct (is_scheme_unit c).
Qed.

(** A name is simple exactly in the plain sense: not empty, not "." or
    "..", and only made of the code units [encodeURIComponent] leaves. *)
Lemma simple_name_unreserved (name : jsstr) :
  name <> [] -> Forall (fun c => uri_unreserved c = true) name ->
  name <> [DOT] -> name <> [DOT; DOT] -> simple_name name = true.
Proof.
  intros Hne Hall Hd1 Hd2.
  assert (Hnot : forall x, (forall c, uri_unreserved c = true -> N.eqb c x = false) -> ~ In x name).
  { intros x Hx Hin. rewrite Forall_forall in Hall.
    pose proof (Hx x (Hall x Hin)) as E. now rewrite N.eqb_refl in E. }
  assert (Hno37 : ~ In PERCENT name) by (apply Hnot; intros c Hc; apply (unreserved_facts c Hc)).
  assert (Hno58 : ~ In 58 name) by (apply Hnot; intros c Hc; apply (unreserved_facts c Hc)).
  assert (Hno124 : ~ In 124 name) by (apply Hnot; intros c Hc; apply (unreserved_facts c Hc)).
  assert (Hs1 : is_single_dot_segment name = false).
  { apply not_true_iff_false. intros H. destruct (single_dot_cases _ H); auto. }
  assert (Hs2 : is_double_dot_segment name = false).
  { apply not_true_iff_false. intros H. destruct (double_dot_cases _ H); auto. }
  assert (Hs3 : is_windows_drive_letter name = false).
  { apply not_true_iff_false. intros H. destruct (drive_letter_cases _ H); auto. }
  assert (Hslash : has_slash name = false)
    by (apply existsb_unreserved; [intros c Hc; apply (unreserved_facts c Hc) | exact Hall]).
  assert (Hum : existsb url_unmodelled_unit name = false)
    by (apply existsb_unreserved; [intros c Hc; apply (unreserved_facts c Hc) | exact Hall]).
  assert (Hun : forallb uri_unreserved name = true)
    by (apply forallb_forall; intros c Hc; rewrite Forall_forall in Hall; now apply Hall).
  destruct name as [| a rest]; [congruence |].
  inversion Hall as [| ? ? Ha Hrest]; subst.
  destruct (unreserved_facts a Ha) as (_ & Ha47 & _).
  unfold simple_name, ordinary_segment, plain_segment, in_url_fragment.
  rewrite Hslash, Hum, Hs1, Hs2, Hs3, Hun. cbn [has_scheme starts_with].
  rewrite scheme_rest_unreserved by exact Hrest. rewrite ?Ha47.
  now rewrite andb_false_r.
Qed.

(** C8, as the code has it: the child location is
    [getContentsUrl(encodeURIComponent(encoder(key)))], the encoder being
    the merged [propertyNameEncoder] or [encodePathElement]. When the
    encoder's output is a plain name, not empty, not "." or "..", made
    only of A-Z a-z 0-9 - _ . ! ~ * ' ( ), [encodeURIComponent] leaves it
    as it is and the child location is its join onto the directory, for
    every location made of empty and ordinary segments, the root included;
    wherever a "%" stands in the encoder's output, [encodeURIComponent]
    turns it into "%25". *)
Theorem child_location_encoded :
  (forall merged : option Options,
     propertyNameEncoder merged
     = match read_option merged (js "propertyNameEncoder") with
       | OptUndefined => Some encodePathElement
       | OptEncoder _ f => Some f
       | _ => None
       end) /\
  (forall (d : DirectoryReference) (f : jsstr -> jsstr) (k : jsstr),
     nested_destination d (Some f) k
     = match encodeURIComponent (f k) with
       | Some name => contents_url d name
       | None => throw URIErrorLoneSurrogate
       end) /\
  (forall s : jsstr, Forall (fun c => uri_unreserved c = true) s -> encodeURIComponent s = Some s) /\
  (forall a b ra : jsstr, encodeURIComponent a = Some ra ->
     encodeURIComponent (a ++ PERCENT :: b)
     = option_map (fun r => ra ++ js "%25" ++ r) (encodeURIComponent b)) /\
  (forall (sch : scheme) (host : jsstr) (Ls : list jsstr) (f : jsstr -> jsstr) (k : jsstr),
     Forall (fun seg => seg = [] \/ ordinary_segment seg = true) Ls ->
     f k <> [] -> Forall (fun c => uri_unreserved c = true) (f k) ->
     f k <> [DOT] -> f k <> [DOT; DOT] ->
     nested_destination (newDirectoryReference (mkURL sch host Ls)) (Some f) k
       = ret (mkURL sch host (filter nonempty_segment Ls ++ [f k])) /\
     spec_child_location (newDirectoryReference (mkURL sch host Ls)) f k
       = Some (Ok (mkURL sch host (filter nonempty_segment Ls ++ [f k])))).
Proof.
  split; [reflexivity |]. split; [| split; [| split]].
  - intros d f k. unfold nested_destination. cbn [lift_option]. rewrite bind_ret.
    destruct (encodeURIComponent (f k)); [| reflexivity]. cbn [lift_option]. now rewrite bind_ret.
  - exact encodeURIComponent_unreserved.
  - intros a b ra Ha. rewrite (encodeURIComponent_app a (PERCENT :: b) ra Ha).
    rewrite encodeURIComponent_percent.
    destruct (encodeURIComponent b); reflexivity.
  - intros sch host Ls f k HLs Hne Hun Hd1 Hd2.
    pose proof (simple_name_unreserved (f k) Hne Hun Hd1 Hd2) as Hs.
    unfold simple_name in Hs.
    apply andb_true_iff in Hs as [Hs Hfrag]. apply andb_true_iff in Hs as [Hord _].
    rewrite newDirectoryReference_segments by exact HLs.
    pose proof (contents_relative sch host (filter nonempty_segment Ls)
                  (mkURL sch host (match filter nonempty_segment Ls with
                                   | [] => [[]] | _ => filter nonempty_segment Ls end))
                  (filter_nonempty_ordinary Ls HLs) [f k]) as E.
    cbn [join_slash] in E.
    specialize (E ltac:(discriminate) ltac:(now repeat constructor) Hfrag).
    split.
    + unfold nested_destination. cbn [lift_option]. rewrite bind_ret.
      rewrite (encodeURIComponent_unreserved _ Hun). cbn [lift_option]. rewrite bind_ret.
      unfold contents_url. now rewrite E.
    + exact E.
Qed.

Lemma child_location_encoded_witness :
  Forall (fun seg => seg = [] \/ ordinary_segment seg = true) [js "tmp"; js "xyz"; []] /\
  nested_destination (newDirectoryReference (file_url "/tmp/xyz/")) (Some encodePathElement) (js "a-b")
    = ret (file_url "/tmp/xyz/a-b") /\
  encodeURIComponent (js "a%b") = Some (js "a%25b").
Proof.
  assert (H1 : Forall (fun seg => seg = [] \/ ordinary_segment seg = true) [js "tmp"; js "xyz"; []])
    by (repeat constructor; (left; reflexivity) || (right; reflexivity)).
  destruct child_location_encoded as (_ & _ & _ & Hpct & F).
  split; [exact H1 |]. split.
  - change (file_url "/tmp/xyz/") with (mkURL File [] [js "tmp"; js "xyz"; []]).
    rewrite (proj1 (F File [] _ encodePathElement (js "a-b") H1
                      ltac:(discriminate) ltac:(repeat constructor) ltac:(discriminate) ltac:(discriminate))).
    reflexivity.
  - exact (Hpct (js "a") (js "b") (js "a") eq_refl).
Defined.
